(** * SudokuSpeed: candidate generation, filtering, divisor search and
      backtracking solver of the "Somewhat Square Sudoku" program

    A shallow embedding of [SudokuSpeed.cpp].  Part I translates the program
    function by function, Part II states the vocabulary of the specification,
    Part III proves the properties.

    Conventions of the embedding.
    - [std::string] is a list of characters, [vector<T>] a list; [v.push_back(x)]
      is [v ++ [x]]; reading [v[i]] is [nth i v default]; writing [v[i] = x] is
      [upd i x v].  C++ leaves an index out of range undefined; [nth] then
      returns the default and [upd] leaves the list alone.
    - [int] is a mathematical integer; where the program does arithmetic that
      could leave the 32-bit range the wrap-around [wrap32] is written out.
    - Loops whose termination is not structural ([do ... while
      (next_permutation)], the recursion of [solveFixed], the countdown that
      builds [candidateGCDs]) take a fuel argument; the looping functions that
      could run out of it return [None] then, and the theorems prove that the
      fuel the program is run with is enough.
    - The worker threads of the generator only append finished shards to
      [validNumbers] under a lock; the embedding takes the shards in the order
      the threads are created.  The progress thread only prints. *)

From Stdlib Require Import String.
From Stdlib Require Import ZArith List Bool Lia Ascii Permutation Arith.
From Stdlib Require Import Sorted.
Import ListNotations.
Local Open Scope Z_scope.

(** * Part I: the program *)

(** ** Data *)

(** [std::string]. *)
Definition str : Type := list ascii.

(** A string literal of the source. *)
Definition lit (s : String.string) : str := String.list_ascii_of_string s.

(** [c - '0']. *)
Definition digit_of (c : ascii) : Z := Z.of_N (N_of_ascii c) - 48.

(** [1 << d] for an [int] shift count. *)
Definition bit (d : Z) : Z := Z.shiftl 1 d.

(** [v[i] = x]. *)
Fixpoint upd {A : Type} (i : nat) (x : A) (v : list A) : list A :=
  match v, i with
  | [], _ => []
  | _ :: t, O => x :: t
  | y :: t, S j => y :: upd j x t
  end.

(** Two's complement wrap-around of a 32-bit [int]. *)
Definition wrap32 (x : Z) : Z := (x + 2 ^ 31) mod 2 ^ 32 - 2 ^ 31.

Definition INT_MAX : Z := 2 ^ 31 - 1.

(** ** Helper functions (lines 29-98) *)

(** The first loop of [containsRequiredDigits]: the mask of the digits of
    [number]. *)
Definition digitMaskOf (number : str) : Z :=
  fold_left (fun digitMask c => Z.lor digitMask (bit (digit_of c))) number 0.

(** The second loop: [return false] at the first required digit whose bit is
    missing. *)
Fixpoint allRequiredIn (digitMask : Z) (requiredDigits : list ascii) : bool :=
  match requiredDigits with
  | [] => true
  | digit :: rest =>
      if Z.land digitMask (bit (digit_of digit)) =? 0 then false
      else allRequiredIn digitMask rest
  end.

Definition containsRequiredDigits (number : str) (requiredDigits : list ascii) : bool :=
  allRequiredIn (digitMaskOf number) requiredDigits.

(** One step of the remainder loop, in [int] arithmetic:
    [remainder = (remainder * 10 + (c - '0')) % candidateGCD].  The source
    divides by zero when [candidateGCD] is 0; the value of the model there
    ([Z.rem x 0 = x]) stands for nothing: the program calls the filter
    only with the divisors of [candidateGCDs], which are at least 337. *)
Definition remainderStep (candidateGCD : Z) (remainder : Z) (c : ascii) : Z :=
  Z.rem (wrap32 (wrap32 (remainder * 10) + digit_of c)) candidateGCD.

Definition remainderOf (opt : str) (candidateGCD : Z) : Z :=
  fold_left (remainderStep candidateGCD) opt 0.

Definition filterDivisibleByCandidate (options : list str) (candidateGCD : Z) : list str :=
  fold_left
    (fun filtered opt =>
       if remainderOf opt candidateGCD =? 0 then filtered ++ [opt] else filtered)
    options [].

(** [number[column]]; [std::string] has a terminating NUL. *)
Definition charAt (number : str) (column : nat) : ascii := nth column number zero.

Definition filterByColumn (numbers : list str) (column : nat) (value : ascii) : list str :=
  fold_left
    (fun filtered number =>
       if Ascii.eqb (charAt number column) value then filtered ++ [number] else filtered)
    numbers [].

(** [unordered_set<char>] as a duplicate-free list; the range constructor
    inserts the elements one by one. *)
Definition charset : Type := list ascii.

Definition charset_find (s : charset) (c : ascii) : bool := existsb (Ascii.eqb c) s.

Definition charset_insert (s : charset) (c : ascii) : charset :=
  if charset_find s c then s else c :: s.

Definition charset_of (values : list ascii) : charset :=
  fold_left charset_insert values [].

Definition filterDisallowedValues (numbers : list str) (column : nat)
    (disallowedValues : list ascii) : list str :=
  let disallowedSet := charset_of disallowedValues in
  fold_left
    (fun filtered number =>
       if negb (charset_find disallowedSet (charAt number column))
       then filtered ++ [number] else filtered)
    numbers [].

(** ** STEP 1: the generator (lines 104-184) *)

Definition requiredDigits : list ascii := ["0"; "2"; "5"]%char.

(** The values of a [char] loop variable running from ['0'] to ['9']. *)
Definition digitChars : list ascii :=
  ["0"; "1"; "2"; "3"; "4"; "5"; "6"; "7"; "8"; "9"]%char.

(** [std::sort] on characters: an ascending sort (here by insertion). *)
Fixpoint insertSorted (c : ascii) (l : str) : str :=
  match l with
  | [] => [c]
  | x :: t => if Ascii.leb c x then c :: l else x :: insertSorted c t
  end.

Definition sortChars (l : str) : str := fold_right insertSorted [] l.

(** The inner loop of [std::next_permutation]: in a suffix [t] without ascent
    the last element greater than the pivot [x] takes the pivot's place.  The
    result is that element and the suffix with the pivot in its place. *)
Fixpoint swapWithLastGreater (x : ascii) (t : str) : option (ascii * str) :=
  match t with
  | [] => None
  | y :: t' =>
      match swapWithLastGreater x t' with
      | Some (z, t'') => Some (z, y :: t'')
      | None => if Ascii.ltb x y then Some (y, x :: t') else None
      end
  end.

(** [std::next_permutation]: [Some] of the next permutation in lexicographic
    order when the call returns [true], [None] when it returns [false] (the
    range was the last permutation; the call then leaves it sorted, which the
    program never reads).  The algorithm takes the last position [i] with
    [l[i] < l[i+1]], swaps [l[i]] with the last element greater than it and
    reverses what follows [i]; the last ascent of [x :: t] is the last ascent
    of [t] when [t] has one, and the head position otherwise. *)
Fixpoint next_permutation (l : str) : option str :=
  match l with
  | [] => None
  | x :: t =>
      match next_permutation t with
      | Some t' => Some (x :: t')
      | None =>
          match t with
          | [] => None
          | y :: _ =>
              if Ascii.ltb x y then
                match swapWithLastGreater x t with
                | Some (z, t'') => Some (z :: rev t'')
                | None => None
                end
              else None
          end
      end
  end.

(** The [do ... while (next_permutation(...))] loop of a worker thread
    (lines 146-152); the result is [localValidNumbers] and [count]. *)
Fixpoint permutationLoop (fuel : nat) (requiredDigits : list ascii)
    (localDigits : str) (localValidNumbers : list str) (count : Z)
    : option (list str * Z) :=
  match fuel with
  | O => None
  | S fuel' =>
      let localValidNumbers :=
        if containsRequiredDigits localDigits requiredDigits
        then localValidNumbers ++ [localDigits] else localValidNumbers in
      let count := count + 1 in
      match next_permutation localDigits with
      | Some localDigits' =>
          permutationLoop fuel' requiredDigits localDigits' localValidNumbers count
      | None => Some (localValidNumbers, count)
      end
  end.

(** The string of all digits except [skipDigit], sorted (lines 130-138). *)
Definition digitsWithout (skipDigit : ascii) : str :=
  sortChars (filter (fun d => negb (Ascii.eqb d skipDigit)) digitChars).

(** The body of one worker thread (lines 141-161). *)
Definition worker (requiredDigits : list ascii) (skipDigit : ascii) : option (list str * Z) :=
  let digits := digitsWithout skipDigit in
  permutationLoop (fact (length digits)) requiredDigits digits [] 0.

(** The loop over [skipDigit] (lines 122-172), threads run to completion in
    creation order. *)
Fixpoint generateFrom (requiredDigits : list ascii) (skipDigits : list ascii)
    (validNumbers : list str) : option (list str) :=
  match skipDigits with
  | [] => Some validNumbers
  | skipDigit :: rest =>
      if existsb (Ascii.eqb skipDigit) requiredDigits
      then generateFrom requiredDigits rest validNumbers
      else
        match worker requiredDigits skipDigit with
        | Some (localValidNumbers, _) =>
            generateFrom requiredDigits rest (validNumbers ++ localValidNumbers)
        | None => None
        end
  end.

Definition generate (requiredDigits : list ascii) : option (list str) :=
  generateFrom requiredDigits digitChars [].

(** ** STEP 2: the base puzzle (lines 186-298) *)

Definition row1Options (validNumbers : list str) : list str :=
  let o := filterByColumn validNumbers 7 "2" in
  let o := filterDisallowedValues o 2 ["0"%char] in
  let o := filterDisallowedValues o 4 ["0"%char] in
  let o := filterDisallowedValues o 6 ["5"%char] in
  filterDisallowedValues o 8 ["5"%char].

Definition row2Options (validNumbers : list str) : list str :=
  let o := filterByColumn validNumbers 4 "2" in
  let o := filterByColumn o 8 "5" in
  let o := filterDisallowedValues o 2 ["0"%char] in
  filterDisallowedValues o 4 ["0"%char].

Definition row3Options (validNumbers : list str) : list str :=
  let o := filterByColumn validNumbers 1 "2" in
  let o := filterDisallowedValues o 2 ["0"%char] in
  let o := filterDisallowedValues o 4 ["0"%char] in
  let o := filterDisallowedValues o 6 ["5"%char] in
  let o := filterDisallowedValues o 7 ["5"%char] in
  filterDisallowedValues o 8 ["5"%char].

Definition row4Options (validNumbers : list str) : list str :=
  let o := filterByColumn validNumbers 2 "0" in
  let o := filterDisallowedValues o 1 ["2"%char] in
  let o := filterDisallowedValues o 3 ["2"%char] in
  let o := filterDisallowedValues o 4 ["2"%char] in
  let o := filterDisallowedValues o 5 ["2"%char] in
  let o := filterDisallowedValues o 7 ["2"%char] in
  let o := filterDisallowedValues o 6 ["5"%char] in
  filterDisallowedValues o 8 ["5"%char].

Definition row5Options (validNumbers : list str) : list str :=
  let o := validNumbers in
  let o := filterDisallowedValues o 0 ["0"%char] in
  let o := filterDisallowedValues o 1 ["0"; "2"]%char in
  let o := filterDisallowedValues o 2 ["0"%char] in
  let o := filterDisallowedValues o 4 ["0"; "2"]%char in
  let o := filterDisallowedValues o 6 ["5"%char] in
  filterDisallowedValues o 8 ["5"%char].

Definition row6Options (validNumbers : list str) : list str :=
  let o := filterByColumn validNumbers 3 "2" in
  let o := filterDisallowedValues o 0 ["0"%char] in
  let o := filterDisallowedValues o 1 ["0"%char] in
  let o := filterDisallowedValues o 2 ["0"%char] in
  let o := filterDisallowedValues o 4 ["0"%char] in
  let o := filterDisallowedValues o 6 ["5"%char] in
  filterDisallowedValues o 8 ["5"%char].

Definition row7Options (validNumbers : list str) : list str :=
  let o := filterByColumn validNumbers 4 "0" in
  let o := filterDisallowedValues o 1 ["2"%char] in
  let o := filterDisallowedValues o 3 ["2"%char] in
  let o := filterDisallowedValues o 5 ["2"%char] in
  let o := filterDisallowedValues o 7 ["2"%char] in
  let o := filterDisallowedValues o 6 ["5"%char] in
  let o := filterDisallowedValues o 7 ["5"%char] in
  filterDisallowedValues o 8 ["5"%char].

Definition row8Options (validNumbers : list str) : list str :=
  let o := filterByColumn validNumbers 5 "2" in
  let o := filterDisallowedValues o 2 ["0"%char] in
  let o := filterDisallowedValues o 3 ["0"%char] in
  let o := filterDisallowedValues o 4 ["0"%char] in
  let o := filterDisallowedValues o 6 ["5"%char] in
  let o := filterDisallowedValues o 7 ["5"%char] in
  filterDisallowedValues o 8 ["5"%char].

Definition row9Options (validNumbers : list str) : list str :=
  let o := filterByColumn validNumbers 6 "5" in
  let o := filterDisallowedValues o 1 ["2"%char] in
  let o := filterDisallowedValues o 3 ["2"%char] in
  let o := filterDisallowedValues o 4 ["2"%char] in
  let o := filterDisallowedValues o 5 ["2"%char] in
  let o := filterDisallowedValues o 7 ["2"%char] in
  let o := filterDisallowedValues o 2 ["0"%char] in
  let o := filterDisallowedValues o 3 ["0"%char] in
  let o := filterDisallowedValues o 4 ["0"%char] in
  filterDisallowedValues o 5 ["0"%char].

(** [puzzle], copied to [basePuzzle] at line 298. *)
Definition puzzle (validNumbers : list str) : list (list str) :=
  [ row1Options validNumbers; row2Options validNumbers; row3Options validNumbers;
    row4Options validNumbers; row5Options validNumbers; row6Options validNumbers;
    row7Options validNumbers; row8Options validNumbers; row9Options validNumbers ].

(** ** The candidate divisors (lines 303-309) *)

Definition lastDigitOk (candidateGCD : Z) : bool :=
  let lastDigit := Z.rem candidateGCD 10 in
  (lastDigit =? 1) || (lastDigit =? 3) || (lastDigit =? 7) || (lastDigit =? 9).

(** [for (candidateGCD = ...; candidateGCD >= 337; candidateGCD--)], the
    divisors pushed from [candidateGCD] on. *)
Fixpoint candidateGCDsFrom (fuel : nat) (candidateGCD : Z) : list Z :=
  match fuel with
  | O => []
  | S fuel' =>
      if candidateGCD >=? 337 then
        if lastDigitOk candidateGCD
        then candidateGCD :: candidateGCDsFrom fuel' (candidateGCD - 1)
        else candidateGCDsFrom fuel' (candidateGCD - 1)
      else []
  end.

(** The loop starts at 12345678; it has stopped before the fuel is spent
    (lemma [candidateGCDsFrom_fuel]). *)
Definition candidateGCDs : list Z :=
  candidateGCDsFrom (Z.to_nat 12345678) 12345678.

(** ** The backtracking solver (lines 338-466) *)

Definition rowOrder : list nat := [1; 8; 5; 3; 6; 7; 2; 0; 4]%nat.

Definition getBoxIndex (r c : nat) : nat := ((r / 3) * 3 + c / 3)%nat.

(** The precomputed table (lines 388-393). *)
Definition boxIndices : list (list nat) :=
  map (fun r => map (fun c => getBoxIndex r c) (seq 0 9)) (seq 0 9).

Definition boxIndexAt (r c : nat) : nat := nth c (nth r boxIndices []) 0%nat.

Definition grid : Type := list (list Z).

(** The variables the lambda [solveFixed] captures by reference. *)
Record solver_state : Type := mkSolver {
  colMask : list Z;
  boxMask : list Z;
  solution : grid;
  allSolutions : list grid;
  candidateTries : Z
}.

(** [solution[r][c]]. *)
Definition cell (g : grid) (r c : nat) : Z := nth c (nth r g []) 0.

Definition hasZeroInFirstColumns (solution : grid) : bool :=
  existsb (fun c => existsb (fun r => cell solution r c =? 0) (seq 0 9)) (seq 0 3).

(** [(colMask[c] & (1 << d)) || (boxMask[b] & (1 << d))] for column [c] of
    the candidate. *)
Definition conflictAt (st : solver_state) (r : nat) (cand : list Z) (c : nat) : bool :=
  let d := nth c cand 0 in
  let b := boxIndexAt r c in
  negb (Z.land (nth c (colMask st) 0) (bit d) =? 0)
  || negb (Z.land (nth b (boxMask st) 0) (bit d) =? 0).

(** The conflict check (lines 413-442): column 0, then column 1, then the
    loop over the columns 2..8 that breaks at the first conflict. *)
Definition hasConflict (st : solver_state) (r : nat) (cand : list Z) : bool :=
  let conflict := conflictAt st r cand 0 in
  let conflict := if negb conflict then conflictAt st r cand 1 else conflict in
  if negb conflict then existsb (conflictAt st r cand) (seq 2 7) else conflict.

(** One round of the update loop (lines 451-456). *)
Definition commitCell (r : nat) (cand : list Z) (st : solver_state) (c : nat) : solver_state :=
  let d := nth c cand 0 in
  let b := boxIndexAt r c in
  mkSolver
    (upd c (Z.lor (nth c (colMask st) 0) (bit d)) (colMask st))
    (upd b (Z.lor (nth b (boxMask st) 0) (bit d)) (boxMask st))
    (upd r (upd c d (nth r (solution st) [])) (solution st))
    (allSolutions st)
    (candidateTries st).

Definition commit (r : nat) (cand : list Z) (st : solver_state) : solver_state :=
  fold_left (commitCell r cand) (seq 0 9) st.

(** [colMask = oldColMask; boxMask = oldBoxMask;] *)
Definition restoreMasks (oldColMask oldBoxMask : list Z) (st : solver_state) : solver_state :=
  mkSolver oldColMask oldBoxMask (solution st) (allSolutions st) (candidateTries st).

(** [candidateTries++] on an [unsigned long long]. *)
Definition countTry (st : solver_state) : solver_state :=
  mkSolver (colMask st) (boxMask st) (solution st) (allSolutions st)
    ((candidateTries st + 1) mod 2 ^ 64).

(** [allSolutions.push_back(solution)]. *)
Definition pushSolution (st : solver_state) : solver_state :=
  mkSolver (colMask st) (boxMask st) (solution st)
    (allSolutions st ++ [solution st]) (candidateTries st).

(** The body of the loop over the candidates of a row (lines 410-462);
    [recurse] is the call [solveFixed(pos + 1)]. *)
Definition tryCandidate (recurse : solver_state -> option solver_state)
    (r : nat) (cand : list Z) (st : solver_state) : option solver_state :=
  let st := countTry st in
  if hasConflict st r cand then Some st
  else
    let oldColMask := colMask st in
    let oldBoxMask := boxMask st in
    match recurse (commit r cand st) with
    | Some st' => Some (restoreMasks oldColMask oldBoxMask st')
    | None => None
    end.

(** [for (const auto &cand : candidates[r]) body]. *)
Fixpoint forCandidates (body : list Z -> solver_state -> option solver_state)
    (cands : list (list Z)) (st : solver_state) : option solver_state :=
  match cands with
  | [] => Some st
  | cand :: rest =>
      match body cand st with
      | Some st' => forCandidates body rest st'
      | None => None
      end
  end.

Fixpoint solveFixed (fuel : nat) (candidates : list (list (list Z))) (pos : nat)
    (st : solver_state) : option solver_state :=
  match fuel with
  | O => None
  | S fuel' =>
      if Nat.eqb pos 9 then
        Some (if hasZeroInFirstColumns (solution st) then pushSolution st else st)
      else
        let r := nth pos rowOrder 0%nat in
        forCandidates (tryCandidate (solveFixed fuel' candidates (pos + 1)) r)
          (nth r candidates []) st
  end.

(** The state the divisor loop sets up before the call [solveFixed(0)]
    (lines 342-347). *)
Definition initialState : solver_state :=
  mkSolver (repeat 0 9) (repeat 0 9) (repeat (repeat 0 9) 9) [] 0.

(** Lines 327-336: the candidate strings as vectors of digits. *)
Definition digitsOfRows (candidatePuzzle : list (list str)) : list (list (list Z)) :=
  map (map (map digit_of)) candidatePuzzle.

(** ** The divisor loop (lines 313-508) *)

(** What an iteration does that the claims speak about. *)
Inductive event : Type :=
| CallFilterDivisible (r : nat) (candidateGCD : Z)
| CallSolveFixed (candidateGCD : Z).

(** The row loop of lines 317-323 from row [r] on, [n] rows to go: the
    filtered puzzle, [validCandidate] and the calls made. *)
Fixpoint filterRows (n : nat) (r : nat) (candidatePuzzle : list (list str))
    (candidateGCD : Z) : list (list str) * bool * list event :=
  match n with
  | O => (candidatePuzzle, true, [])
  | S n' =>
      let filtered := filterDivisibleByCandidate (nth r candidatePuzzle []) candidateGCD in
      let candidatePuzzle := upd r filtered candidatePuzzle in
      match filtered with
      | [] => (candidatePuzzle, false, [CallFilterDivisible r candidateGCD])
      | _ :: _ =>
          let '(cp, valid, evs) := filterRows n' (S r) candidatePuzzle candidateGCD in
          (cp, valid, CallFilterDivisible r candidateGCD :: evs)
      end
  end.

(** The state of [main] across the iterations of the divisor loop. *)
Record loop_state : Type := mkLoop {
  basePuzzle : list (list str);
  events : list event;
  reported : option (Z * list grid)
}.

(** How the body of the loop ends. *)
Inductive control : Type := Continue | Break.

(** [allSolutions] after the call [solveFixed(0)] for the filtered puzzle;
    [None] only if the recursion ran out of fuel. *)
Definition runSolver (candidatePuzzle : list (list str)) : option (list grid) :=
  match solveFixed 10 (digitsOfRows candidatePuzzle) 0 initialState with
  | Some st => Some (allSolutions st)
  | None => None
  end.

(** One iteration of the divisor loop (lines 313-507). *)
Definition iteration (candidateGCD : Z) (ls : loop_state) : option (loop_state * control) :=
  let candidatePuzzle := basePuzzle ls in
  let '(candidatePuzzle, validCandidate, evs) :=
    filterRows 9 0 candidatePuzzle candidateGCD in
  if negb validCandidate
  then Some (mkLoop (basePuzzle ls) (events ls ++ evs) (reported ls), Continue)
  else
    match runSolver candidatePuzzle with
    | None => None
    | Some sols =>
        let evs := evs ++ [CallSolveFixed candidateGCD] in
        match sols with
        | _ :: _ =>
            Some (mkLoop (basePuzzle ls) (events ls ++ evs) (Some (candidateGCD, sols)), Break)
        | [] => Some (mkLoop (basePuzzle ls) (events ls ++ evs) (reported ls), Continue)
        end
    end.

(** [for (int candidateGCD : candidateGCDs) ...]. *)
Fixpoint divisorLoop (divisors : list Z) (ls : loop_state) : option loop_state :=
  match divisors with
  | [] => Some ls
  | candidateGCD :: rest =>
      match iteration candidateGCD ls with
      | None => None
      | Some (ls', Break) => Some ls'
      | Some (ls', Continue) => divisorLoop rest ls'
      end
  end.

(** STEP 3 of [main] for a base puzzle. *)
Definition searchDivisor (puzzle : list (list str)) : option loop_state :=
  divisorLoop candidateGCDs (mkLoop puzzle [] None).

(** [main] from STEP 2 on, for the strings the generator produced. *)
Definition mainFrom (generated : option (list str)) : option loop_state :=
  match generated with
  | Some validNumbers => searchDivisor (puzzle validNumbers)
  | None => None
  end.

(** [main]. *)
Definition main : option loop_state := mainFrom (generate requiredDigits).
(** * Part II: the vocabulary of the specification *)

(** A character ['0'..'9']. *)
Definition isDigit (c : ascii) : Prop := 0 <= digit_of c <= 9.

(** A string of nine decimal digits. *)
Definition nineDigits (s : str) : Prop := length s = 9%nat /\ Forall isDigit s.

(** The base-10 integer a string of digits denotes: the digit at position
    [i] of [n] digits weighs [10 ^ (n - 1 - i)]. *)
Fixpoint decimalValue (s : str) : Z :=
  match s with
  | [] => 0
  | c :: t => digit_of c * 10 ^ Z.of_nat (length t) + decimalValue t
  end.

(** The divisors the specification enumerates. *)
Definition enumerated (d : Z) : Prop :=
  337 <= d <= 12345678 /\ (d mod 10 = 1 \/ d mod 10 = 3 \/ d mod 10 = 7 \/ d mod 10 = 9).

(** The solutions the loop body finds for a divisor: those of the solver when
    every row keeps a candidate, none when the body leaves early. *)
Definition iterationSolutions (puzzle : list (list str)) (d : Z) : list grid :=
  let '(candidatePuzzle, validCandidate, _) := filterRows 9 0 puzzle d in
  if validCandidate then
    match runSolver candidatePuzzle with
    | Some sols => sols
    | None => []
    end
  else [].

(** An event of the iteration for divisor [d]. *)
Definition eventOf (d : Z) (e : event) : Prop :=
  e = CallSolveFixed d \/ exists r, e = CallFilterDivisible r d.

(** Every row of the puzzle filtered for a divisor. *)
Definition filteredPuzzle (puzzle : list (list str)) (d : Z) : list (list str) :=
  map (fun row => filterDivisibleByCandidate row d) puzzle.

(** ** Solution grids *)

(** The nine cells of a column, and of a 3x3 box (boxes are numbered row by
    row, as [getBoxIndex] numbers them). *)
Definition column (g : grid) (c : nat) : list Z := map (fun r => cell g r c) (seq 0 9).

Definition boxCells (b : nat) : list (nat * nat) :=
  list_prod (seq (3 * (b / 3)) 3) (seq (3 * (b mod 3)) 3).

Definition box (g : grid) (b : nat) : list Z :=
  map (fun rc => cell g (fst rc) (snd rc)) (boxCells b).

Definition zeroInFirstColumns (g : grid) : Prop :=
  exists r c, (r < 9)%nat /\ (c < 3)%nat /\ cell g r c = 0.

(** A candidate row as the generator makes them: nine pairwise distinct
    digits. *)
Definition validRow (cand : list Z) : Prop :=
  length cand = 9%nat /\ NoDup cand /\ Forall (fun x => 0 <= x <= 9) cand.

Definition validCandidates (candidates : list (list (list Z))) : Prop :=
  forall r cand, (r < 9)%nat -> In cand (nth r candidates []) -> validRow cand.

(** The grids the specification accepts for given candidate lists: each row
    is one of the candidates of that row, every column and every box has nine
    pairwise distinct symbols, and a zero stands in the first three columns. *)
Definition acceptedGrid (candidates : list (list (list Z))) (g : grid) : Prop :=
  length g = 9%nat
  /\ (forall r, (r < 9)%nat -> In (nth r g []) (nth r candidates []))
  /\ (forall c, (c < 9)%nat -> NoDup (column g c))
  /\ (forall b, (b < 9)%nat -> NoDup (box g b))
  /\ zeroInFirstColumns g.

(** ** Invariants of the search *)

(** The row visited at position [pos]. *)
Definition rowAt (pos : nat) : nat := nth pos rowOrder 0%nat.

(** The masks record the digits of the rows visited before [pos]. *)
Definition masksRecord (pos : nat) (st : solver_state) : Prop :=
  (forall c x, (c < 9)%nat -> 0 <= x ->
     (Z.testbit (nth c (colMask st) 0) x = true
      <-> exists q, (q < pos)%nat /\ cell (solution st) (rowAt q) c = x))
  /\ (forall b x, (b < 9)%nat -> 0 <= x ->
        (Z.testbit (nth b (boxMask st) 0) x = true
         <-> exists q c, (q < pos)%nat /\ (c < 9)%nat
                         /\ getBoxIndex (rowAt q) c = b
                         /\ cell (solution st) (rowAt q) c = x)).

Definition solverInv (pos : nat) (st : solver_state) : Prop :=
  length (colMask st) = 9%nat /\ length (boxMask st) = 9%nat
  /\ length (solution st) = 9%nat
  /\ (forall r, (r < 9)%nat -> length (nth r (solution st) []) = 9%nat)
  /\ masksRecord pos st.

(** Row [row2] at row index [r2] repeats, in some column, a digit that
    [row1] at row index [r1] has in the same column or in the same box. *)
Definition clash (row1 row2 : list Z) (r1 r2 : nat) : Prop :=
  exists c, (c < 9)%nat
    /\ (nth c row1 0 = nth c row2 0
        \/ exists c', (c' < 9)%nat /\ getBoxIndex r1 c' = getBoxIndex r2 c
                      /\ nth c' row1 0 = nth c row2 0).

(** The grids the search from position [pos] records: they keep the rows
    visited so far, take a candidate for each later row that does not clash
    with the rows visited before it, and pass the final test. *)
Definition completes (candidates : list (list (list Z))) (pos : nat) (sol g : grid) : Prop :=
  length g = 9%nat
  /\ (forall q, (q < pos)%nat -> nth (rowAt q) g [] = nth (rowAt q) sol [])
  /\ (forall p, (pos <= p < 9)%nat ->
        In (nth (rowAt p) g []) (nth (rowAt p) candidates [])
        /\ forall q, (q < p)%nat ->
             ~ clash (nth (rowAt q) g []) (nth (rowAt p) g []) (rowAt q) (rowAt p))
  /\ hasZeroInFirstColumns g = true.

(** What a call leaves behind: the masks it was given, the rows visited
    before [pos], and the new solutions appended to [allSolutions]. *)
Definition returnsWith (pos : nat) (st st' : solver_state) (new : list grid) : Prop :=
  colMask st' = colMask st /\ boxMask st' = boxMask st
  /\ length (solution st') = 9%nat
  /\ (forall r, (r < 9)%nat -> length (nth r (solution st') []) = 9%nat)
  /\ (forall q, (q < pos)%nat ->
        nth (rowAt q) (solution st') [] = nth (rowAt q) (solution st) [])
  /\ allSolutions st' = allSolutions st ++ new.


(** ** Permutations in lexicographic order *)

(** The order of [char]. *)
Definition charLt (a b : ascii) : Prop := (N_of_ascii a < N_of_ascii b)%N.

Definition ascending (l : str) : Prop := StronglySorted charLt l.

Definition descending (l : str) : Prop := StronglySorted (fun a b => charLt b a) l.

(** [k] successful calls of [next_permutation]. *)
Fixpoint iterNext (k : nat) (l : str) : option str :=
  match k with
  | O => Some l
  | S k' =>
      match next_permutation l with
      | Some l' => iterNext k' l'
      | None => None
      end
  end.

(** The strings the [do ... while] loop visits from [l] in at most [k]
    further calls. *)
Fixpoint visited (k : nat) (l : str) : list str :=
  l :: match k with
       | O => []
       | S k' =>
           match next_permutation l with
           | Some l' => visited k' l'
           | None => []
           end
       end.

(** The strings a worker visits for an excluded digit, and the excluded
    digits the generator runs a worker for. *)
Definition shardOf (skipDigit : ascii) : list str :=
  visited (fact 9 - 1) (digitsWithout skipDigit).

Definition allowedSkips (requiredDigits : list ascii) : list ascii :=
  filter (fun s => negb (existsb (Ascii.eqb s) requiredDigits)) digitChars.

(** A candidate string as the specification describes it: nine pairwise
    distinct digits. *)
Definition validString (s : str) : Prop :=
  length s = 9%nat /\ NoDup s /\ Forall isDigit s.

(** ** The generator without the embedded filter

    The same loops as [permutationLoop], [worker], [generateFrom] and
    [generate], with the test [containsRequiredDigits] left out: every
    permutation is kept. *)
Fixpoint permutationLoopUnfiltered (fuel : nat) (localDigits : str)
    (localValidNumbers : list str) (count : Z) : option (list str * Z) :=
  match fuel with
  | O => None
  | S fuel' =>
      let localValidNumbers := localValidNumbers ++ [localDigits] in
      let count := count + 1 in
      match next_permutation localDigits with
      | Some localDigits' =>
          permutationLoopUnfiltered fuel' localDigits' localValidNumbers count
      | None => Some (localValidNumbers, count)
      end
  end.

Definition workerUnfiltered (skipDigit : ascii) : option (list str * Z) :=
  let digits := digitsWithout skipDigit in
  permutationLoopUnfiltered (fact (length digits)) digits [] 0.

Fixpoint generateUnfilteredFrom (requiredDigits : list ascii) (skipDigits : list ascii)
    (validNumbers : list str) : option (list str) :=
  match skipDigits with
  | [] => Some validNumbers
  | skipDigit :: rest =>
      if existsb (Ascii.eqb skipDigit) requiredDigits
      then generateUnfilteredFrom requiredDigits rest validNumbers
      else
        match workerUnfiltered skipDigit with
        | Some (localValidNumbers, _) =>
            generateUnfilteredFrom requiredDigits rest (validNumbers ++ localValidNumbers)
        | None => None
        end
  end.

Definition generateUnfiltered (requiredDigits : list ascii) : option (list str) :=
  generateUnfilteredFrom requiredDigits digitChars [].

(** A puzzle whose candidate strings are all valid. *)
Definition validPuzzle (puzzle : list (list str)) : Prop :=
  forall r s, (r < 9)%nat -> In s (nth r puzzle []) -> validString s.

(** ** Concrete puzzles *)

(** The grid whose rows are the multiples 32, 5, 59, 77, 23, 50, 68, 41 and
    14 of 12345679 = 37 * 333667, as a puzzle with one candidate per row. *)
Definition knownRows : list str :=
  map lit ["395061728"; "061728395"; "728395061"; "950617283"; "283950617";
           "617283950"; "839506172"; "506172839"; "172839506"]%string.

Definition knownPuzzle : list (list str) := map (fun s => [s]) knownRows.

Definition knownGrid : grid := map (map digit_of) knownRows.



(** Decidable forms of [isDigit], [NoDup] and [validString]. *)
Definition isDigitb (c : ascii) : bool := (0 <=? digit_of c) && (digit_of c <=? 9).

Fixpoint nodupb (s : str) : bool :=
  match s with
  | [] => true
  | c :: t => negb (existsb (Ascii.eqb c) t) && nodupb t
  end.

Definition validStringb (s : str) : bool :=
  Nat.eqb (length s) 9 && nodupb s && forallb isDigitb s.

(** ** The clues of the puzzle as a table

    The fixed clues and the disallowed values of the nine row blocks of
    STEP 2 (lines 190-287), row by row: positions count from 0. *)
Definition rowClues : list (list (nat * ascii)) :=
  [ [(7, "2")]; [(4, "2"); (8, "5")]; [(1, "2")]; [(2, "0")]; [];
    [(3, "2")]; [(4, "0")]; [(5, "2")]; [(6, "5")] ]%nat%char.

Definition rowDisallowed : list (list (nat * list ascii)) :=
  [ [(2, ["0"]); (4, ["0"]); (6, ["5"]); (8, ["5"])];
    [(2, ["0"]); (4, ["0"])];
    [(2, ["0"]); (4, ["0"]); (6, ["5"]); (7, ["5"]); (8, ["5"])];
    [(1, ["2"]); (3, ["2"]); (4, ["2"]); (5, ["2"]); (7, ["2"]); (6, ["5"]); (8, ["5"])];
    [(0, ["0"]); (1, ["0"; "2"]); (2, ["0"]); (4, ["0"; "2"]); (6, ["5"]); (8, ["5"])];
    [(0, ["0"]); (1, ["0"]); (2, ["0"]); (4, ["0"]); (6, ["5"]); (8, ["5"])];
    [(1, ["2"]); (3, ["2"]); (5, ["2"]); (7, ["2"]); (6, ["5"]); (7, ["5"]); (8, ["5"])];
    [(2, ["0"]); (3, ["0"]); (4, ["0"]); (6, ["5"]); (7, ["5"]); (8, ["5"])];
    [(1, ["2"]); (3, ["2"]); (4, ["2"]); (5, ["2"]); (7, ["2"]);
     (2, ["0"]); (3, ["0"]); (4, ["0"]); (5, ["0"])] ]%nat%char.

(** A string has every fixed clue of row [r] and none of its disallowed
    values. *)
Definition satisfiesRow (r : nat) (s : str) : bool :=
  forallb (fun clue => Ascii.eqb (charAt s (fst clue)) (snd clue)) (nth r rowClues [])
  && forallb (fun rule => negb (existsb (Ascii.eqb (charAt s (fst rule))) (snd rule)))
       (nth r rowDisallowed []).

(** ** Lexicographic order of strings *)

Inductive lexLt : str -> str -> Prop :=
| lexLt_head (a b : ascii) (s t : str) : charLt a b -> lexLt (a :: s) (b :: t)
| lexLt_tail (a : ascii) (s t : str) : lexLt s t -> lexLt (a :: s) (a :: t).

(** ** Counting the candidate divisors *)

(** The number of integers from 0 to [n] whose last digit is 1, 3, 7 or 9. *)
Definition oddEndingsUpTo (n : Z) : Z :=
  4 * (n / 10)
  + (if n mod 10 <? 1 then 0 else if n mod 10 <? 3 then 1
     else if n mod 10 <? 7 then 2 else if n mod 10 <? 9 then 3 else 4).

(** ** The calls of one iteration *)

(** The calls the body of the divisor loop makes for a puzzle and a
    divisor: the rows are filtered up to the first one left empty, and the
    solver is called when none is. *)
Definition callsOf (puzzle : list (list str)) (d : Z) : list event :=
  let '(_, validCandidate, evs) := filterRows 9 0 puzzle d in
  if validCandidate then evs ++ [CallSolveFixed d] else evs.

(** ** The digit sets of a grid *)




(** * Part III: properties *)

(** ** Lists and loops *)

Lemma push_loop_is_filter {A : Type} (keep : A -> bool) (l acc : list A) :
  fold_left (fun filtered x => if keep x then filtered ++ [x] else filtered) l acc
  = acc ++ filter keep l.
Proof.
  revert acc; induction l as [|x l IH]; intros acc; simpl.
  - now rewrite app_nil_r.
  - rewrite IH. destruct (keep x); simpl; [now rewrite <- app_assoc|reflexivity].
Qed.

Lemma filter_length_le {A : Type} (keep : A -> bool) (l : list A) :
  (length (filter keep l) <= length l)%nat.
Proof.
  induction l as [|x l IH]; simpl; [lia|]. destruct (keep x); simpl; lia.
Qed.

Lemma nth_upd_same {A : Type} (i : nat) (x d : A) (v : list A) :
  (i < length v)%nat -> nth i (upd i x v) d = x.
Proof.
  revert i; induction v as [|y v IH]; intros [|i] H; simpl in *; try lia; auto.
  apply IH; lia.
Qed.

Lemma nth_upd_other {A : Type} (i j : nat) (x d : A) (v : list A) :
  i <> j -> nth j (upd i x v) d = nth j v d.
Proof.
  revert i j; induction v as [|y v IH]; intros [|i] [|j] H; simpl; auto; try lia.
Qed.

Lemma length_upd {A : Type} (i : nat) (x : A) (v : list A) :
  length (upd i x v) = length v.
Proof.
  revert i; induction v as [|y v IH]; intros [|i]; simpl; auto.
Qed.

(** ** The position filters *)

Lemma filterByColumn_filter numbers column value :
  filterByColumn numbers column value
  = filter (fun number => Ascii.eqb (charAt number column) value) numbers.
Proof. unfold filterByColumn. now rewrite push_loop_is_filter. Qed.

Lemma charset_find_insert s c x :
  charset_find (charset_insert s c) x = Ascii.eqb x c || charset_find s x.
Proof.
  unfold charset_insert. destruct (charset_find s c) eqn:E; simpl; [|reflexivity].
  destruct (Ascii.eqb_spec x c) as [->|]; simpl; [now rewrite E|reflexivity].
Qed.

Lemma charset_find_fold values : forall s x,
  charset_find (fold_left charset_insert values s) x
  = charset_find s x || existsb (Ascii.eqb x) values.
Proof.
  induction values as [|c values IH]; intros s x; simpl.
  - now rewrite orb_false_r.
  - rewrite IH, charset_find_insert.
    destruct (Ascii.eqb x c), (charset_find s x); reflexivity.
Qed.

Lemma charset_find_of values x :
  charset_find (charset_of values) x = existsb (Ascii.eqb x) values.
Proof. unfold charset_of. now rewrite charset_find_fold. Qed.

Lemma existsb_eqb_In (x : ascii) (l : list ascii) :
  existsb (Ascii.eqb x) l = true <-> In x l.
Proof.
  rewrite existsb_exists. split.
  - intros [y [Hy E]]. apply Ascii.eqb_eq in E. now subst.
  - intros H. exists x. split; [assumption|apply Ascii.eqb_refl].
Qed.

Lemma filterDisallowedValues_filter numbers column disallowedValues :
  filterDisallowedValues numbers column disallowedValues
  = filter (fun number => negb (existsb (Ascii.eqb (charAt number column)) disallowedValues))
      numbers.
Proof.
  unfold filterDisallowedValues. rewrite push_loop_is_filter. simpl.
  apply filter_ext. intros number. now rewrite charset_find_of.
Qed.

(** C7. [filterByColumn] returns exactly the subsequence of the strings whose
    character at [column] is [value]; [filterDisallowedValues] exactly the
    subsequence of the strings whose character at [column] is not one of
    [disallowedValues]; each result is a subset of the input and is not
    longer. *)
Theorem position_filters_select_subsequence :
  forall (numbers : list str) (column : nat) (value : ascii) (disallowedValues : list ascii),
    filterByColumn numbers column value
    = filter (fun number => Ascii.eqb (charAt number column) value) numbers
    /\ filterDisallowedValues numbers column disallowedValues
       = filter (fun number =>
                   negb (existsb (Ascii.eqb (charAt number column)) disallowedValues))
           numbers
    /\ (forall number, In number (filterByColumn numbers column value)
          <-> In number numbers /\ charAt number column = value)
    /\ (forall number, In number (filterDisallowedValues numbers column disallowedValues)
          <-> In number numbers /\ ~ In (charAt number column) disallowedValues)
    /\ incl (filterByColumn numbers column value) numbers
    /\ incl (filterDisallowedValues numbers column disallowedValues) numbers
    /\ (length (filterByColumn numbers column value) <= length numbers)%nat
    /\ (length (filterDisallowedValues numbers column disallowedValues)
        <= length numbers)%nat.
Proof.
  intros numbers column value disallowedValues.
  rewrite filterByColumn_filter, filterDisallowedValues_filter.
  split; [reflexivity|]. split; [reflexivity|].
  split; [|split; [|split; [|split; [|split]]]].
  - intros number. rewrite filter_In, Ascii.eqb_eq. tauto.
  - intros number. rewrite filter_In, negb_true_iff.
    rewrite <- existsb_eqb_In.
    destruct (existsb (Ascii.eqb (charAt number column)) disallowedValues);
      intuition congruence.
  - apply incl_filter.
  - apply incl_filter.
  - apply filter_length_le.
  - apply filter_length_le.
Qed.

Lemma existsb_ext_in {A : Type} (f g : A -> bool) (l : list A) :
  (forall a, In a l -> f a = g a) -> existsb f l = existsb g l.
Proof.
  induction l as [|x l IH]; intros H; simpl; [reflexivity|].
  rewrite (H x (or_introl eq_refl)), IH; [reflexivity|].
  intros a Ha. apply H. now right.
Qed.

Lemma Some_eq_inv {A : Type} (x y : A) : Some x = Some y -> x = y.
Proof. intros H. now inversion H. Qed.

Lemma filter_partition_length {A : Type} (f : A -> bool) (l : list A) :
  (length (filter f l) + length (filter (fun x => negb (f x)) l) = length l)%nat.
Proof.
  induction l as [|x l IH]; simpl; [reflexivity|]. destruct (f x); simpl; lia.
Qed.


(** ** The divisibility filter *)

Lemma wrap32_small x : - 2 ^ 31 <= x < 2 ^ 31 -> wrap32 x = x.
Proof.
  intros H. unfold wrap32. rewrite Z.mod_small; lia.
Qed.

Lemma decimalValue_app s c :
  decimalValue (s ++ [c]) = decimalValue s * 10 + digit_of c.
Proof.
  induction s as [|x s IH]; simpl.
  - lia.
  - rewrite IH, length_app. simpl length.
    replace (Z.of_nat (length s + 1)) with (Z.succ (Z.of_nat (length s))) by lia.
    rewrite Z.pow_succ_r by lia. ring.
Qed.

Lemma decimalValue_bounds s :
  Forall isDigit s -> 0 <= decimalValue s < 10 ^ Z.of_nat (length s).
Proof.
  induction s as [|c s IH] using rev_ind; intros H.
  - simpl. lia.
  - apply Forall_app in H. destruct H as [Hs Hc]. inversion Hc as [|? ? Hd _]; subst.
    specialize (IH Hs). rewrite decimalValue_app, length_app. simpl length.
    replace (Z.of_nat (length s + 1)) with (Z.succ (Z.of_nat (length s))) by lia.
    rewrite Z.pow_succ_r by lia. unfold isDigit in Hd. lia.
Qed.

Lemma remainderOf_app s c d :
  remainderOf (s ++ [c]) d = remainderStep d (remainderOf s d) c.
Proof. unfold remainderOf. now rewrite fold_left_app. Qed.

(** A step that stays inside the [int] range computes the remainder of the
    longer prefix. *)
Lemma remainderStep_exact d r v c :
  0 < d -> isDigit c -> r = v mod d -> r * 10 + digit_of c < 2 ^ 31 ->
  remainderStep d r c = (v * 10 + digit_of c) mod d.
Proof.
  intros Hd Hc Hr Hsmall. unfold isDigit in Hc.
  assert (0 <= r < d) by (subst r; apply Z.mod_pos_bound; lia).
  unfold remainderStep.
  rewrite (wrap32_small (r * 10)) by lia.
  rewrite wrap32_small by lia.
  rewrite Z.rem_mod_nonneg by lia.
  subst r. rewrite Z.add_mod by lia. rewrite Z.mul_mod_idemp_l by lia.
  rewrite <- Z.add_mod by lia. reflexivity.
Qed.

Lemma pow10_le (n : nat) : (n <= 8)%nat -> 10 ^ Z.of_nat n <= 10 ^ 8.
Proof. intros H. apply Z.pow_le_mono_r; lia. Qed.

(** On strings of at most nine digits the loop computes the true remainder
    for every positive [int] modulus: the running remainder is at most the
    value of the prefix read so far, which has at most eight digits when
    another digit follows. *)
Lemma remainderOf_mod s d :
  0 < d -> Forall isDigit s -> (length s <= 9)%nat ->
  remainderOf s d = decimalValue s mod d.
Proof.
  intros Hd. induction s as [|c s IH] using rev_ind; intros Hs Hlen.
  - reflexivity.
  - apply Forall_app in Hs. destruct Hs as [Hs Hc]. inversion Hc as [|? ? Hdig _]; subst.
    rewrite length_app in Hlen. simpl in Hlen.
    rewrite remainderOf_app, decimalValue_app.
    apply remainderStep_exact; try assumption.
    + apply IH; [assumption|lia].
    + rewrite IH by (assumption || lia).
      pose proof (decimalValue_bounds s Hs) as Hb.
      pose proof (pow10_le (length s) ltac:(lia)) as Hp.
      pose proof (Z.mod_le (decimalValue s) d ltac:(lia) Hd) as Hle.
      unfold isDigit in Hdig. change (10 ^ 8) with 100000000 in Hp.
      change (2 ^ 31) with 2147483648. lia.
Qed.

(** C5. On every list of nine-digit strings and for every positive [int]
    modulus, [filterDivisibleByCandidate] keeps, in order, exactly the strings
    whose base-10 value has remainder 0: a retained string has remainder 0 and
    a discarded one a remainder different from 0. *)
Theorem filterDivisible_keeps_exactly_the_multiples :
  forall (options : list str) (d : Z),
    0 < d <= INT_MAX ->
    Forall nineDigits options ->
    filterDivisibleByCandidate options d
    = filter (fun opt => decimalValue opt mod d =? 0) options
    /\ (forall opt, In opt (filterDivisibleByCandidate options d) ->
          In opt options /\ decimalValue opt mod d = 0)
    /\ (forall opt, In opt options -> ~ In opt (filterDivisibleByCandidate options d) ->
          decimalValue opt mod d <> 0).
Proof.
  intros options d Hd Hopts.
  assert (E : filterDivisibleByCandidate options d
              = filter (fun opt => decimalValue opt mod d =? 0) options).
  { unfold filterDivisibleByCandidate. rewrite push_loop_is_filter. simpl.
    rewrite Forall_forall in Hopts.
    induction options as [|o options IH]; simpl; [reflexivity|].
    destruct (Hopts o (or_introl eq_refl)) as [Hlen Hdig].
    rewrite remainderOf_mod by (lia || assumption).
    rewrite IH by (intros x Hx; apply Hopts; now right). reflexivity. }
  rewrite E. repeat split.
  - now apply filter_In in H.
  - apply filter_In in H. destruct H as [_ H]. now apply Z.eqb_eq.
  - intros opt Hin Hout Hz. apply Hout. apply filter_In. split; [assumption|].
    now apply Z.eqb_eq.
Qed.

(** The accumulation for a modulus of the divisor loop, on digits of any
    number: every running remainder is below the modulus, no intermediate
    value exceeds 123456789, and so nothing wraps. *)
Lemma remainder_loop_in_range d :
  337 <= d <= 12345678 ->
  forall pre, Forall isDigit pre ->
    remainderOf pre d = decimalValue pre mod d /\ 0 <= remainderOf pre d < d.
Proof.
  intros Hd pre. induction pre as [|c s IH] using rev_ind; intros Hs.
  - split; [reflexivity|]. unfold remainderOf. simpl. lia.
  - apply Forall_app in Hs. destruct Hs as [Hs Hc]. inversion Hc as [|? ? Hdig _]; subst.
    destruct (IH Hs) as [E B].
    rewrite remainderOf_app, decimalValue_app.
    assert (E' : remainderStep d (remainderOf s d) c
                 = (decimalValue s * 10 + digit_of c) mod d).
    { apply remainderStep_exact; try assumption; try lia.
      unfold isDigit in Hdig. change (2 ^ 31) with 2147483648. lia. }
    rewrite E'. split; [reflexivity|]. apply Z.mod_pos_bound. lia.
Qed.

(** ** The solver returns, and restores the masks *)

Lemma solveFixed_unfold fuel candidates pos st :
  solveFixed (S fuel) candidates pos st
  = if Nat.eqb pos 9 then
      Some (if hasZeroInFirstColumns (solution st) then pushSolution st else st)
    else
      forCandidates
        (tryCandidate (solveFixed fuel candidates (pos + 1)) (nth pos rowOrder 0%nat))
        (nth (nth pos rowOrder 0%nat) candidates []) st.
Proof. reflexivity. Qed.

Lemma forCandidates_preserves (P : solver_state -> Prop)
    (body : list Z -> solver_state -> option solver_state) (cands : list (list Z)) :
  (forall cand st, In cand cands -> P st -> exists st', body cand st = Some st' /\ P st') ->
  forall st, P st -> exists st', forCandidates body cands st = Some st' /\ P st'.
Proof.
  induction cands as [|cand cands IH]; intros Hbody st Hst; simpl.
  - now exists st.
  - destruct (Hbody cand st (or_introl eq_refl) Hst) as [st1 [E1 H1]].
    rewrite E1. apply IH; [|assumption].
    intros c s Hc. apply Hbody. now right.
Qed.

Lemma tryCandidate_masks recurse r cand st :
  (forall s, exists s', recurse s = Some s') ->
  exists st', tryCandidate recurse r cand st = Some st'
    /\ colMask st' = colMask st /\ boxMask st' = boxMask st.
Proof.
  intros Hrec. unfold tryCandidate.
  destruct (hasConflict (countTry st) r cand).
  - eexists. split; [reflexivity|]. split; reflexivity.
  - destruct (Hrec (commit r cand (countTry st))) as [s' E]. rewrite E.
    eexists. split; [reflexivity|]. split; reflexivity.
Qed.

(** With fuel for the levels that remain the recursion returns, with the
    masks it was called with. *)
Lemma solveFixed_returns candidates :
  forall fuel pos st,
    (pos <= 9)%nat -> (9 - pos < fuel)%nat ->
    exists st', solveFixed fuel candidates pos st = Some st'
      /\ colMask st' = colMask st /\ boxMask st' = boxMask st.
Proof.
  induction fuel as [|fuel IH]; intros pos st Hpos Hfuel; [lia|].
  simpl. destruct (Nat.eqb_spec pos 9) as [->|Hne].
  - eexists. split; [reflexivity|].
    destruct (hasZeroInFirstColumns (solution st)); split; reflexivity.
  - apply (forCandidates_preserves
             (fun s => colMask s = colMask st /\ boxMask s = boxMask st));
      [|split; reflexivity].
    intros cand s _ [Hc Hb].
    destruct (tryCandidate_masks (solveFixed fuel candidates (pos + 1))
                (nth pos rowOrder 0%nat) cand s) as [s' [E [Hc' Hb']]].
    { intros s0. destruct (IH (pos + 1)%nat s0) as [s1 [E1 _]]; try lia. now exists s1. }
    exists s'. split; [assumption|]. split; congruence.
Qed.

(** C6. At every depth [pos] of the recursion and for every candidate, the
    body of the candidate loop (count the try, test for a conflict, and on
    success commit, recurse and restore) returns with the nine column masks
    and the nine box masks equal to what they were before the candidate was
    tried, whether the candidate was rejected or committed. *)
Theorem masks_restored_after_each_candidate :
  forall (candidates : list (list (list Z))) (fuel pos : nat) (cand : list Z)
         (st : solver_state),
    (pos < 9)%nat -> (9 - pos <= fuel)%nat ->
    exists st',
      tryCandidate (solveFixed fuel candidates (pos + 1)) (nth pos rowOrder 0%nat) cand st
      = Some st'
      /\ colMask st' = colMask st /\ boxMask st' = boxMask st.
Proof.
  intros candidates fuel pos cand st Hpos Hfuel.
  apply tryCandidate_masks. intros s.
  destruct (solveFixed_returns candidates fuel (pos + 1)%nat s) as [s' [E _]]; try lia.
  now exists s'.
Qed.

Lemma runSolver_returns candidatePuzzle :
  exists sols, runSolver candidatePuzzle = Some sols.
Proof.
  unfold runSolver.
  destruct (solveFixed_returns (digitsOfRows candidatePuzzle) 10 0 initialState)
    as [st [E _]]; try lia.
  rewrite E. now eexists.
Qed.

(** ** The candidate divisors *)

Lemma lastDigitOk_spec d :
  0 <= d ->
  lastDigitOk d = true
  <-> (d mod 10 = 1 \/ d mod 10 = 3 \/ d mod 10 = 7 \/ d mod 10 = 9).
Proof.
  intros Hd. unfold lastDigitOk. rewrite Z.rem_mod_nonneg by lia.
  rewrite !orb_true_iff, !Z.eqb_eq. tauto.
Qed.

Lemma candidateGCDsFrom_In fuel : forall c d,
  In d (candidateGCDsFrom fuel c) -> 337 <= d <= c /\ lastDigitOk d = true.
Proof.
  induction fuel as [|fuel IH]; intros c d H; simpl in H; [contradiction|].
  destruct (Z.geb_spec c 337) as [Hc|Hc]; [|contradiction].
  destruct (lastDigitOk c) eqn:E.
  - destruct H as [<-|H]; [split; [lia|assumption]|].
    apply IH in H. split; [lia|tauto].
  - apply IH in H. split; [lia|tauto].
Qed.

Lemma candidateGCDsFrom_complete fuel : forall c d,
  c - 337 < Z.of_nat fuel -> 337 <= d <= c -> lastDigitOk d = true ->
  In d (candidateGCDsFrom fuel c).
Proof.
  induction fuel as [|fuel IH]; intros c d Hf Hd Hl; [lia|].
  simpl. destruct (Z.geb_spec c 337) as [Hc|Hc]; [|lia].
  destruct (Z.eq_dec d c) as [->|Hne].
  - rewrite Hl. now left.
  - assert (In d (candidateGCDsFrom fuel (c - 1))) by (apply IH; [lia|lia|assumption]).
    destruct (lastDigitOk c); [now right|assumption].
Qed.

Lemma candidateGCDsFrom_below fuel c : c < 337 -> candidateGCDsFrom fuel c = [].
Proof.
  intros H. destruct fuel; simpl; [reflexivity|].
  destruct (Z.geb_spec c 337); [lia|reflexivity].
Qed.

(** More fuel than the countdown needs changes nothing: the loop ends by
    its own condition. *)
Lemma candidateGCDsFrom_fuel fuel : forall fuel' c,
  c - 337 < Z.of_nat fuel -> c - 337 < Z.of_nat fuel' ->
  candidateGCDsFrom fuel c = candidateGCDsFrom fuel' c.
Proof.
  induction fuel as [|fuel IH]; intros fuel' c Hf Hf'.
  - rewrite !candidateGCDsFrom_below by lia. reflexivity.
  - destruct fuel' as [|fuel'].
    + rewrite !candidateGCDsFrom_below by lia. reflexivity.
    + simpl. destruct (Z.geb_spec c 337) as [Hc|Hc]; [|reflexivity].
      rewrite (IH fuel' (c - 1)) by lia. reflexivity.
Qed.

Lemma candidateGCDsFrom_sorted fuel : forall c,
  StronglySorted (fun a b => b < a) (candidateGCDsFrom fuel c).
Proof.
  induction fuel as [|fuel IH]; intros c; simpl; [constructor|].
  destruct (c >=? 337); [|constructor].
  destruct (lastDigitOk c); [|apply IH].
  constructor; [apply IH|].
  apply Forall_forall. intros d Hd. apply candidateGCDsFrom_In in Hd. lia.
Qed.

Lemma fuel_of_candidateGCDs : 12345678 - 337 < Z.of_nat (Z.to_nat 12345678).
Proof. rewrite Z2Nat.id; lia. Qed.

Lemma candidateGCDs_In d : In d candidateGCDs <-> enumerated d.
Proof.
  unfold candidateGCDs, enumerated. split.
  - intros H. apply candidateGCDsFrom_In in H. destruct H as [H L].
    split; [assumption|]. apply lastDigitOk_spec; [lia|assumption].
  - intros [H L]. apply candidateGCDsFrom_complete;
      [apply fuel_of_candidateGCDs|assumption|]. apply lastDigitOk_spec; [lia|assumption].
Qed.

Lemma candidateGCDs_sorted : StronglySorted (fun a b => b < a) candidateGCDs.
Proof. apply candidateGCDsFrom_sorted. Qed.

(** The list splits at each of its members into the larger divisors, the
    member, and the smaller ones. *)
Lemma sorted_split (l : list Z) (d : Z) :
  StronglySorted (fun a b => b < a) l -> In d l ->
  exists before after,
    l = before ++ d :: after
    /\ (forall x, In x before -> d < x)
    /\ (forall x, In x after -> x < d).
Proof.
  intros Hs. induction Hs as [|a l Hs IH Ha]; intros Hin; [contradiction|].
  rewrite Forall_forall in Ha.
  destruct (Z.eq_dec a d) as [->|Hne].
  - exists [], l. split; [reflexivity|]. split; [intros x []|]. intros x Hx. now apply Ha.
  - destruct Hin as [->|Hin]; [contradiction|].
    destruct (IH Hin) as [before [after [E [Hb Hafter]]]].
    exists (a :: before), after. split; [simpl; now rewrite E|].
    split; [|assumption].
    intros x [<-|Hx]; [now apply Ha|now apply Hb].
Qed.

Lemma candidateGCDs_head : exists rest, candidateGCDs = 12345677 :: rest.
Proof.
  unfold candidateGCDs.
  replace (Z.to_nat 12345678) with (S (S (Z.to_nat 12345676))) by lia.
  eexists. cbv beta iota delta [candidateGCDsFrom]; fold candidateGCDsFrom.
  change (12345678 >=? 337) with true. change (lastDigitOk 12345678) with false.
  change (12345678 - 1) with 12345677.
  change (12345677 >=? 337) with true. change (lastDigitOk 12345677) with true.
  cbv iota. reflexivity.
Qed.

(** From here on the list is used through the lemmas above only. *)
Global Opaque candidateGCDs.

(** ** One iteration of the divisor loop *)

Lemma filterRows_events n : forall r cp d cp' valid evs,
  filterRows n r cp d = (cp', valid, evs) ->
  forall e, In e evs -> exists i, e = CallFilterDivisible i d.
Proof.
  induction n as [|n IH]; intros r cp d cp' valid evs H e He; simpl in H.
  - inversion H; subst. contradiction.
  - destruct (filterDivisibleByCandidate (nth r cp []) d) as [|x l] eqn:E.
    + inversion H; subst. destruct He as [<-|[]]. now exists r.
    + destruct (filterRows n (S r) (upd r (x :: l) cp) d) as [[cp1 v1] evs1] eqn:E1.
      inversion H; subst. destruct He as [<-|He]; [now exists r|].
      eapply IH; eassumption.
Qed.

(** The row loop leaves early exactly when some row keeps no candidate. *)
Lemma filterRows_invalid n : forall r cp d,
  (exists i, (r <= i < r + n)%nat /\ filterDivisibleByCandidate (nth i cp []) d = []) ->
  exists cp' evs, filterRows n r cp d = (cp', false, evs).
Proof.
  induction n as [|n IH]; intros r cp d [i [Hi E]]; [lia|].
  simpl. destruct (filterDivisibleByCandidate (nth r cp []) d) as [|x l] eqn:Er.
  - now eexists _, _.
  - assert (Hne : i <> r) by (intros ->; congruence).
    destruct (IH (S r) (upd r (x :: l) cp) d) as [cp' [evs E']].
    { exists i. split; [lia|]. rewrite nth_upd_other by lia. assumption. }
    rewrite E'. now eexists _, _.
Qed.

Lemma filterRows_valid n : forall r cp d cp' evs,
  filterRows n r cp d = (cp', true, evs) ->
  length cp' = length cp
  /\ (forall i, (r <= i < r + n)%nat ->
        nth i cp' [] = filterDivisibleByCandidate (nth i cp []) d /\ nth i cp' [] <> [])
  /\ (forall i, ~ (r <= i < r + n)%nat -> nth i cp' [] = nth i cp []).
Proof.
  induction n as [|n IH]; intros r cp d cp' evs H; simpl in H.
  - inversion H; subst. split; [reflexivity|]. split; [intros; lia|reflexivity].
  - destruct (filterDivisibleByCandidate (nth r cp []) d) as [|x l] eqn:E; [discriminate|].
    destruct (filterRows n (S r) (upd r (x :: l) cp) d) as [[cp1 v1] evs1] eqn:E1.
    inversion H; subst. apply IH in E1. destruct E1 as [Hlen [Hin Hout]].
    rewrite length_upd in Hlen. split; [assumption|]. split.
    + intros i Hi. destruct (Nat.eq_dec i r) as [->|Hne].
      * rewrite Hout by lia.
        destruct (Nat.lt_ge_cases r (length cp)) as [Hr|Hr].
        -- rewrite nth_upd_same by assumption. rewrite E. split; [reflexivity|discriminate].
        -- rewrite nth_overflow in E by assumption. discriminate.
      * destruct (Hin i ltac:(lia)) as [H1 H2]. rewrite nth_upd_other in H1 by lia.
        now split.
    + intros i Hi. rewrite Hout by lia. apply nth_upd_other. lia.
Qed.

Lemma filterRows_false_has_empty n : forall r cp d cp' evs,
  filterRows n r cp d = (cp', false, evs) ->
  exists i, (r <= i < r + n)%nat /\ filterDivisibleByCandidate (nth i cp []) d = [].
Proof.
  induction n as [|n IH]; intros r cp d cp' evs H; simpl in H; [discriminate|].
  destruct (filterDivisibleByCandidate (nth r cp []) d) as [|x l] eqn:E.
  - exists r. split; [lia|assumption].
  - destruct (filterRows n (S r) (upd r (x :: l) cp) d) as [[cp1 v1] evs1] eqn:E1.
    inversion H; subst. apply IH in E1. destruct E1 as [i [Hi Ei]].
    rewrite nth_upd_other in Ei by lia. exists i. split; [lia|assumption].
Qed.

Lemma iterationSolutions_empty_row puzzle d :
  (exists r, (r < 9)%nat /\ filterDivisibleByCandidate (nth r puzzle []) d = []) ->
  iterationSolutions puzzle d = [].
Proof.
  intros [r [Hr E]]. unfold iterationSolutions.
  destruct (filterRows_invalid 9 0 puzzle d) as [cp' [evs E']].
  { exists r. split; [lia|assumption]. }
  now rewrite E'.
Qed.

(** What an iteration does to the state of the loop. *)
Lemma iteration_spec d ls :
  exists ls' ctl evs,
    iteration d ls = Some (ls', ctl)
    /\ basePuzzle ls' = basePuzzle ls
    /\ events ls' = events ls ++ evs
    /\ (forall e, In e evs -> eventOf d e)
    /\ match ctl with
       | Break =>
           reported ls' = Some (d, iterationSolutions (basePuzzle ls) d)
           /\ iterationSolutions (basePuzzle ls) d <> []
       | Continue =>
           reported ls' = reported ls /\ iterationSolutions (basePuzzle ls) d = []
       end.
Proof.
  unfold iteration, iterationSolutions.
  destruct (filterRows 9 0 (basePuzzle ls) d) as [[cp valid] evs] eqn:E.
  pose proof (filterRows_events _ _ _ _ _ _ _ E) as Hev.
  destruct valid; simpl.
  - destruct (runSolver_returns cp) as [sols Es]. rewrite Es.
    destruct sols as [|g sols].
    + eexists _, Continue, _. split; [reflexivity|]. simpl. repeat split; try reflexivity.
      intros e He. apply in_app_or in He. destruct He as [He|[<-|[]]].
      * right. now apply Hev.
      * now left.
    + eexists _, Break, _. split; [reflexivity|]. simpl. repeat split; try reflexivity.
      * intros e He. apply in_app_or in He. destruct He as [He|[<-|[]]].
        -- right. now apply Hev.
        -- now left.
      * discriminate.
  - eexists _, Continue, _. split; [reflexivity|]. simpl. repeat split; try reflexivity.
    intros e He. right. now apply Hev.
Qed.

(** C8. When the divisibility filter leaves some row of the puzzle without a
    candidate, the iteration for that divisor ends without error and without a
    call of the solver, reports nothing, leaves the base rows as they were,
    and the loop goes on with the next divisor from the state it left. *)
Theorem empty_row_skips_the_solver :
  forall (d : Z) (ls : loop_state),
    (exists r, (r < 9)%nat
               /\ filterDivisibleByCandidate (nth r (basePuzzle ls) []) d = []) ->
    exists ls' evs,
      iteration d ls = Some (ls', Continue)
      /\ basePuzzle ls' = basePuzzle ls
      /\ reported ls' = reported ls
      /\ events ls' = events ls ++ evs
      /\ (forall d', ~ In (CallSolveFixed d') evs)
      /\ (forall rest, divisorLoop (d :: rest) ls = divisorLoop rest ls').
Proof.
  intros d ls [r [Hr E]].
  destruct (filterRows_invalid 9 0 (basePuzzle ls) d) as [cp' [evs E']].
  { exists r. split; [lia|assumption]. }
  exists (mkLoop (basePuzzle ls) (events ls ++ evs) (reported ls)), evs.
  assert (Hit : iteration d ls
                = Some (mkLoop (basePuzzle ls) (events ls ++ evs) (reported ls), Continue)).
  { unfold iteration. rewrite E'. reflexivity. }
  split; [assumption|]. simpl. repeat split.
  - intros d' Hin.
    destruct (filterRows_events _ _ _ _ _ _ _ E' _ Hin) as [i Hi]. discriminate.
  - intros rest. simpl. now rewrite Hit.
Qed.

(** ** The divisor loop *)

Lemma divisorLoop_spec divisors : forall ls,
  exists ls' evs,
    divisorLoop divisors ls = Some ls'
    /\ basePuzzle ls' = basePuzzle ls
    /\ events ls' = events ls ++ evs
    /\ (forall e, In e evs -> exists d, In d divisors /\ eventOf d e)
    /\ ((reported ls' = reported ls
         /\ forall d, In d divisors -> iterationSolutions (basePuzzle ls) d = [])
        \/ exists before d after,
             divisors = before ++ d :: after
             /\ reported ls' = Some (d, iterationSolutions (basePuzzle ls) d)
             /\ iterationSolutions (basePuzzle ls) d <> []
             /\ forall d', In d' before -> iterationSolutions (basePuzzle ls) d' = []).
Proof.
  induction divisors as [|d rest IH]; intros ls.
  - exists ls, []. simpl. rewrite app_nil_r.
    split; [reflexivity|]. split; [reflexivity|]. split; [reflexivity|].
    split; [intros e []|]. left. split; [reflexivity|intros d []].
  - destruct (iteration_spec d ls) as [ls1 [ctl [evs1 [E1 [Hb1 [He1 [Hev1 Hc]]]]]]].
    simpl. rewrite E1. destruct ctl.
    + destruct (IH ls1) as [ls2 [evs2 [E2 [Hb2 [He2 [Hev2 Hres]]]]]].
      destruct Hc as [Hr1 Hs1].
      exists ls2, (evs1 ++ evs2). split; [assumption|]. split; [congruence|].
      split; [rewrite He2, He1; now rewrite app_assoc|]. split.
      * intros e He. apply in_app_or in He. destruct He as [He|He].
        -- exists d. split; [now left|now apply Hev1].
        -- destruct (Hev2 e He) as [d' [Hd' Hed']]. exists d'. split; [now right|assumption].
      * rewrite Hb1 in Hres. destruct Hres as [[Hr2 Hall]|[before [d0 [after [Ed [Hr2 [Hne Hbef]]]]]]].
        -- left. split; [congruence|]. intros d' [<-|Hd']; [assumption|now apply Hall].
        -- right. exists (d :: before), d0, after. split; [simpl; now rewrite Ed|].
           split; [assumption|]. split; [assumption|].
           intros d' [<-|Hd']; [assumption|now apply Hbef].
    + destruct Hc as [Hr1 Hne].
      exists ls1, evs1. split; [reflexivity|]. split; [assumption|]. split; [assumption|].
      split.
      * intros e He. exists d. split; [now left|now apply Hev1].
      * right. exists [], d, rest. split; [reflexivity|]. split; [assumption|].
        split; [assumption|]. intros d' [].
Qed.

(** ** The solver reads the rows 0..8 only, and needs a candidate in each *)

Lemma rowOrder_lt pos : (pos < 9)%nat -> (nth pos rowOrder 0 < 9)%nat.
Proof.
  intros H. do 9 (destruct pos as [|pos]; [simpl; lia|]). lia.
Qed.

Lemma rowOrder_position r : (r < 9)%nat -> exists pos, (pos < 9)%nat /\ nth pos rowOrder 0%nat = r.
Proof.
  intros H.
  destruct r as [|[|[|[|[|[|[|[|[|r]]]]]]]]]; try lia;
    [exists 7%nat|exists 0%nat|exists 6%nat|exists 3%nat|exists 8%nat
    |exists 2%nat|exists 4%nat|exists 5%nat|exists 1%nat]; split; (lia || reflexivity).
Qed.

Lemma forCandidates_ext body1 body2 cands :
  (forall cand st, body1 cand st = body2 cand st) ->
  forall st, forCandidates body1 cands st = forCandidates body2 cands st.
Proof.
  intros H. induction cands as [|cand cands IH]; intros st; simpl; [reflexivity|].
  rewrite H. destruct (body2 cand st); [apply IH|reflexivity].
Qed.

Lemma tryCandidate_ext rec1 rec2 r cand st :
  (forall s, rec1 s = rec2 s) -> tryCandidate rec1 r cand st = tryCandidate rec2 r cand st.
Proof.
  intros H. unfold tryCandidate. destruct (hasConflict _ r cand); [reflexivity|].
  now rewrite H.
Qed.

Lemma solveFixed_ext c1 c2 :
  (forall r, (r < 9)%nat -> nth r c1 [] = nth r c2 []) ->
  forall fuel pos st, solveFixed fuel c1 pos st = solveFixed fuel c2 pos st.
Proof.
  intros H. induction fuel as [|fuel IH]; intros pos st; [reflexivity|].
  rewrite !solveFixed_unfold.
  destruct (Nat.eqb_spec pos 9) as [->|Hne]; [reflexivity|].
  destruct (Nat.lt_ge_cases pos 9) as [Hlt|Hge].
  - rewrite (H _ (rowOrder_lt pos Hlt)).
    apply forCandidates_ext. intros cand s. apply tryCandidate_ext. intros s'. apply IH.
  - rewrite (nth_overflow rowOrder) by (simpl; lia).
    rewrite (H 0%nat) by lia.
    apply forCandidates_ext. intros cand s. apply tryCandidate_ext. intros s'. apply IH.
Qed.

Lemma forCandidates_invariant (P : solver_state -> Prop) body cands :
  (forall cand st st', In cand cands -> P st -> body cand st = Some st' -> P st') ->
  forall st st', P st -> forCandidates body cands st = Some st' -> P st'.
Proof.
  induction cands as [|cand cands IH]; intros Hbody st st' Hst H; simpl in H.
  - inversion H; now subst.
  - destruct (body cand st) as [s|] eqn:E; [|discriminate].
    apply (IH (fun c s0 s1 Hc => Hbody c s0 s1 (or_intror Hc)) s st'); [|assumption].
    eapply Hbody; [now left|eassumption|eassumption].
Qed.

(** Above a row without candidate no solution is recorded. *)
Lemma solveFixed_empty_row candidates p0 :
  (p0 < 9)%nat -> nth (nth p0 rowOrder 0%nat) candidates [] = [] ->
  forall fuel pos st st',
    (pos <= p0)%nat -> solveFixed fuel candidates pos st = Some st' ->
    allSolutions st' = allSolutions st.
Proof.
  intros Hp0 Hempty. induction fuel as [|fuel IH]; intros pos st st' Hpos H; [discriminate|].
  rewrite solveFixed_unfold in H. destruct (Nat.eqb_spec pos 9) as [->|Hne]; [lia|].
  destruct (Nat.eq_dec pos p0) as [->|Hlt].
  - rewrite Hempty in H. simpl in H. inversion H; now subst.
  - apply (forCandidates_invariant (fun s => allSolutions s = allSolutions st)) in H;
      [assumption| |reflexivity].
    intros cand s s' _ Hs Hbody. unfold tryCandidate in Hbody.
    destruct (hasConflict (countTry s) _ cand).
    + inversion Hbody; subst. assumption.
    + destruct (solveFixed fuel candidates (pos + 1) _) as [s1|] eqn:E1; [|discriminate].
      inversion Hbody; subst. simpl. apply IH in E1; [|lia]. rewrite E1.
      unfold commit. clear E1.
      assert (Hc : forall cols s0, allSolutions (fold_left (commitCell (nth pos rowOrder 0%nat) cand) cols s0)
                           = allSolutions s0).
      { induction cols as [|c cols IHc]; intros s0; simpl; [reflexivity|]. now rewrite IHc. }
      rewrite Hc. assumption.
Qed.

Lemma nth_digitsOfRows candidatePuzzle r :
  nth r (digitsOfRows candidatePuzzle) [] = map (map digit_of) (nth r candidatePuzzle []).
Proof. exact (map_nth (map (map digit_of)) candidatePuzzle [] r). Qed.

Lemma runSolver_empty_row candidatePuzzle r :
  (r < 9)%nat -> nth r candidatePuzzle [] = [] -> runSolver candidatePuzzle = Some [].
Proof.
  intros Hr E. unfold runSolver.
  destruct (solveFixed_returns (digitsOfRows candidatePuzzle) 10 0 initialState)
    as [st [Es _]]; try lia.
  rewrite Es. destruct (rowOrder_position r Hr) as [p0 [Hp0 Ep0]].
  apply (solveFixed_empty_row _ p0) in Es; try lia.
  - now rewrite Es.
  - rewrite Ep0, nth_digitsOfRows. now rewrite E.
Qed.

Lemma runSolver_ext cp1 cp2 :
  (forall r, (r < 9)%nat -> nth r cp1 [] = nth r cp2 []) -> runSolver cp1 = runSolver cp2.
Proof.
  intros H. unfold runSolver. rewrite (solveFixed_ext (digitsOfRows cp1) (digitsOfRows cp2)).
  - reflexivity.
  - intros r Hr. rewrite !nth_digitsOfRows. now rewrite H.
Qed.

Lemma nth_filteredPuzzle puzzle d r :
  nth r (filteredPuzzle puzzle d) [] = filterDivisibleByCandidate (nth r puzzle []) d.
Proof.
  exact (map_nth (fun row => filterDivisibleByCandidate row d) puzzle [] r).
Qed.

(** The solutions of an iteration are those of the solver on the rows
    filtered for its divisor. *)
Lemma iterationSolutions_runSolver puzzle d :
  runSolver (filteredPuzzle puzzle d) = Some (iterationSolutions puzzle d).
Proof.
  unfold iterationSolutions.
  destruct (filterRows 9 0 puzzle d) as [[cp valid] evs] eqn:E. destruct valid.
  - apply filterRows_valid in E. destruct E as [_ [Hin _]].
    rewrite (runSolver_ext (filteredPuzzle puzzle d) cp).
    + destruct (runSolver_returns cp) as [sols Es]. now rewrite Es.
    + intros r Hr. rewrite nth_filteredPuzzle. symmetry. apply Hin. lia.
  - apply filterRows_false_has_empty in E. destruct E as [i [Hi Ei]].
    apply (runSolver_empty_row _ i); [lia|]. now rewrite nth_filteredPuzzle.
Qed.

Lemma sorted_after_head (l1 l2 : list Z) (x : Z) :
  StronglySorted (fun a b => b < a) (l1 ++ x :: l2) -> forall y, In y l2 -> y < x.
Proof.
  induction l1 as [|a l1 IH]; simpl; intros H y Hy.
  - inversion H as [|? ? _ Hall]; subst. rewrite Forall_forall in Hall. now apply Hall.
  - inversion H; subst. now apply IH.
Qed.

(** C1. If the divisor loop reports the divisor [d] (the first one whose
    solution set is not empty; the loop stops there), then [d] is an
    enumerated divisor, the reported solutions are those of the solver on the
    rows filtered for [d], and for every enumerated divisor [d' > d] (from 337
    to 12345678, last digit 1, 3, 7 or 9) the solver finds no solution on the
    rows filtered for [d']. *)
Theorem first_reported_divisor_is_the_greatest :
  forall (puzzle : list (list str)) (ls : loop_state) (d : Z) (sols : list grid),
    searchDivisor puzzle = Some ls ->
    reported ls = Some (d, sols) ->
    enumerated d
    /\ runSolver (filteredPuzzle puzzle d) = Some sols
    /\ sols <> []
    /\ forall d', enumerated d' -> d < d' ->
         runSolver (filteredPuzzle puzzle d') = Some [].
Proof.
  intros puzzle ls d sols Hrun Hrep. unfold searchDivisor in Hrun.
  destruct (divisorLoop_spec candidateGCDs (mkLoop puzzle [] None))
    as [ls' [evs [E [_ [_ [_ Hres]]]]]].
  rewrite E in Hrun. inversion Hrun; subst ls'. cbn [basePuzzle reported] in Hres.
  destruct Hres as [[Hnone _]|[before [d0 [after [Ed [Hr [Hne Hbef]]]]]]];
    [congruence|].
  rewrite Hr in Hrep. inversion Hrep; subst d0 sols.
  assert (Hd : In d candidateGCDs) by (rewrite Ed; apply in_elt).
  split; [now apply candidateGCDs_In|].
  split; [apply iterationSolutions_runSolver|]. split; [assumption|].
  intros d' Hd' Hlt. apply candidateGCDs_In in Hd'.
  pose proof candidateGCDs_sorted as Hs. rewrite Ed in Hs, Hd'.
  apply in_app_or in Hd'. destruct Hd' as [Hb|[->|Ha]].
  - rewrite iterationSolutions_runSolver. now rewrite (Hbef d' Hb).
  - lia.
  - pose proof (sorted_after_head _ _ _ Hs d' Ha). lia.
Qed.

(** The loop always ends, with the calls of the divisors it was given. *)
Lemma searchDivisor_returns puzzle : exists ls, searchDivisor puzzle = Some ls.
Proof.
  unfold searchDivisor.
  destruct (divisorLoop_spec candidateGCDs (mkLoop puzzle [] None)) as [ls [_ [E _]]].
  now exists ls.
Qed.

(** C10. Every call of [filterDivisibleByCandidate] the divisor loop makes
    has a modulus from 337 to 12345678, so the modulus is not zero; for such
    a modulus and a string of digits, before each digit [c] the running
    remainder is in [0, modulus), the value [remainder * 10 + (c - '0')] is
    at most 123456789, which is below the largest [int], and the step
    computes the remainder of that value without wrap-around. *)
Theorem filterDivisible_calls_are_safe :
  forall (puzzle : list (list str)) (ls : loop_state) (r : nat) (d : Z),
    searchDivisor puzzle = Some ls ->
    In (CallFilterDivisible r d) (events ls) ->
    337 <= d <= 12345678
    /\ d <> 0
    /\ forall (pre : str) (c : ascii) (post : str),
         Forall isDigit (pre ++ c :: post) ->
         0 <= remainderOf pre d < d
         /\ 0 <= remainderOf pre d * 10 + digit_of c <= 123456789
         /\ 123456789 <= INT_MAX
         /\ remainderOf (pre ++ [c]) d = (remainderOf pre d * 10 + digit_of c) mod d.
Proof.
  intros puzzle ls r d Hrun Hin. unfold searchDivisor in Hrun.
  destruct (divisorLoop_spec candidateGCDs (mkLoop puzzle [] None))
    as [ls' [evs [E [_ [Hev [Hevs _]]]]]].
  rewrite E in Hrun. inversion Hrun; subst ls'. cbn [events app] in Hev. rewrite Hev in Hin.
  destruct (Hevs _ Hin) as [d0 [Hd0 [Hs|[r0 Hf]]]]; [discriminate|].
  inversion Hf; subst d0 r0. apply candidateGCDs_In in Hd0. destruct Hd0 as [Hd _].
  split; [assumption|]. split; [lia|].
  intros pre c post Hdig. apply Forall_app in Hdig. destruct Hdig as [Hpre Hc].
  inversion Hc as [|? ? Hcd _]; subst.
  destruct (remainder_loop_in_range d Hd pre Hpre) as [Ev B].
  unfold isDigit in Hcd. split; [assumption|]. split; [lia|].
  split; [unfold INT_MAX; lia|].
  rewrite remainderOf_app.
  unfold remainderStep. rewrite (wrap32_small (remainderOf pre d * 10))
    by (change (2 ^ 31) with 2147483648; lia).
  rewrite wrap32_small by (change (2 ^ 31) with 2147483648; lia).
  apply Z.rem_mod_nonneg; lia.
Qed.

(** ** Digit masks *)

Lemma bit_pow d : 0 <= d -> bit d = 2 ^ d.
Proof. intros H. unfold bit. now rewrite Z.shiftl_1_l. Qed.

Lemma testbit_bit d x : 0 <= d -> Z.testbit (bit d) x = (d =? x).
Proof. intros H. rewrite bit_pow by assumption. now apply Z.pow2_bits_eqb. Qed.

Lemma testbit_lor_bit m d x :
  0 <= d -> Z.testbit (Z.lor m (bit d)) x = Z.testbit m x || (d =? x).
Proof. intros H. now rewrite Z.lor_spec, testbit_bit. Qed.

(** [(m & (1 << d)) != 0] tests bit [d] of [m]. *)
Lemma land_bit_test m d :
  0 <= d -> negb (Z.land m (bit d) =? 0) = Z.testbit m d.
Proof.
  intros H. destruct (Z.testbit m d) eqn:E.
  - apply negb_true_iff. apply Z.eqb_neq. intros Hz.
    assert (Hb : Z.testbit (Z.land m (bit d)) d = true).
    { rewrite Z.land_spec, testbit_bit, E, Z.eqb_refl by assumption. reflexivity. }
    rewrite Hz, Z.bits_0 in Hb. discriminate.
  - apply negb_false_iff. apply Z.eqb_eq. apply Z.bits_inj'. intros k Hk.
    rewrite Z.land_spec, testbit_bit, Z.bits_0 by assumption.
    destruct (Z.eqb_spec d k) as [->|]; [now rewrite E|apply andb_false_r].
Qed.

Lemma boxIndexAt_eq r c : (r < 9)%nat -> (c < 9)%nat -> boxIndexAt r c = getBoxIndex r c.
Proof.
  intros Hr Hc.
  do 9 (destruct r as [|r]; [do 9 (destruct c as [|c]; [reflexivity|]); lia|]). lia.
Qed.

Lemma getBoxIndex_lt r c : (r < 9)%nat -> (c < 9)%nat -> (getBoxIndex r c < 9)%nat.
Proof.
  intros Hr Hc.
  do 9 (destruct r as [|r]; [do 9 (destruct c as [|c]; [cbv; lia|]); lia|]). lia.
Qed.

(** ** The update loop of a committed candidate *)

Lemma upd_upd {A : Type} (i : nat) (x y : A) (v : list A) :
  upd i x (upd i y v) = upd i x v.
Proof.
  revert i; induction v as [|z v IH]; intros [|i]; simpl; auto. now rewrite IH.
Qed.

Lemma commit_fields r cand cols : forall st,
  colMask (fold_left (commitCell r cand) cols st)
  = fold_left (fun m c => upd c (Z.lor (nth c m 0) (bit (nth c cand 0))) m) cols (colMask st)
  /\ boxMask (fold_left (commitCell r cand) cols st)
     = fold_left (fun m c => upd (boxIndexAt r c)
                               (Z.lor (nth (boxIndexAt r c) m 0) (bit (nth c cand 0))) m)
         cols (boxMask st)
  /\ solution (fold_left (commitCell r cand) cols st)
     = fold_left (fun g c => upd r (upd c (nth c cand 0) (nth r g [])) g) cols (solution st)
  /\ allSolutions (fold_left (commitCell r cand) cols st) = allSolutions st
  /\ candidateTries (fold_left (commitCell r cand) cols st) = candidateTries st.
Proof.
  induction cols as [|c cols IH]; intros st; simpl.
  - repeat split.
  - destruct (IH (commitCell r cand st c)) as [H1 [H2 [H3 [H4 H5]]]].
    rewrite H1, H2, H3, H4, H5. repeat split.
Qed.

Lemma colMask_fold cand cols : forall m c,
  NoDup cols -> (forall a, In a cols -> (a < length m)%nat) ->
  length (fold_left (fun m c => upd c (Z.lor (nth c m 0) (bit (nth c cand 0))) m) cols m)
  = length m
  /\ nth c (fold_left (fun m c => upd c (Z.lor (nth c m 0) (bit (nth c cand 0))) m) cols m) 0
     = if in_dec Nat.eq_dec c cols
       then Z.lor (nth c m 0) (bit (nth c cand 0)) else nth c m 0.
Proof.
  induction cols as [|a cols IH]; intros m c Hnd Hlt; simpl.
  - now split.
  - inversion Hnd as [|? ? Hna Hnd']; subst.
    destruct (IH (upd a (Z.lor (nth a m 0) (bit (nth a cand 0))) m) c Hnd') as [Hlen Hnth].
    { intros x Hx. rewrite length_upd. apply Hlt. now right. }
    rewrite length_upd in Hlen. split; [assumption|]. rewrite Hnth.
    destruct (Nat.eq_dec a c) as [->|Hne].
    + destruct (in_dec Nat.eq_dec c cols) as [Hin|_]; [contradiction|].
      apply nth_upd_same. apply Hlt. now left.
    + rewrite nth_upd_other by assumption.
      destruct (in_dec Nat.eq_dec c cols); reflexivity.
Qed.

Lemma boxMask_fold r cand cols : forall m b x,
  (forall a, In a cols -> (boxIndexAt r a < length m)%nat /\ 0 <= nth a cand 0) ->
  length (fold_left (fun m c => upd (boxIndexAt r c)
                                  (Z.lor (nth (boxIndexAt r c) m 0) (bit (nth c cand 0))) m)
            cols m) = length m
  /\ Z.testbit
       (nth b (fold_left (fun m c => upd (boxIndexAt r c)
                                       (Z.lor (nth (boxIndexAt r c) m 0) (bit (nth c cand 0))) m)
                 cols m) 0) x
     = Z.testbit (nth b m 0) x
       || existsb (fun c => Nat.eqb (boxIndexAt r c) b && (nth c cand 0 =? x)) cols.
Proof.
  induction cols as [|a cols IH]; intros m b x H; simpl.
  - split; [reflexivity|now rewrite orb_false_r].
  - destruct (H a (or_introl eq_refl)) as [Ha Hd].
    destruct (IH (upd (boxIndexAt r a)
                    (Z.lor (nth (boxIndexAt r a) m 0) (bit (nth a cand 0))) m) b x)
      as [Hlen Hbit].
    { intros y Hy. rewrite length_upd. apply H. now right. }
    rewrite length_upd in Hlen. split; [assumption|]. rewrite Hbit.
    destruct (Nat.eqb_spec (boxIndexAt r a) b) as [<-|Hne].
    + rewrite nth_upd_same by assumption. rewrite testbit_lor_bit by assumption.
      simpl. now rewrite orb_assoc.
    + rewrite nth_upd_other by assumption. reflexivity.
Qed.

Lemma solution_fold r cand cols : forall g,
  (r < length g)%nat ->
  fold_left (fun g c => upd r (upd c (nth c cand 0) (nth r g [])) g) cols g
  = match cols with
    | [] => g
    | _ => upd r (fold_left (fun row c => upd c (nth c cand 0) row) cols (nth r g [])) g
    end.
Proof.
  induction cols as [|a cols IH]; intros g Hr; [reflexivity|].
  simpl. rewrite IH by (now rewrite length_upd).
  destruct cols as [|b cols]; [reflexivity|].
  rewrite nth_upd_same by assumption. now rewrite upd_upd.
Qed.

Lemma row_fold cand cols : forall row c,
  length (fold_left (fun row c => upd c (nth c cand 0) row) cols row) = length row
  /\ nth c (fold_left (fun row c => upd c (nth c cand 0) row) cols row) 0
     = if in_dec Nat.eq_dec c cols
       then (if Nat.ltb c (length row) then nth c cand 0 else 0)
       else nth c row 0.
Proof.
  induction cols as [|a cols IH] using rev_ind; intros row c; simpl.
  - now split.
  - rewrite fold_left_app. simpl. destruct (IH row c) as [Hlen Hnth].
    rewrite length_upd. split; [assumption|].
    destruct (Nat.eq_dec a c) as [->|Hne].
    + destruct (in_dec Nat.eq_dec c (cols ++ [c])) as [_|Hn];
        [|exfalso; apply Hn, in_elt].
      destruct (Nat.ltb_spec c (length row)) as [Hlt|Hge].
      * apply nth_upd_same. now rewrite Hlen.
      * apply nth_overflow. rewrite length_upd, Hlen. assumption.
    + rewrite nth_upd_other by assumption. rewrite Hnth.
      destruct (in_dec Nat.eq_dec c cols) as [Hin|Hout];
        destruct (in_dec Nat.eq_dec c (cols ++ [a])) as [Hin'|Hout']; try reflexivity.
      * exfalso. apply Hout'. apply in_or_app. now left.
      * exfalso. apply in_app_or in Hin'. destruct Hin' as [?|[?|[]]]; [contradiction|].
        now apply Hne.
Qed.

(** The state after the update loop: every column mask has the digit of its
    column, every box mask the digits of the row that fall into the box, and
    row [r] of [solution] is the candidate. *)
Lemma commit_spec r cand st :
  (r < 9)%nat -> length cand = 9%nat -> (forall c, (c < 9)%nat -> 0 <= nth c cand 0) ->
  length (colMask st) = 9%nat -> length (boxMask st) = 9%nat ->
  length (solution st) = 9%nat -> length (nth r (solution st) []) = 9%nat ->
  let st' := commit r cand st in
  length (colMask st') = 9%nat /\ length (boxMask st') = 9%nat
  /\ length (solution st') = 9%nat
  /\ (forall c x, (c < 9)%nat ->
        Z.testbit (nth c (colMask st') 0) x
        = Z.testbit (nth c (colMask st) 0) x || (nth c cand 0 =? x))
  /\ (forall b x,
        Z.testbit (nth b (boxMask st') 0) x
        = Z.testbit (nth b (boxMask st) 0) x
          || existsb (fun c => Nat.eqb (getBoxIndex r c) b && (nth c cand 0 =? x)) (seq 0 9))
  /\ nth r (solution st') [] = cand
  /\ (forall r', r' <> r -> nth r' (solution st') [] = nth r' (solution st) [])
  /\ allSolutions st' = allSolutions st.
Proof.
  intros Hr Hlen Hdig Hcol Hbox Hsol Hrow st'. subst st'. unfold commit.
  destruct (commit_fields r cand (seq 0 9) st) as [E1 [E2 [E3 [E4 _]]]].
  rewrite E1, E2, E3, E4. clear E1 E2 E3 E4.
  assert (Hseq : forall a, In a (seq 0 9) <-> (a < 9)%nat)
    by (intros a; rewrite in_seq; lia).
  split; [|split; [|split; [|split; [|split; [|split; [|split]]]]]].
  - rewrite (proj1 (colMask_fold cand (seq 0 9) (colMask st) 0%nat (seq_NoDup 9 0)
                      ltac:(intros a Ha; apply Hseq in Ha; lia))). assumption.
  - rewrite (proj1 (boxMask_fold r cand (seq 0 9) (boxMask st) 0%nat 0
                      ltac:(intros a Ha; apply Hseq in Ha; split;
                            [rewrite boxIndexAt_eq by assumption;
                             pose proof (getBoxIndex_lt r a Hr Ha); lia
                            |now apply Hdig]))). assumption.
  - rewrite solution_fold by lia. simpl. now rewrite length_upd.
  - intros c x Hc.
    rewrite (proj2 (colMask_fold cand (seq 0 9) (colMask st) c (seq_NoDup 9 0)
                      ltac:(intros a Ha; apply Hseq in Ha; lia))).
    destruct (in_dec Nat.eq_dec c (seq 0 9)) as [_|Hn]; [|exfalso; apply Hn, Hseq, Hc].
    rewrite testbit_lor_bit by (now apply Hdig). reflexivity.
  - intros b x.
    rewrite (proj2 (boxMask_fold r cand (seq 0 9) (boxMask st) b x
                      ltac:(intros a Ha; apply Hseq in Ha; split;
                            [rewrite boxIndexAt_eq by assumption;
                             pose proof (getBoxIndex_lt r a Hr Ha); lia
                            |now apply Hdig]))).
    f_equal. apply existsb_ext_in. intros a Ha. apply Hseq in Ha.
    now rewrite boxIndexAt_eq.
  - rewrite solution_fold by lia. cbv beta iota delta [seq].
    rewrite nth_upd_same by lia.
    apply (nth_ext _ _ 0 0).
    + rewrite (proj1 (row_fold cand _ (nth r (solution st) []) 0%nat)). lia.
    + intros c Hc. rewrite (proj1 (row_fold cand _ (nth r (solution st) []) 0%nat)) in Hc.
      rewrite (proj2 (row_fold cand _ (nth r (solution st) []) c)).
      rewrite Hrow in *.
      destruct (in_dec Nat.eq_dec c _) as [_|Hn].
      * destruct (Nat.ltb_spec c 9); [reflexivity|lia].
      * exfalso. apply Hn. apply (Hseq c). assumption.
  - intros r' Hne. rewrite solution_fold by lia. cbv beta iota delta [seq].
    apply nth_upd_other. auto.
  - reflexivity.
Qed.

(** ** The conflict check *)

Lemma rowAt_lt pos : (pos < 9)%nat -> (rowAt pos < 9)%nat.
Proof. apply rowOrder_lt. Qed.

Lemma rowAt_inj p q : (p < 9)%nat -> (q < 9)%nat -> rowAt p = rowAt q -> p = q.
Proof.
  intros Hp Hq.
  do 9 (destruct p as [|p]; [do 9 (destruct q as [|q]; [cbv; (reflexivity || discriminate)|]); lia|]).
  lia.
Qed.

Lemma hasConflict_existsb st r cand :
  hasConflict st r cand = existsb (conflictAt st r cand) (seq 0 9).
Proof.
  unfold hasConflict. change (seq 0 9) with (0 :: 1 :: seq 2 7)%nat.
  cbn [existsb]. destruct (conflictAt st r cand 0), (conflictAt st r cand 1); reflexivity.
Qed.

Lemma conflictAt_spec pos st r cand c :
  solverInv pos st -> (r < 9)%nat -> (c < 9)%nat -> 0 <= nth c cand 0 ->
  (conflictAt st r cand c = true
   <-> exists q, (q < pos)%nat
         /\ (cell (solution st) (rowAt q) c = nth c cand 0
             \/ exists c', (c' < 9)%nat /\ getBoxIndex (rowAt q) c' = getBoxIndex r c
                           /\ cell (solution st) (rowAt q) c' = nth c cand 0)).
Proof.
  intros [_ [_ [_ [_ [Hcol Hbox]]]]] Hr Hc Hd. unfold conflictAt.
  rewrite boxIndexAt_eq by assumption.
  rewrite !land_bit_test by assumption. rewrite orb_true_iff.
  rewrite (Hcol c _ Hc Hd). rewrite (Hbox _ _ (getBoxIndex_lt r c Hr Hc) Hd).
  split.
  - intros [[q [Hq E]]|[q [c' [Hq [Hc' [Eb E]]]]]].
    + exists q. split; [assumption|now left].
    + exists q. split; [assumption|]. right. now exists c'.
  - intros [q [Hq [E|[c' [Hc' [Eb E]]]]]].
    + left. now exists q.
    + right. now exists q, c'.
Qed.

(** The conflict check finds exactly the clashes with the rows visited
    before. *)
Lemma hasConflict_spec pos st r cand :
  solverInv pos st -> (r < 9)%nat -> (forall c, (c < 9)%nat -> 0 <= nth c cand 0) ->
  (hasConflict st r cand = true
   <-> exists q, (q < pos)%nat /\ clash (nth (rowAt q) (solution st) []) cand (rowAt q) r).
Proof.
  intros Hinv Hr Hd. rewrite hasConflict_existsb, existsb_exists. unfold clash. split.
  - intros [c [Hc E]]. apply in_seq in Hc.
    apply (conflictAt_spec pos) in E; try assumption; try lia; [|apply Hd; lia].
    destruct E as [q [Hq E]]. exists q. split; [assumption|]. exists c. split; [lia|].
    exact E.
  - intros [q [Hq [c [Hc E]]]]. exists c. split; [apply in_seq; lia|].
    apply (conflictAt_spec pos); try assumption; [now apply Hd|].
    exists q. split; [assumption|exact E].
Qed.

Lemma solverInv_transfer pos st st' :
  solverInv pos st ->
  colMask st' = colMask st -> boxMask st' = boxMask st ->
  length (solution st') = 9%nat ->
  (forall r, (r < 9)%nat -> length (nth r (solution st') []) = 9%nat) ->
  (forall q, (q < pos)%nat -> nth (rowAt q) (solution st') [] = nth (rowAt q) (solution st) []) ->
  solverInv pos st'.
Proof.
  intros [H1 [H2 [H3 [H4 [Hcol Hbox]]]]] Ec Eb Hl Hrows Hsame.
  unfold solverInv, masksRecord. rewrite Ec, Eb.
  split; [assumption|]. split; [assumption|]. split; [assumption|].
  split; [assumption|]. split.
  - intros c x Hc Hx. rewrite (Hcol c x Hc Hx). unfold cell.
    split; intros [q [Hq E]]; exists q; (split; [assumption|]).
    + now rewrite Hsame.
    + now rewrite <- Hsame.
  - intros b x Hb Hx. rewrite (Hbox b x Hb Hx). unfold cell.
    split; intros [q [c [Hq [Hc [Eq E]]]]]; exists q, c; (repeat (split; [assumption|])).
    + now rewrite Hsame.
    + now rewrite <- Hsame.
Qed.

Lemma completes_transfer candidates pos sol sol' g :
  (forall q, (q < pos)%nat -> nth (rowAt q) sol' [] = nth (rowAt q) sol []) ->
  completes candidates pos sol g <-> completes candidates pos sol' g.
Proof.
  intros Hsame. unfold completes.
  split; intros [H1 [H2 [H3 H4]]]; (split; [assumption|]); (split; [|now split]);
    intros q Hq; rewrite (H2 q Hq); [symmetry|]; now apply Hsame.
Qed.

(** ** What the search records *)

Section Search.

Variable candidates : list (list (list Z)).
Hypothesis candidates_valid : validCandidates candidates.

Lemma returnsWith_inv pos st st' new :
  solverInv pos st -> returnsWith pos st st' new -> solverInv pos st'.
Proof.
  intros Hinv [Ec [Eb [Hl [Hrows [Hsame _]]]]]. now apply (solverInv_transfer pos st).
Qed.

Lemma validRow_digit cand c : validRow cand -> (c < 9)%nat -> 0 <= nth c cand 0.
Proof.
  intros [Hlen [_ Hd]] Hc. rewrite Forall_forall in Hd.
  apply (Hd (nth c cand 0)). apply nth_In. lia.
Qed.

(** The state after a candidate has been committed at position [pos]. *)
Lemma commit_inv pos st cand :
  (pos < 9)%nat -> solverInv pos st -> validRow cand ->
  solverInv (pos + 1) (commit (rowAt pos) cand (countTry st))
  /\ nth (rowAt pos) (solution (commit (rowAt pos) cand (countTry st))) [] = cand
  /\ (forall r', r' <> rowAt pos ->
        nth r' (solution (commit (rowAt pos) cand (countTry st))) []
        = nth r' (solution st) [])
  /\ allSolutions (commit (rowAt pos) cand (countTry st)) = allSolutions st.
Proof.
  intros Hpos [H1 [H2 [H3 [H4 [Hcol Hbox]]]]] Hrow.
  pose proof (rowAt_lt pos Hpos) as Hr.
  destruct (commit_spec (rowAt pos) cand (countTry st) Hr (proj1 Hrow)
              (fun c Hc => validRow_digit cand c Hrow Hc) H1 H2 H3 (H4 _ Hr))
    as [L1 [L2 [L3 [Bc [Bb [Er [Eo Ea]]]]]]].
  set (st2 := commit (rowAt pos) cand (countTry st)) in *.
  change (colMask (countTry st)) with (colMask st) in Bc.
  change (boxMask (countTry st)) with (boxMask st) in Bb.
  change (solution (countTry st)) with (solution st) in Eo.
  change (allSolutions (countTry st)) with (allSolutions st) in Ea.
  assert (Hcell : forall q c, (q < pos)%nat ->
            cell (solution st2) (rowAt q) c = cell (solution st) (rowAt q) c).
  { intros q c Hq. unfold cell. rewrite Eo; [reflexivity|].
    intros E. apply rowAt_inj in E; lia. }
  assert (Hcell' : forall c, cell (solution st2) (rowAt pos) c = nth c cand 0).
  { intros c. unfold cell. now rewrite Er. }
  split; [|split; [assumption|split; assumption]].
  split; [assumption|]. split; [assumption|]. split; [assumption|]. split.
  { intros r Hr'. destruct (Nat.eq_dec r (rowAt pos)) as [->|Hne].
    - rewrite Er. apply Hrow.
    - rewrite Eo by assumption. now apply H4. }
  split.
  - intros c x Hc Hx. rewrite Bc by assumption. rewrite orb_true_iff, Z.eqb_eq.
    rewrite (Hcol c x Hc Hx). split.
    + intros [[q [Hq E]]|E].
      * exists q. split; [lia|]. now rewrite Hcell.
      * exists pos. split; [lia|]. now rewrite Hcell'.
    + intros [q [Hq E]]. destruct (Nat.eq_dec q pos) as [->|Hne].
      * right. now rewrite Hcell' in E.
      * left. exists q. split; [lia|]. rewrite Hcell in E by lia. assumption.
  - intros b x Hb Hx. rewrite Bb. rewrite orb_true_iff, existsb_exists.
    rewrite (Hbox b x Hb Hx). split.
    + intros [[q [c [Hq [Hc [Eb E]]]]]|[c [Hc E]]].
      * exists q, c. split; [lia|]. split; [assumption|]. split; [assumption|].
        now rewrite Hcell.
      * apply in_seq in Hc. apply andb_true_iff in E. destruct E as [Eb E].
        apply Nat.eqb_eq in Eb. apply Z.eqb_eq in E.
        exists pos, c. split; [lia|]. split; [lia|]. split; [assumption|].
        now rewrite Hcell'.
    + intros [q [c [Hq [Hc [Eb E]]]]]. destruct (Nat.eq_dec q pos) as [->|Hne].
      * right. exists c. split; [apply in_seq; lia|]. rewrite Hcell' in E.
        apply andb_true_iff. split; [now apply Nat.eqb_eq|now apply Z.eqb_eq].
      * left. exists q, c. split; [lia|]. split; [assumption|]. split; [assumption|].
        rewrite Hcell in E by lia. assumption.
Qed.

(** One candidate: the new solutions are the completions whose row at this
    position is the candidate. *)
Lemma tryCandidate_spec fuel pos st cand :
  (pos < 9)%nat -> solverInv pos st -> In cand (nth (rowAt pos) candidates []) ->
  (forall st2, solverInv (pos + 1) st2 ->
     exists st3 new, solveFixed fuel candidates (pos + 1) st2 = Some st3
       /\ returnsWith (pos + 1) st2 st3 new
       /\ forall g, In g new <-> completes candidates (pos + 1) (solution st2) g) ->
  exists st' new,
    tryCandidate (solveFixed fuel candidates (pos + 1)) (rowAt pos) cand st = Some st'
    /\ returnsWith pos st st' new
    /\ forall g, In g new
         <-> completes candidates pos (solution st) g /\ nth (rowAt pos) g [] = cand.
Proof.
  intros Hpos Hinv Hin IH.
  pose proof (rowAt_lt pos Hpos) as Hr.
  pose proof (candidates_valid _ _ Hr Hin) as Hrow.
  assert (Hinv' : solverInv pos (countTry st)) by exact Hinv.
  pose proof (hasConflict_spec pos (countTry st) (rowAt pos) cand Hinv' Hr
                (fun c Hc => validRow_digit cand c Hrow Hc)) as Hconf.
  change (solution (countTry st)) with (solution st) in Hconf.
  unfold tryCandidate.
  destruct (hasConflict (countTry st) (rowAt pos) cand) eqn:Ec.
  - (* rejected *)
    exists (countTry st), []. split; [reflexivity|]. split.
    + destruct Hinv as [_ [_ [H3 [H4 _]]]].
      unfold returnsWith. simpl. rewrite app_nil_r.
      split; [reflexivity|]. split; [reflexivity|]. split; [assumption|].
      split; [assumption|]. split; reflexivity.
    + intros g. split; [intros []|]. intros [[_ [Hsame [Hlater _]]] Eg].
      destruct (proj1 Hconf eq_refl) as [q [Hq Hclash]].
      destruct (Hlater pos ltac:(lia)) as [_ Hno]. apply (Hno q Hq).
      rewrite (Hsame q Hq), Eg. assumption.
  - (* committed *)
    destruct (commit_inv pos st cand Hpos Hinv Hrow) as [Hinv2 [Er [Eo Ea]]].
    destruct (IH _ Hinv2) as [st3 [new [E3 [Hret Hnew]]]].
    rewrite E3.
    destruct Hret as [Rc [Rb [Rl [Rrows [Rsame Rall]]]]].
    exists (restoreMasks (colMask (countTry st)) (boxMask (countTry st)) st3), new.
    split; [reflexivity|]. split.
    + unfold returnsWith. simpl.
      split; [reflexivity|]. split; [reflexivity|]. split; [assumption|].
      split; [assumption|]. split.
      * intros q Hq. rewrite Rsame by lia. apply Eo.
        intros E. apply rowAt_inj in E; lia.
      * now rewrite Rall, Ea.
    + intros g. rewrite Hnew. clear Hnew. unfold completes. split.
      * intros [Hl [Hsame [Hlater Hz]]]. split.
        -- split; [assumption|]. split.
           ++ intros q Hq. rewrite (Hsame q ltac:(lia)). apply Eo.
              intros E. apply rowAt_inj in E; lia.
           ++ split; [|assumption]. intros p Hp.
              destruct (Nat.eq_dec p pos) as [->|Hne]; [|apply Hlater; lia].
              rewrite (Hsame pos ltac:(lia)), Er. split; [assumption|].
              intros q Hq Hclash. rewrite (Hsame q ltac:(lia)) in Hclash.
              rewrite Eo in Hclash by (intros E; apply rowAt_inj in E; lia).
              assert (Ht : false = true) by (apply Hconf; now exists q).
              discriminate.
        -- rewrite (Hsame pos ltac:(lia)). exact Er.
      * intros [[Hl [Hsame [Hlater Hz]]] Eg]. split; [assumption|]. split.
        -- intros q Hq. destruct (Nat.eq_dec q pos) as [->|Hne].
           ++ now rewrite Er.
           ++ rewrite (Hsame q ltac:(lia)). symmetry. apply Eo.
              intros E. apply rowAt_inj in E; lia.
        -- split; [|assumption]. intros p Hp. apply Hlater. lia.
Qed.

(** The loop over the candidates of a row. *)
Lemma forCandidates_spec fuel pos :
  (pos < 9)%nat ->
  (forall st2, solverInv (pos + 1) st2 ->
     exists st3 new, solveFixed fuel candidates (pos + 1) st2 = Some st3
       /\ returnsWith (pos + 1) st2 st3 new
       /\ forall g, In g new <-> completes candidates (pos + 1) (solution st2) g) ->
  forall cands st,
    incl cands (nth (rowAt pos) candidates []) -> solverInv pos st ->
    exists st' new,
      forCandidates (tryCandidate (solveFixed fuel candidates (pos + 1)) (rowAt pos)) cands st
      = Some st'
      /\ returnsWith pos st st' new
      /\ forall g, In g new
           <-> completes candidates pos (solution st) g /\ In (nth (rowAt pos) g []) cands.
Proof.
  intros Hpos IH. induction cands as [|cand cands IHc]; intros st Hincl Hinv.
  - exists st, []. split; [reflexivity|]. split.
    + destruct Hinv as [_ [_ [H3 [H4 _]]]]. unfold returnsWith. rewrite app_nil_r.
      split; [reflexivity|]. split; [reflexivity|]. split; [assumption|].
      split; [assumption|]. split; reflexivity.
    + intros g. simpl. tauto.
  - destruct (tryCandidate_spec fuel pos st cand Hpos Hinv (Hincl _ (or_introl eq_refl)) IH)
      as [st1 [new1 [E1 [Hret1 Hnew1]]]].
    pose proof (returnsWith_inv _ _ _ _ Hinv Hret1) as Hinv1.
    destruct (IHc st1 (fun x Hx => Hincl x (or_intror Hx)) Hinv1)
      as [st2 [new2 [E2 [Hret2 Hnew2]]]].
    exists st2, (new1 ++ new2). split; [simpl; rewrite E1; exact E2|].
    destruct Hret1 as [Rc1 [Rb1 [Rl1 [Rrows1 [Rsame1 Rall1]]]]].
    destruct Hret2 as [Rc2 [Rb2 [Rl2 [Rrows2 [Rsame2 Rall2]]]]].
    split.
    + unfold returnsWith. split; [congruence|]. split; [congruence|].
      split; [assumption|]. split; [assumption|]. split.
      * intros q Hq. rewrite Rsame2 by assumption. now apply Rsame1.
      * rewrite Rall2, Rall1. now rewrite app_assoc.
    + intros g. rewrite in_app_iff, Hnew1, Hnew2.
      rewrite <- (completes_transfer candidates pos (solution st) (solution st1) g Rsame1).
      simpl. intuition.
Qed.

Lemma grid_eq_by_rows (g sol : grid) :
  length g = 9%nat -> length sol = 9%nat ->
  (forall q, (q < 9)%nat -> nth (rowAt q) g [] = nth (rowAt q) sol []) -> g = sol.
Proof.
  intros Hg Hs H. apply (nth_ext _ _ [] []); [congruence|].
  intros r Hr. rewrite Hg in Hr.
  destruct (rowOrder_position r Hr) as [q [Hq <-]]. now apply H.
Qed.

(** The recursion from position [pos], run with enough fuel from a state
    that records the rows visited so far. *)
Lemma solveFixed_spec : forall fuel pos st,
  (pos <= 9)%nat -> (9 - pos < fuel)%nat -> solverInv pos st ->
  exists st' new,
    solveFixed fuel candidates pos st = Some st'
    /\ returnsWith pos st st' new
    /\ forall g, In g new <-> completes candidates pos (solution st) g.
Proof.
  induction fuel as [|fuel IH]; intros pos st Hpos Hfuel Hinv; [lia|].
  rewrite solveFixed_unfold. destruct (Nat.eqb_spec pos 9) as [->|Hne].
  - (* all rows placed *)
    destruct Hinv as [_ [_ [H3 [H4 _]]]].
    assert (Hcompl : forall g, completes candidates 9 (solution st) g
                               <-> g = solution st /\ hasZeroInFirstColumns g = true).
    { intros g. unfold completes. split.
      - intros [Hl [Hsame [_ Hz]]]. split; [|assumption].
        now apply grid_eq_by_rows.
      - intros [-> Hz]. split; [assumption|]. split; [reflexivity|].
        split; [intros p Hp; lia|assumption]. }
    destruct (hasZeroInFirstColumns (solution st)) eqn:Ez.
    + exists (pushSolution st), [solution st]. split; [reflexivity|]. split.
      * unfold returnsWith. simpl.
        split; [reflexivity|]. split; [reflexivity|]. split; [assumption|].
        split; [assumption|]. split; reflexivity.
      * intros g. rewrite Hcompl. simpl. split.
        -- intros [<-|[]]. now split.
        -- intros [-> _]. now left.
    + exists st, []. split; [reflexivity|]. split.
      * unfold returnsWith. rewrite app_nil_r.
        split; [reflexivity|]. split; [reflexivity|]. split; [assumption|].
        split; [assumption|]. split; reflexivity.
      * intros g. rewrite Hcompl. simpl. split; [tauto|]. intros [-> Hz]. congruence.
  - assert (Hlt : (pos < 9)%nat) by lia.
    assert (IH' : forall st2, solverInv (pos + 1) st2 ->
              exists st3 new, solveFixed fuel candidates (pos + 1) st2 = Some st3
                /\ returnsWith (pos + 1) st2 st3 new
                /\ forall g, In g new <-> completes candidates (pos + 1) (solution st2) g).
    { intros st2 Hinv2. apply IH; [lia|lia|assumption]. }
    destruct (forCandidates_spec fuel pos Hlt IH' (nth (rowAt pos) candidates []) st
                (incl_refl _) Hinv) as [st' [new [E [Hret Hnew]]]].
    exists st', new. split; [exact E|]. split; [assumption|].
    intros g. rewrite Hnew. split; [tauto|]. intros Hc. split; [assumption|].
    destruct Hc as [_ [_ [Hlater _]]]. apply (Hlater pos). lia.
Qed.

End Search.

(** ** The recorded grids are the accepted grids *)

Lemma initialState_inv : solverInv 0 initialState.
Proof.
  unfold solverInv, masksRecord, initialState. cbn [colMask boxMask solution].
  split; [reflexivity|]. split; [reflexivity|]. split; [reflexivity|]. split.
  - intros r Hr. do 9 (destruct r as [|r]; [reflexivity|]). lia.
  - split.
    + intros c x Hc Hx. rewrite nth_repeat, Z.bits_0. split; [discriminate|].
      intros [q [Hq _]]. lia.
    + intros b x Hb Hx. rewrite nth_repeat, Z.bits_0. split; [discriminate|].
      intros [q [c [Hq _]]]. lia.
Qed.

Lemma hasZeroInFirstColumns_spec g :
  hasZeroInFirstColumns g = true <-> zeroInFirstColumns g.
Proof.
  unfold hasZeroInFirstColumns, zeroInFirstColumns. rewrite existsb_exists. split.
  - intros [c [Hc H]]. apply existsb_exists in H. destruct H as [r [Hr H]].
    apply in_seq in Hc. apply in_seq in Hr. apply Z.eqb_eq in H.
    exists r, c. repeat split; (lia || assumption).
  - intros [r [c [Hr [Hc H]]]]. exists c. split; [apply in_seq; lia|].
    apply existsb_exists. exists r. split; [apply in_seq; lia|now apply Z.eqb_eq].
Qed.

Lemma boxCells_spec b r c :
  (b < 9)%nat ->
  (In (r, c) (boxCells b) <-> (r < 9)%nat /\ (c < 9)%nat /\ getBoxIndex r c = b).
Proof.
  intros Hb. unfold boxCells. rewrite in_prod_iff, !in_seq.
  do 9 (destruct b as [|b];
        [ split;
          [ intros [H1 H2]; cbn in H1, H2;
            do 9 (destruct r as [|r]; [do 9 (destruct c as [|c]; [cbv; lia|]); lia|]); lia
          | intros [H1 [H2 H3]];
            do 9 (destruct r as [|r];
                  [do 9 (destruct c as [|c]; [cbv in H3; cbn; lia|]); lia|]); lia ]
        | ]).
  lia.
Qed.

Lemma NoDup_map_injective {A B : Type} (f : A -> B) (l : list A) :
  NoDup (map f l) -> forall x y, In x l -> In y l -> f x = f y -> x = y.
Proof.
  induction l as [|a l IH]; simpl; intros Hnd x y Hx Hy E; [contradiction|].
  inversion Hnd as [|? ? Hna Hnd']; subst.
  destruct Hx as [<-|Hx], Hy as [<-|Hy]; try reflexivity.
  - exfalso. apply Hna. rewrite E. now apply in_map.
  - exfalso. apply Hna. rewrite <- E. now apply in_map.
  - now apply IH.
Qed.

Lemma NoDup_map_of_injective {A B : Type} (f : A -> B) (l : list A) :
  NoDup l -> (forall x y, In x l -> In y l -> f x = f y -> x = y) -> NoDup (map f l).
Proof.
  induction 1 as [|a l Ha Hnd IH]; simpl; intros Hinj; [constructor|].
  constructor.
  - intros Hin. apply in_map_iff in Hin. destruct Hin as [x [E Hx]].
    assert (x = a) by (apply Hinj; auto). subst. contradiction.
  - apply IH. intros x y Hx Hy. apply Hinj; now right.
Qed.

Lemma boxCells_NoDup b : NoDup (boxCells b).
Proof.
  unfold boxCells. generalize (seq_NoDup 3 (3 * (b / 3))) (seq_NoDup 3 (3 * (b mod 3))).
  generalize (seq (3 * (b / 3)) 3) (seq (3 * (b mod 3)) 3). intros l1 l2 H1 H2.
  induction H1 as [|x l1 Hx H1 IH]; simpl; [constructor|].
  apply NoDup_app.
  - apply NoDup_map_of_injective; [assumption|]. intros a a' _ _ E. now inversion E.
  - assumption.
  - intros [u v] Hin Hin'. apply in_map_iff in Hin. destruct Hin as [w [E _]].
    inversion E; subst. apply in_prod_iff in Hin'. tauto.
Qed.


Lemma clash_sym row1 row2 r1 r2 :
  clash row1 row2 r1 r2 -> clash row2 row1 r2 r1.
Proof.
  intros [c [Hc [E|[c' [Hc' [Eb E]]]]]].
  - exists c. split; [assumption|]. left. now symmetry.
  - exists c'. split; [assumption|]. right. exists c. repeat split; (assumption || now symmetry).
Qed.

Lemma column_NoDup_iff g c :
  NoDup (column g c)
  <-> forall r1 r2, (r1 < 9)%nat -> (r2 < 9)%nat -> cell g r1 c = cell g r2 c -> r1 = r2.
Proof.
  unfold column. split.
  - intros H r1 r2 H1 H2 E.
    apply (NoDup_map_injective (fun r => cell g r c) (seq 0 9) H); try (apply in_seq; lia).
    exact E.
  - intros H. apply NoDup_map_of_injective; [apply seq_NoDup|].
    intros x y Hx Hy. apply in_seq in Hx, Hy. apply H; lia.
Qed.

Lemma box_NoDup_iff g b :
  (b < 9)%nat ->
  (NoDup (box g b)
   <-> forall r1 c1 r2 c2,
         (r1 < 9)%nat -> (c1 < 9)%nat -> (r2 < 9)%nat -> (c2 < 9)%nat ->
         getBoxIndex r1 c1 = b -> getBoxIndex r2 c2 = b ->
         cell g r1 c1 = cell g r2 c2 -> r1 = r2 /\ c1 = c2).
Proof.
  intros Hb. unfold box. split.
  - intros H r1 c1 r2 c2 H1 H2 H3 H4 E1 E2 E.
    assert (Heq : (r1, c1) = (r2, c2)).
    { apply (NoDup_map_injective _ _ H); try (apply boxCells_spec; tauto). exact E. }
    now inversion Heq.
  - intros H. apply NoDup_map_of_injective; [apply boxCells_NoDup|].
    intros [r1 c1] [r2 c2] Hx Hy E. simpl in E.
    apply boxCells_spec in Hx, Hy; try assumption.
    destruct (H r1 c1 r2 c2) as [-> ->]; tauto.
Qed.

(** From the empty state the search records exactly the accepted grids:
    rows that do not clash pairwise, each without a repeated digit, are
    columns and boxes without a repeated digit. *)
Lemma completes_accepted candidates g :
  validCandidates candidates ->
  completes candidates 0 (solution initialState) g <-> acceptedGrid candidates g.
Proof.
  intros Hwf. unfold completes, acceptedGrid. split.
  - intros [Hl [_ [Hrows Hz]]].
    assert (Hin : forall r, (r < 9)%nat -> In (nth r g []) (nth r candidates [])).
    { intros r Hr. destruct (rowOrder_position r Hr) as [p [Hp <-]].
      apply (Hrows p). fold (rowAt p). lia. }
    assert (Hno : forall r1 r2, (r1 < 9)%nat -> (r2 < 9)%nat -> r1 <> r2 ->
                    ~ clash (nth r1 g []) (nth r2 g []) r1 r2).
    { intros r1 r2 H1 H2 Hne.
      destruct (rowOrder_position r1 H1) as [p1 [Hp1 E1]].
      destruct (rowOrder_position r2 H2) as [p2 [Hp2 E2]].
      fold (rowAt p1) in E1. fold (rowAt p2) in E2. subst r1 r2.
      destruct (Nat.lt_trichotomy p1 p2) as [Hlt|[->|Hgt]]; [|congruence|].
      - apply (Hrows p2); lia.
      - intros Hc. apply clash_sym in Hc. revert Hc. apply (Hrows p1); lia. }
    split; [assumption|]. split; [assumption|]. split; [|split].
    + intros c Hc. apply column_NoDup_iff. intros r1 r2 H1 H2 E.
      destruct (Nat.eq_dec r1 r2) as [|Hne]; [assumption|]. exfalso.
      apply (Hno r1 r2 H1 H2 Hne). exists c. split; [assumption|]. now left.
    + intros b Hb. apply box_NoDup_iff; [assumption|].
      intros r1 c1 r2 c2 H1 H2 H3 H4 E1 E2 E.
      destruct (Nat.eq_dec r1 r2) as [->|Hne].
      * split; [reflexivity|].
        destruct (Hwf r2 _ H3 (Hin r2 H3)) as [Hlen [Hnd _]].
        unfold cell in E. rewrite NoDup_nth in Hnd. apply Hnd; try lia. exact E.
      * exfalso. apply (Hno r1 r2 H1 H3 Hne). exists c2. split; [assumption|].
        right. exists c1. split; [assumption|]. split; [congruence|exact E].
    + now apply hasZeroInFirstColumns_spec.
  - intros [Hl [Hin [Hcol [Hbox Hz]]]].
    split; [assumption|]. split; [intros q Hq; lia|]. split.
    + intros p Hp. split; [apply Hin; apply rowAt_lt; lia|].
      intros q Hq [c [Hc [E|[c' [Hc' [Eb E]]]]]].
      * assert (rowAt q = rowAt p).
        { apply (proj1 (column_NoDup_iff g c) (Hcol c Hc)); try (apply rowAt_lt; lia).
          exact E. }
        apply rowAt_inj in H; lia.
      * assert (Hb : (getBoxIndex (rowAt p) c < 9)%nat)
          by (apply getBoxIndex_lt; [apply rowAt_lt; lia|assumption]).
        destruct (proj1 (box_NoDup_iff g _ Hb) (Hbox _ Hb)
                    (rowAt q) c' (rowAt p) c) as [Er _];
          try (apply rowAt_lt; lia); try assumption; try reflexivity.
        apply rowAt_inj in Er; lia.
    + now apply hasZeroInFirstColumns_spec.
Qed.

(** The solver on valid candidate lists. *)
Lemma solveFixed_accepts candidates :
  validCandidates candidates ->
  exists st,
    solveFixed 10 candidates 0 initialState = Some st
    /\ forall g, In g (allSolutions st) <-> acceptedGrid candidates g.
Proof.
  intros Hwf.
  destruct (solveFixed_spec candidates Hwf 10 0 initialState) as [st [new [E [Hret Hnew]]]];
    try lia; [apply initialState_inv|].
  exists st. split; [assumption|].
  destruct Hret as [_ [_ [_ [_ [_ Hall]]]]]. rewrite Hall. simpl.
  intros g. rewrite Hnew. now apply completes_accepted.
Qed.

(** ** [next_permutation] walks through all permutations *)

Lemma ltb_charLt a b : Ascii.ltb a b = true <-> charLt a b.
Proof.
  unfold Ascii.ltb, Ascii.compare, charLt.
  destruct (N.compare_spec (N_of_ascii a) (N_of_ascii b)) as [E|L|G];
    split; intros H; try discriminate; try reflexivity; try assumption; lia.
Qed.

Lemma ltb_false_charLt a b : charLt b a -> Ascii.ltb a b = false.
Proof.
  intros H. destruct (Ascii.ltb a b) eqn:E; [|reflexivity].
  apply ltb_charLt in E. unfold charLt in *. lia.
Qed.

Lemma sorted_app {A : Type} (R : A -> A -> Prop) (l1 l2 : list A) :
  StronglySorted R (l1 ++ l2)
  <-> StronglySorted R l1 /\ StronglySorted R l2
      /\ forall x y, In x l1 -> In y l2 -> R x y.
Proof.
  induction l1 as [|a l1 IH]; simpl.
  - split; [intros H; repeat split; [constructor|assumption|intros x y []]|tauto].
  - split.
    + intros H. inversion H as [|? ? Hs Ha]; subst. apply IH in Hs.
      destruct Hs as [H1 [H2 H3]]. rewrite Forall_forall in Ha.
      split; [constructor; [assumption|]|split; [assumption|]].
      * apply Forall_forall. intros x Hx. apply Ha. apply in_or_app. now left.
      * intros x y [<-|Hx] Hy; [apply Ha; apply in_or_app; now right|now apply H3].
    + intros [H1 [H2 H3]]. inversion H1 as [|? ? Hs Ha]; subst.
      rewrite Forall_forall in Ha. constructor.
      * apply IH. split; [assumption|]. split; [assumption|].
        intros x y Hx Hy. apply H3; [now right|assumption].
      * apply Forall_forall. intros x Hx. apply in_app_or in Hx.
        destruct Hx as [Hx|Hx]; [now apply Ha|]. apply H3; [now left|assumption].
Qed.

Lemma sorted_rev {A : Type} (R : A -> A -> Prop) (l : list A) :
  StronglySorted R l -> StronglySorted (fun a b => R b a) (rev l).
Proof.
  induction 1 as [|a l Hs IH Ha]; simpl; [constructor|].
  apply sorted_app. split; [assumption|]. split; [repeat constructor|].
  rewrite Forall_forall in Ha.
  intros x y Hx [<-|[]]. apply Ha. now apply in_rev.
Qed.

Lemma descending_no_next l : descending l -> next_permutation l = None.
Proof.
  induction 1 as [|x t Hs IH Hx]; [reflexivity|].
  simpl. rewrite IH. destruct t as [|y t]; [reflexivity|].
  inversion Hx as [|? ? Hy _]; subst. now rewrite ltb_false_charLt.
Qed.

Lemma swap_none x t :
  (forall y, In y t -> Ascii.ltb x y = false) -> swapWithLastGreater x t = None.
Proof.
  induction t as [|y t IH]; intros H; [reflexivity|].
  simpl. rewrite IH by (intros z Hz; apply H; now right).
  now rewrite (H y (or_introl eq_refl)).
Qed.

(** The pivot [a] changes place with the last element greater than it. *)
Lemma swap_at a hi b lo :
  charLt a b -> (forall y, In y lo -> charLt y a) ->
  swapWithLastGreater a (hi ++ b :: lo) = Some (b, hi ++ a :: lo).
Proof.
  intros Hab Hlo. induction hi as [|h hi IH]; simpl.
  - rewrite swap_none by (intros y Hy; apply ltb_false_charLt; now apply Hlo).
    now rewrite (proj2 (ltb_charLt a b) Hab).
  - now rewrite IH.
Qed.

Lemma next_at_head a hi b lo :
  descending (hi ++ b :: lo) ->
  (forall h, In h hi -> charLt a h) -> charLt a b -> (forall y, In y lo -> charLt y a) ->
  next_permutation (a :: hi ++ b :: lo) = Some (b :: rev (hi ++ a :: lo)).
Proof.
  intros Hd Hhi Hab Hlo.
  cbn [next_permutation]. rewrite (descending_no_next _ Hd).
  rewrite swap_at by assumption.
  destruct hi as [|h hi]; simpl.
  - now rewrite (proj2 (ltb_charLt a b) Hab).
  - now rewrite (proj2 (ltb_charLt a h) (Hhi h (or_introl eq_refl))).
Qed.

Lemma next_under_prefix p t t' :
  next_permutation t = Some t' -> next_permutation (p ++ t) = Some (p ++ t').
Proof.
  intros H. induction p as [|x p IH]; simpl; [assumption|]. now rewrite IH.
Qed.

Lemma iterNext_under_prefix p k : forall t t',
  iterNext k t = Some t' -> iterNext k (p ++ t) = Some (p ++ t').
Proof.
  induction k as [|k IH]; intros t t' H; simpl in *.
  - inversion H; now subst.
  - destruct (next_permutation t) as [t1|] eqn:E; [|discriminate].
    rewrite (next_under_prefix p t t1 E). now apply IH.
Qed.

Lemma iterNext_add j k : forall l l1 l2,
  iterNext j l = Some l1 -> iterNext k l1 = Some l2 -> iterNext (j + k) l = Some l2.
Proof.
  induction j as [|j IH]; intros l l1 l2 H1 H2; simpl in *.
  - inversion H1; now subst.
  - destruct (next_permutation l) as [l'|]; [|discriminate]. now apply (IH l' l1).
Qed.

Lemma fact_pos n : (1 <= fact n)%nat.
Proof. pose proof (fact_neq_0 n). lia. Qed.

Lemma ascending_without l1 a l2 :
  ascending (l1 ++ a :: l2) -> ascending (l1 ++ l2).
Proof.
  intros H. apply sorted_app in H. destruct H as [A1 [A2 A3]].
  inversion A2; subst. apply sorted_app. split; [assumption|]. split; [assumption|].
  intros x y Hx Hy. apply A3; [assumption|now right].
Qed.

(** The last string that begins with [a'] is followed by the first string
    that begins with the next greater character [a]. *)
Lemma block_step l1 a' a l2 :
  ascending (l1 ++ a' :: a :: l2) ->
  next_permutation (a' :: rev (l1 ++ a :: l2)) = Some (a :: (l1 ++ [a']) ++ l2).
Proof.
  intros Hasc.
  pose proof (ascending_without l1 a' (a :: l2) Hasc) as Hrest.
  apply sorted_app in Hasc. destruct Hasc as [A1 [A2 A3]].
  inversion A2 as [|? ? A4 A5]; subst. rewrite Forall_forall in A5.
  rewrite rev_app_distr. simpl rev. rewrite <- app_assoc. simpl app.
  rewrite next_at_head.
  - rewrite rev_app_distr. simpl rev. rewrite !rev_involutive.
    rewrite <- !app_assoc. reflexivity.
  - replace (rev l2 ++ a :: rev l1) with (rev (l1 ++ a :: l2))
      by (rewrite rev_app_distr; simpl; now rewrite <- app_assoc).
    apply (sorted_rev charLt). assumption.
  - intros h Hh. apply in_rev in Hh. apply A5. now right.
  - apply A5. now left.
  - intros y Hy. apply in_rev in Hy. apply A3; [assumption|now left].
Qed.

(** The strings that begin with [a] end with the rest in descending order,
    provided shorter strings are walked through to their reverse. *)
Lemma block_end n :
  (forall s, ascending s -> length s = n -> iterNext (fact n - 1) s = Some (rev s)) ->
  forall l1 a l2,
    ascending (l1 ++ a :: l2) -> length (l1 ++ a :: l2) = S n ->
    iterNext ((length l1 + 1) * fact n - 1) (l1 ++ a :: l2) = Some (a :: rev (l1 ++ l2)).
Proof.
  intros IHn. induction l1 as [|a' l1 IHl] using rev_ind; intros a l2 Hasc Hlen.
  - simpl app in *. simpl length. rewrite Nat.mul_1_l.
    apply (iterNext_under_prefix [a]). apply IHn.
    + now inversion Hasc.
    + simpl in Hlen. lia.
  - rewrite <- app_assoc in Hasc, Hlen |- *. simpl app in Hasc, Hlen |- *.
    pose proof (IHl a' (a :: l2) Hasc Hlen) as H1.
    pose proof (block_step l1 a' a l2 Hasc) as H2.
    assert (H3 : iterNext (fact n - 1) (a :: (l1 ++ [a']) ++ l2)
                 = Some (a :: rev ((l1 ++ [a']) ++ l2))).
    { apply (iterNext_under_prefix [a]). apply IHn.
      - apply (ascending_without (l1 ++ [a']) a l2).
        rewrite <- app_assoc. exact Hasc.
      - rewrite !length_app. rewrite length_app in Hlen.
        simpl in Hlen |- *. lia. }
    rewrite length_app. simpl length.
    replace ((length l1 + 1 + 1) * fact n - 1)%nat
      with (((length l1 + 1) * fact n - 1) + (1 + (fact n - 1)))%nat
      by (pose proof (fact_pos n); nia).
    apply (iterNext_add _ _ _ _ _ H1).
    change (1 + (fact n - 1))%nat with (S (fact n - 1)).
    cbn [iterNext]. rewrite H2. exact H3.
Qed.

(** From an ascending string, [n! - 1] calls succeed and lead to the
    descending one. *)
Lemma iterNext_reverses : forall n s,
  ascending s -> length s = n -> iterNext (fact n - 1) s = Some (rev s).
Proof.
  induction n as [|n IHn]; intros s Hs Hlen.
  - destruct s; [reflexivity|discriminate].
  - destruct (exists_last (l := s)) as [l1 [a Es]]; [intros ->; discriminate|].
    subst s. pose proof (block_end n IHn l1 a [] Hs Hlen) as H.
    rewrite app_nil_r in H.
    assert (Hl : length l1 = n) by (rewrite length_app in Hlen; simpl in Hlen; lia).
    rewrite Hl in H.
    replace (fact (S n) - 1)%nat with ((n + 1) * fact n - 1)%nat by (simpl; lia).
    rewrite H, rev_app_distr. reflexivity.
Qed.

(** The first string that begins with [a] comes after the strings that
    begin with a smaller character. *)
Lemma block_start n l1 a l2 :
  ascending (l1 ++ a :: l2) -> length (l1 ++ a :: l2) = S n ->
  iterNext (length l1 * fact n) (l1 ++ a :: l2) = Some (a :: l1 ++ l2).
Proof.
  revert a l2. induction l1 as [|a' l0 _] using rev_ind; intros a l2 Hasc Hlen.
  - reflexivity.
  - rewrite <- app_assoc in Hasc, Hlen |- *. simpl app in Hasc, Hlen |- *.
    pose proof (block_end n (iterNext_reverses n) l0 a' (a :: l2) Hasc Hlen) as H1.
    pose proof (block_step l0 a' a l2 Hasc) as H2.
    rewrite length_app. simpl length.
    replace ((length l0 + 1) * fact n)%nat
      with (((length l0 + 1) * fact n - 1) + 1)%nat by (pose proof (fact_pos n); nia).
    apply (iterNext_add _ _ _ _ _ H1). cbn [iterNext]. rewrite H2.
    now rewrite <- app_assoc.
Qed.

(** Every permutation of an ascending string is reached. *)
Lemma iterNext_reaches : forall n s v,
  ascending s -> length s = n -> Permutation s v ->
  exists k, (k <= fact n - 1)%nat /\ iterNext k s = Some v.
Proof.
  induction n as [|n IHn]; intros s v Hasc Hlen Hperm.
  - destruct s; [|discriminate]. apply Permutation_nil in Hperm. subst v.
    exists 0%nat. split; [lia|reflexivity].
  - destruct v as [|a v'].
    { apply Permutation_sym, Permutation_nil in Hperm. subst s. discriminate. }
    assert (Hin : In a s) by (apply (Permutation_in _ (Permutation_sym Hperm)); now left).
    apply in_split in Hin. destruct Hin as [l1 [l2 Es]]. subst s.
    assert (Hperm' : Permutation (l1 ++ l2) v').
    { apply Permutation_cons_inv with a.
      apply perm_trans with (l1 ++ a :: l2); [apply Permutation_middle|assumption]. }
    assert (Hlen' : length (l1 ++ l2) = n).
    { rewrite length_app in Hlen |- *. simpl in Hlen. lia. }
    destruct (IHn (l1 ++ l2) v' (ascending_without _ _ _ Hasc) Hlen' Hperm')
      as [k' [Hk' Hit']].
    exists (length l1 * fact n + k')%nat. split.
    + assert (length l1 <= n)%nat by (rewrite length_app in Hlen'; lia).
      pose proof (fact_pos n). simpl fact. nia.
    + apply (iterNext_add _ _ _ _ _ (block_start n l1 a l2 Hasc Hlen)).
      now apply (iterNext_under_prefix [a]).
Qed.

Lemma iterNext_visited k : forall K l v,
  iterNext k l = Some v -> (k <= K)%nat -> In v (visited K l).
Proof.
  induction k as [|k IH]; intros K l v H Hk; simpl in H.
  - inversion H; subst. destruct K; now left.
  - destruct (next_permutation l) as [l'|] eqn:E; [|discriminate].
    destruct K as [|K]; [lia|]. cbn [visited]. rewrite E. right.
    apply (IH K l' v H). lia.
Qed.

(** ** The loop of a worker *)

Lemma swap_permutation x t : forall z t'',
  swapWithLastGreater x t = Some (z, t'') -> Permutation (x :: t) (z :: t'').
Proof.
  induction t as [|y t IH]; intros z t'' H; simpl in H; [discriminate|].
  destruct (swapWithLastGreater x t) as [[z' t1]|] eqn:E.
  - inversion H; subst. specialize (IH _ _ eq_refl).
    apply perm_trans with (y :: x :: t); [apply perm_swap|].
    apply perm_trans with (y :: z :: t1); [now apply perm_skip|apply perm_swap].
  - destruct (Ascii.ltb x y); [|discriminate]. inversion H; subst. apply perm_swap.
Qed.

Lemma next_permutation_permutation l : forall l',
  next_permutation l = Some l' -> Permutation l l'.
Proof.
  induction l as [|x t IH]; intros l' H; simpl in H; [discriminate|].
  destruct (next_permutation t) as [t'|].
  - inversion H; subst. apply perm_skip. now apply IH.
  - destruct t as [|y t0]; [discriminate|].
    destruct (Ascii.ltb x y); [|discriminate].
    destruct (swapWithLastGreater x (y :: t0)) as [[z t'']|] eqn:E; [|discriminate].
    inversion H; subst. apply swap_permutation in E.
    apply perm_trans with (z :: t''); [assumption|].
    apply perm_skip. apply Permutation_rev.
Qed.

Lemma visited_permutations k : forall l, Forall (Permutation l) (visited k l).
Proof.
  induction k as [|k IH]; intros l; simpl.
  - constructor; [apply Permutation_refl|constructor].
  - constructor; [apply Permutation_refl|].
    destruct (next_permutation l) as [l'|] eqn:E; [|constructor].
    apply next_permutation_permutation in E.
    eapply Forall_impl; [|apply IH]. intros v Hv. now apply perm_trans with l'.
Qed.

Lemma visited_length k : forall l l',
  iterNext k l = Some l' -> length (visited k l) = S k.
Proof.
  induction k as [|k IH]; intros l l' H; simpl in *; [reflexivity|].
  destruct (next_permutation l) as [l1|]; [|discriminate].
  f_equal. now apply (IH l1 l').
Qed.

(** With fuel for the calls that succeed, the loop visits the strings of
    [visited] and keeps those that pass the test. *)
Lemma permutationLoop_visits required k : forall l l' fuel acc count,
  iterNext k l = Some l' -> next_permutation l' = None -> (k < fuel)%nat ->
  permutationLoop fuel required l acc count
  = Some (acc ++ filter (fun v => containsRequiredDigits v required) (visited k l),
          count + Z.of_nat (S k)).
Proof.
  induction k as [|k IH]; intros l l' fuel acc count Hit Hlast Hfuel;
    (destruct fuel as [|fuel]; [lia|]); simpl in Hit.
  - inversion Hit; subst l'. cbn [permutationLoop visited filter]. rewrite Hlast.
    destruct (containsRequiredDigits l required); [reflexivity|].
    now rewrite app_nil_r.
  - destruct (next_permutation l) as [l1|] eqn:E; [|discriminate].
    cbn [permutationLoop visited filter]. rewrite E.
    rewrite (IH l1 l' fuel _ _ Hit Hlast) by lia.
    f_equal. f_equal; [|lia].
    destruct (containsRequiredDigits l required); [now rewrite <- app_assoc|reflexivity].
Qed.

Lemma permutationLoopUnfiltered_visits k : forall l l' fuel acc count,
  iterNext k l = Some l' -> next_permutation l' = None -> (k < fuel)%nat ->
  permutationLoopUnfiltered fuel l acc count
  = Some (acc ++ visited k l, count + Z.of_nat (S k)).
Proof.
  induction k as [|k IH]; intros l l' fuel acc count Hit Hlast Hfuel;
    (destruct fuel as [|fuel]; [lia|]); simpl in Hit.
  - inversion Hit; subst l'. cbn [permutationLoopUnfiltered visited]. now rewrite Hlast.
  - destruct (next_permutation l) as [l1|] eqn:E; [|discriminate].
    cbn [permutationLoopUnfiltered visited]. rewrite E.
    rewrite (IH l1 l' fuel _ _ Hit Hlast) by lia.
    f_equal. f_equal; [now rewrite <- app_assoc|lia].
Qed.

(** ** The digits of a string *)

Lemma digit_of_inj a b : digit_of a = digit_of b -> a = b.
Proof.
  unfold digit_of. intros H.
  rewrite <- (ascii_N_embedding a), <- (ascii_N_embedding b). f_equal. lia.
Qed.

Lemma digitChars_isDigit c : In c digitChars -> isDigit c.
Proof.
  unfold digitChars, isDigit.
  intros H. repeat (destruct H as [<-|H]; [cbv; split; discriminate|]). contradiction.
Qed.

Lemma digitMaskOf_fold number : forall m x,
  (forall c, In c number -> 0 <= digit_of c) ->
  Z.testbit (fold_left (fun digitMask c => Z.lor digitMask (bit (digit_of c))) number m) x
  = Z.testbit m x || existsb (fun c => digit_of c =? x) number.
Proof.
  induction number as [|c number IH]; intros m x H; simpl.
  - now rewrite orb_false_r.
  - rewrite IH by (intros c' Hc'; apply H; now right).
    rewrite testbit_lor_bit by (apply H; now left). now rewrite orb_assoc.
Qed.

Lemma allRequiredIn_true m required :
  (forall d, In d required -> 0 <= digit_of d /\ Z.testbit m (digit_of d) = true) ->
  allRequiredIn m required = true.
Proof.
  induction required as [|d required IH]; intros H; simpl; [reflexivity|].
  destruct (H d (or_introl eq_refl)) as [Hd Hb].
  pose proof (land_bit_test m (digit_of d) Hd) as Ht. rewrite Hb in Ht.
  apply negb_true_iff in Ht. rewrite Ht. apply IH. intros d' Hd'. apply H. now right.
Qed.

(** A string of digits that has every required digit passes the test. *)
Lemma containsRequiredDigits_true number required :
  Forall isDigit number -> (forall d, In d required -> isDigit d /\ In d number) ->
  containsRequiredDigits number required = true.
Proof.
  intros Hnum Hreq. unfold containsRequiredDigits. apply allRequiredIn_true.
  intros d Hd. destruct (Hreq d Hd) as [Hdig Hin]. split; [apply Hdig|].
  unfold digitMaskOf. rewrite digitMaskOf_fold.
  - rewrite Z.bits_0. cbn [orb]. apply existsb_exists. exists d.
    split; [assumption|apply Z.eqb_refl].
  - intros c Hc. rewrite Forall_forall in Hnum. apply (Hnum c Hc).
Qed.

(** ** The sub-alphabets *)

Lemma leb_le a b : Ascii.leb a b = true <-> (N_of_ascii a <= N_of_ascii b)%N.
Proof.
  unfold Ascii.leb, Ascii.compare.
  destruct (N.compare_spec (N_of_ascii a) (N_of_ascii b)) as [E|L|G];
    split; intros H; try discriminate; try reflexivity; lia.
Qed.

Lemma insertSorted_permutation c l : Permutation (insertSorted c l) (c :: l).
Proof.
  induction l as [|x l IH]; simpl; [apply Permutation_refl|].
  destruct (Ascii.leb c x); [apply Permutation_refl|].
  apply perm_trans with (x :: c :: l); [now apply perm_skip|apply perm_swap].
Qed.

Lemma sortChars_permutation l : Permutation (sortChars l) l.
Proof.
  induction l as [|c l IH]; simpl; [constructor|].
  apply perm_trans with (c :: sortChars l); [apply insertSorted_permutation|].
  now apply perm_skip.
Qed.

Lemma digitsWithout_In skipDigit d :
  In d (digitsWithout skipDigit) <-> In d digitChars /\ d <> skipDigit.
Proof.
  unfold digitsWithout. split.
  - intros H. apply (Permutation_in _ (sortChars_permutation _)) in H.
    apply filter_In in H. destruct H as [H E]. split; [assumption|].
    apply negb_true_iff in E. now apply Ascii.eqb_neq.
  - intros [H E]. apply (Permutation_in _ (Permutation_sym (sortChars_permutation _))).
    apply filter_In. split; [assumption|]. apply negb_true_iff. now apply Ascii.eqb_neq.
Qed.

Lemma ascending_NoDup l : ascending l -> NoDup l.
Proof.
  induction 1 as [|a l Hs IH Ha]; constructor; [|assumption].
  rewrite Forall_forall in Ha. intros Hin. specialize (Ha a Hin).
  unfold charLt in Ha. lia.
Qed.

Lemma digitsWithout_sorted skipDigit :
  In skipDigit digitChars ->
  ascending (digitsWithout skipDigit) /\ length (digitsWithout skipDigit) = 9%nat.
Proof.
  unfold digitChars. intros H.
  repeat (destruct H as [<-|H]; [split; [unfold ascending; repeat constructor|reflexivity]|]).
  contradiction.
Qed.

Lemma digitsWithout_digits skipDigit : Forall isDigit (digitsWithout skipDigit).
Proof.
  apply Forall_forall. intros d Hd. apply digitsWithout_In in Hd.
  apply digitChars_isDigit. tauto.
Qed.

(** ** The shards *)

Lemma filter_all {A : Type} (f : A -> bool) (l : list A) :
  Forall (fun x => f x = true) l -> filter f l = l.
Proof.
  induction 1 as [|x l Hx Hl IH]; simpl; [reflexivity|]. now rewrite Hx, IH.
Qed.

Lemma shardOf_run skipDigit :
  In skipDigit digitChars ->
  iterNext (fact 9 - 1) (digitsWithout skipDigit) = Some (rev (digitsWithout skipDigit))
  /\ next_permutation (rev (digitsWithout skipDigit)) = None.
Proof.
  intros H. destruct (digitsWithout_sorted _ H) as [Hasc Hlen]. split.
  - now apply iterNext_reverses.
  - apply descending_no_next. now apply (sorted_rev charLt).
Qed.

Lemma shardOf_length skipDigit :
  In skipDigit digitChars -> length (shardOf skipDigit) = fact 9.
Proof.
  intros H. destruct (shardOf_run _ H) as [Hit _]. unfold shardOf.
  rewrite (visited_length _ _ _ Hit). pose proof (fact_pos 9). lia.
Qed.

Lemma shardOf_permutations skipDigit :
  Forall (Permutation (digitsWithout skipDigit)) (shardOf skipDigit).
Proof. apply visited_permutations. Qed.

(** Every string of a shard is made of nine distinct digits, all but the
    excluded one. *)
Lemma shardOf_valid skipDigit v :
  In skipDigit digitChars -> In v (shardOf skipDigit) ->
  validString v /\ forall d, In d v <-> In d digitChars /\ d <> skipDigit.
Proof.
  intros Hs Hv. pose proof (shardOf_permutations skipDigit) as Hp.
  rewrite Forall_forall in Hp. specialize (Hp v Hv).
  destruct (digitsWithout_sorted _ Hs) as [Hasc Hlen]. split; [split; [|split]|].
  - now rewrite <- (Permutation_length Hp).
  - apply (Permutation_NoDup Hp). now apply ascending_NoDup.
  - apply (Permutation_Forall Hp). apply digitsWithout_digits.
  - intros d. rewrite <- digitsWithout_In. split; apply Permutation_in;
      [now apply Permutation_sym|assumption].
Qed.

Lemma shardOf_passes required skipDigit :
  (forall d, In d required -> In d digitChars) ->
  In skipDigit digitChars -> ~ In skipDigit required ->
  Forall (fun v => containsRequiredDigits v required = true) (shardOf skipDigit).
Proof.
  intros Hreq Hs Hnot. apply Forall_forall. intros v Hv.
  destruct (shardOf_valid _ _ Hs Hv) as [[_ [_ Hdig]] Hin].
  apply containsRequiredDigits_true; [assumption|].
  intros d Hd. split; [apply digitChars_isDigit; now apply Hreq|].
  apply Hin. split; [now apply Hreq|]. intros ->. contradiction.
Qed.

Lemma worker_spec required skipDigit :
  In skipDigit digitChars ->
  worker required skipDigit
  = Some (filter (fun v => containsRequiredDigits v required) (shardOf skipDigit),
          Z.of_nat (fact 9)).
Proof.
  intros Hs. destruct (shardOf_run _ Hs) as [Hit Hlast].
  destruct (digitsWithout_sorted _ Hs) as [_ Hlen].
  unfold worker. cbv zeta. rewrite Hlen.
  rewrite (permutationLoop_visits required _ _ _ _ [] 0 Hit Hlast)
    by (pose proof (fact_pos 9); lia).
  replace (S (fact 9 - 1)) with (fact 9) by (pose proof (fact_pos 9); lia).
  reflexivity.
Qed.

Lemma workerUnfiltered_spec skipDigit :
  In skipDigit digitChars ->
  workerUnfiltered skipDigit = Some (shardOf skipDigit, Z.of_nat (fact 9)).
Proof.
  intros Hs. destruct (shardOf_run _ Hs) as [Hit Hlast].
  destruct (digitsWithout_sorted _ Hs) as [_ Hlen].
  unfold workerUnfiltered. cbv zeta. rewrite Hlen.
  rewrite (permutationLoopUnfiltered_visits _ _ _ _ [] 0 Hit Hlast)
    by (pose proof (fact_pos 9); lia).
  replace (S (fact 9 - 1)) with (fact 9) by (pose proof (fact_pos 9); lia).
  reflexivity.
Qed.

(** ** The generator *)

Lemma generateFrom_spec required :
  (forall d, In d required -> In d digitChars) ->
  forall skipDigits validNumbers,
    incl skipDigits digitChars ->
    generateFrom required skipDigits validNumbers
    = Some (validNumbers
            ++ flat_map shardOf
                 (filter (fun s => negb (existsb (Ascii.eqb s) required)) skipDigits)).
Proof.
  intros Hreq. induction skipDigits as [|s rest IH]; intros acc Hincl.
  - cbn [generateFrom filter flat_map]. now rewrite app_nil_r.
  - cbn [generateFrom filter].
    assert (Hs : In s digitChars) by (apply Hincl; now left).
    assert (Hrest : incl rest digitChars) by (intros x Hx; apply Hincl; now right).
    destruct (existsb (Ascii.eqb s) required) eqn:E; cbn [negb].
    + now apply IH.
    + rewrite (worker_spec required s Hs).
      rewrite filter_all.
      * rewrite IH by assumption. cbn [flat_map]. now rewrite <- app_assoc.
      * apply shardOf_passes; try assumption.
        intros Hin. apply existsb_eqb_In in Hin. congruence.
Qed.

Lemma generateUnfilteredFrom_spec required :
  forall skipDigits validNumbers,
    incl skipDigits digitChars ->
    generateUnfilteredFrom required skipDigits validNumbers
    = Some (validNumbers
            ++ flat_map shardOf
                 (filter (fun s => negb (existsb (Ascii.eqb s) required)) skipDigits)).
Proof.
  induction skipDigits as [|s rest IH]; intros acc Hincl.
  - cbn [generateUnfilteredFrom filter flat_map]. now rewrite app_nil_r.
  - cbn [generateUnfilteredFrom filter].
    assert (Hs : In s digitChars) by (apply Hincl; now left).
    assert (Hrest : incl rest digitChars) by (intros x Hx; apply Hincl; now right).
    destruct (existsb (Ascii.eqb s) required) eqn:E; cbn [negb].
    + now apply IH.
    + rewrite (workerUnfiltered_spec s Hs).
      rewrite IH by assumption. cbn [flat_map]. now rewrite <- app_assoc.
Qed.

Lemma generate_spec required :
  (forall d, In d required -> In d digitChars) ->
  generate required = Some (flat_map shardOf (allowedSkips required)).
Proof.
  intros Hreq. unfold generate. rewrite generateFrom_spec; [reflexivity|assumption|].
  apply incl_refl.
Qed.

(** C9. For a required set [R] of digits and an excluded digit [s] outside
    [R], [containsRequiredDigits] is true on every permutation of the nine
    digits other than [s]; so the filter inside the generator discards
    nothing: the generator returns the same list as the generator without
    the filter, which is the list of all permutations visited for the
    excluded digits outside [R]. *)
Theorem required_digit_filter_is_redundant :
  forall (R : list ascii),
    (forall d, In d R -> In d digitChars) ->
    (forall s number,
       In s digitChars -> ~ In s R -> Permutation (digitsWithout s) number ->
       containsRequiredDigits number R = true)
    /\ generate R = generateUnfiltered R
    /\ generate R = Some (flat_map shardOf (allowedSkips R)).
Proof.
  intros R HR. split; [|split].
  - intros s number Hs Hnot Hperm. apply containsRequiredDigits_true.
    + apply (Permutation_Forall Hperm). apply digitsWithout_digits.
    + intros d Hd. split; [apply digitChars_isDigit; now apply HR|].
      apply (Permutation_in _ Hperm). apply digitsWithout_In.
      split; [now apply HR|]. intros ->. contradiction.
  - unfold generateUnfiltered.
    rewrite generateUnfilteredFrom_spec by apply incl_refl.
    now apply generate_spec.
  - now apply generate_spec.
Qed.

Lemma flat_map_length_const {A B : Type} (f : A -> list B) (l : list A) (n : nat) :
  (forall x, In x l -> length (f x) = n) -> length (flat_map f l) = (length l * n)%nat.
Proof.
  induction l as [|x l IH]; intros H; simpl; [reflexivity|].
  rewrite length_app, (H x (or_introl eq_refl)), IH; [reflexivity|].
  intros y Hy. apply H. now right.
Qed.

Lemma fact_9 : Z.of_nat (fact 9) = 362880.
Proof. vm_compute. reflexivity. Qed.

Lemma requiredDigits_digits : forall d, In d requiredDigits -> In d digitChars.
Proof.
  unfold requiredDigits, digitChars. intros d H.
  repeat (destruct H as [<-|H]; [simpl; tauto|]). contradiction.
Qed.

Lemma allowedSkips_requiredDigits :
  allowedSkips requiredDigits = ["1"; "3"; "4"; "6"; "7"; "8"; "9"]%char.
Proof. reflexivity. Qed.

Lemma allowedSkips_spec required s :
  In s (allowedSkips required) <-> In s digitChars /\ ~ In s required.
Proof.
  unfold allowedSkips. rewrite filter_In, negb_true_iff.
  split; intros [H1 H2]; (split; [assumption|]).
  - intros Hin. apply existsb_eqb_In in Hin. congruence.
  - destruct (existsb (Ascii.eqb s) required) eqn:E; [|reflexivity].
    exfalso. apply H2. now apply existsb_eqb_In.
Qed.


(** The generated strings, one shard after the other. *)
Lemma generated_strings_valid :
  exists validNumbers,
    generate requiredDigits = Some validNumbers
    /\ Forall validString validNumbers.
Proof.
  exists (flat_map shardOf (allowedSkips requiredDigits)).
  split; [apply generate_spec, requiredDigits_digits|].
  apply Forall_forall. intros v Hv. apply in_flat_map in Hv.
  destruct Hv as [s [Hs Hv]]. apply allowedSkips_spec in Hs.
  now apply (shardOf_valid s v).
Qed.

(** C4. With the alphabet 0..9 and the required digits 0, 2 and 5 the
    generator returns [(10 - 3) * 9! = 7 * 362880 = 2540160] strings, each of
    nine pairwise distinct digits and with every required digit in it. *)
Theorem generator_produces_2540160_candidates :
  exists validNumbers,
    generate requiredDigits = Some validNumbers
    /\ Z.of_nat (length validNumbers)
       = (10 - Z.of_nat (length requiredDigits)) * Z.of_nat (fact 9)
    /\ Z.of_nat (fact 9) = 362880
    /\ Z.of_nat (length validNumbers) = 2540160
    /\ Forall (fun s => validString s /\ forall d, In d requiredDigits -> In d s)
         validNumbers.
Proof.
  exists (flat_map shardOf (allowedSkips requiredDigits)).
  split; [apply generate_spec, requiredDigits_digits|].
  assert (Hlen : length (flat_map shardOf (allowedSkips requiredDigits)) = (7 * fact 9)%nat).
  { rewrite (flat_map_length_const shardOf _ (fact 9)).
    - now rewrite allowedSkips_requiredDigits.
    - intros s Hs. apply allowedSkips_spec in Hs. apply shardOf_length. tauto. }
  rewrite Hlen, Nat2Z.inj_mul, fact_9.
  split; [reflexivity|]. split; [reflexivity|]. split; [reflexivity|].
  apply Forall_forall. intros v Hv. apply in_flat_map in Hv.
  destruct Hv as [s [Hs Hv]]. apply allowedSkips_spec in Hs. destruct Hs as [Hs Hnot].
  destruct (shardOf_valid s v Hs Hv) as [Hvalid Hin]. split; [assumption|].
  intros d Hd. apply Hin. split; [now apply requiredDigits_digits|].
  intros ->. contradiction.
Qed.

(** ** The rows of the program are valid candidates *)

Lemma filterDivisible_incl options d : incl (filterDivisibleByCandidate options d) options.
Proof.
  unfold filterDivisibleByCandidate. rewrite push_loop_is_filter. apply incl_filter.
Qed.

Lemma filterByColumn_incl numbers column value :
  incl (filterByColumn numbers column value) numbers.
Proof. rewrite filterByColumn_filter. apply incl_filter. Qed.

Lemma filterDisallowedValues_incl numbers column values :
  incl (filterDisallowedValues numbers column values) numbers.
Proof. rewrite filterDisallowedValues_filter. apply incl_filter. Qed.

Lemma puzzle_incl validNumbers r s :
  In s (nth r (puzzle validNumbers) []) -> In s validNumbers.
Proof.
  unfold puzzle. intros H.
  repeat (destruct r as [|r];
          [ unfold row1Options, row2Options, row3Options, row4Options, row5Options,
              row6Options, row7Options, row8Options, row9Options in H; cbv zeta in H;
            repeat (first [apply filterDisallowedValues_incl in H
                          |apply filterByColumn_incl in H]);
            exact H
          | ]).
  destruct r; contradiction.
Qed.

Lemma generated_puzzle_valid validNumbers :
  generate requiredDigits = Some validNumbers -> validPuzzle (puzzle validNumbers).
Proof.
  intros Hgen r s _ Hin. apply puzzle_incl in Hin.
  destruct generated_strings_valid as [vn [E Hall]].
  rewrite E in Hgen. inversion Hgen; subst vn.
  rewrite Forall_forall in Hall. now apply Hall.
Qed.

Lemma validString_row s : validString s -> validRow (map digit_of s).
Proof.
  intros [Hlen [Hnd Hdig]]. split; [|split].
  - now rewrite length_map.
  - apply NoDup_map_of_injective; [assumption|].
    intros x y _ _. apply digit_of_inj.
  - apply Forall_map. exact Hdig.
Qed.

Lemma validPuzzle_candidates puzzle d :
  validPuzzle puzzle -> validCandidates (digitsOfRows (filteredPuzzle puzzle d)).
Proof.
  intros Hp r cand Hr Hin. rewrite nth_digitsOfRows, nth_filteredPuzzle in Hin.
  apply in_map_iff in Hin. destruct Hin as [s [<- Hs]].
  apply validString_row. apply (Hp r s Hr). now apply (filterDivisible_incl _ d).
Qed.

(** The solver on the rows of a valid puzzle filtered for a divisor. *)
Lemma runSolver_spec puzzle d :
  validPuzzle puzzle ->
  exists sols,
    runSolver (filteredPuzzle puzzle d) = Some sols
    /\ forall g, In g sols <-> acceptedGrid (digitsOfRows (filteredPuzzle puzzle d)) g.
Proof.
  intros Hp.
  destruct (solveFixed_accepts _ (validPuzzle_candidates puzzle d Hp)) as [st [E Hacc]].
  exists (allSolutions st). unfold runSolver. rewrite E. split; [reflexivity|exact Hacc].
Qed.

(** C2. For a puzzle of valid candidate strings (nine pairwise distinct
    digits each, as the generator makes them) and any divisor, the solver run
    on the rows filtered for the divisor returns, and its accumulator holds
    exactly the grids that take one candidate of each row's filtered list
    such that every column and every 3x3 box has nine pairwise distinct
    symbols and a zero stands somewhere in the first three columns: every
    such grid is recorded, not only the first. *)
Theorem solver_records_exactly_the_accepted_grids :
  forall (puzzle : list (list str)) (d : Z),
    validPuzzle puzzle ->
    exists sols,
      runSolver (filteredPuzzle puzzle d) = Some sols
      /\ forall g, In g sols <-> acceptedGrid (digitsOfRows (filteredPuzzle puzzle d)) g.
Proof. exact runSolver_spec. Qed.

(** ** The generator misses no valid string *)

Lemma nodupb_NoDup s : nodupb s = true -> NoDup s.
Proof.
  induction s as [|c t IH]; simpl; intros H; [constructor|].
  apply andb_true_iff in H. destruct H as [H1 H2]. constructor; [|now apply IH].
  intros Hin. apply existsb_eqb_In in Hin. rewrite Hin in H1. discriminate.
Qed.

Lemma validStringb_spec s : validStringb s = true -> validString s.
Proof.
  unfold validStringb. rewrite !andb_true_iff. intros [[H1 H2] H3].
  split; [now apply Nat.eqb_eq|]. split; [now apply nodupb_NoDup|].
  apply Forall_forall. intros c Hc. rewrite forallb_forall in H3. specialize (H3 c Hc).
  unfold isDigitb in H3. apply andb_true_iff in H3. unfold isDigit. lia.
Qed.


Lemma isDigit_digitChars c : isDigit c -> In c digitChars.
Proof.
  unfold isDigit, digit_of. intros H.
  assert (Hc : (N_of_ascii c = 48 \/ N_of_ascii c = 49 \/ N_of_ascii c = 50
                \/ N_of_ascii c = 51 \/ N_of_ascii c = 52 \/ N_of_ascii c = 53
                \/ N_of_ascii c = 54 \/ N_of_ascii c = 55 \/ N_of_ascii c = 56
                \/ N_of_ascii c = 57)%N) by lia.
  rewrite <- (ascii_N_embedding c).
  repeat (destruct Hc as [->|Hc]; [simpl; tauto|]). rewrite Hc. simpl. tauto.
Qed.

Lemma shardOf_complete skipDigit v :
  In skipDigit digitChars -> Permutation (digitsWithout skipDigit) v ->
  In v (shardOf skipDigit).
Proof.
  intros Hs Hperm. destruct (digitsWithout_sorted _ Hs) as [Hasc Hlen].
  destruct (iterNext_reaches 9 _ v Hasc Hlen Hperm) as [k [Hk Hit]].
  unfold shardOf. now apply (iterNext_visited k).
Qed.

Lemma digitChars_NoDup : NoDup digitChars.
Proof. apply nodupb_NoDup. reflexivity. Qed.

(** Nine distinct digits are all the digits but one. *)
Lemma validString_missing_digit v :
  validString v ->
  exists s, In s digitChars /\ ~ In s v /\ Permutation (digitsWithout s) v.
Proof.
  intros [Hlen [Hnd Hdig]]. rewrite Forall_forall in Hdig.
  assert (Hincl : incl v digitChars) by (intros c Hc; apply isDigit_digitChars; now apply Hdig).
  destruct (existsb (fun c => negb (existsb (Ascii.eqb c) v)) digitChars) eqn:E.
  - apply existsb_exists in E. destruct E as [s [Hs Hn]].
    apply negb_true_iff in Hn.
    assert (Hnot : ~ In s v) by (intros Hin; apply existsb_eqb_In in Hin; congruence).
    exists s. split; [assumption|]. split; [assumption|].
    destruct (digitsWithout_sorted _ Hs) as [Hasc Hl9].
    apply NoDup_Permutation; [now apply ascending_NoDup|assumption|].
    assert (Hsub : incl v (digitsWithout s)).
    { intros c Hc. apply digitsWithout_In. split; [now apply Hincl|].
      intros ->. contradiction. }
    intros c. split; [|apply Hsub].
    apply (NoDup_length_incl Hnd); [lia|assumption].
  - exfalso.
    assert (Hall : incl digitChars v).
    { intros c Hc. destruct (existsb (Ascii.eqb c) v) eqn:Ec; [now apply existsb_eqb_In|].
      assert (Ht : existsb (fun c => negb (existsb (Ascii.eqb c) v)) digitChars = true).
      { apply existsb_exists. exists c. split; [assumption|]. now rewrite Ec. }
      congruence. }
    pose proof (NoDup_incl_length digitChars_NoDup Hall) as Hle.
    rewrite Hlen in Hle. simpl in Hle. lia.
Qed.

(** The generated list holds exactly the strings of nine distinct digits
    with the required digits among them. *)
Lemma generate_complete validNumbers v :
  generate requiredDigits = Some validNumbers ->
  (In v validNumbers <-> validString v /\ forall d, In d requiredDigits -> In d v).
Proof.
  intros Hgen. rewrite (generate_spec requiredDigits requiredDigits_digits) in Hgen.
  apply Some_eq_inv in Hgen. subst validNumbers. rewrite in_flat_map. split.
  - intros [s [Hs Hv]]. apply allowedSkips_spec in Hs. destruct Hs as [Hs Hnot].
    destruct (shardOf_valid s v Hs Hv) as [Hvalid Hin]. split; [assumption|].
    intros d Hd. apply Hin. split; [now apply requiredDigits_digits|].
    intros ->. contradiction.
  - intros [Hvalid Hreq]. destruct (validString_missing_digit v Hvalid) as [s [Hs [Hnot Hperm]]].
    exists s. split.
    + apply allowedSkips_spec. split; [assumption|]. intros Hin. apply Hnot. now apply Hreq.
    + now apply shardOf_complete.
Qed.

(** ** The puzzle grows with the pool of candidate strings *)

Lemma filter_incl_mono {A : Type} (f : A -> bool) (l1 l2 : list A) :
  incl l1 l2 -> incl (filter f l1) (filter f l2).
Proof.
  intros H x Hx. apply filter_In in Hx. apply filter_In. split; [apply H|]; tauto.
Qed.

Lemma filterByColumn_mono l1 l2 column value :
  incl l1 l2 -> incl (filterByColumn l1 column value) (filterByColumn l2 column value).
Proof. intros H. rewrite !filterByColumn_filter. now apply filter_incl_mono. Qed.

Lemma filterDisallowedValues_mono l1 l2 column values :
  incl l1 l2 ->
  incl (filterDisallowedValues l1 column values) (filterDisallowedValues l2 column values).
Proof. intros H. rewrite !filterDisallowedValues_filter. now apply filter_incl_mono. Qed.

Lemma filterDivisible_mono l1 l2 d :
  incl l1 l2 -> incl (filterDivisibleByCandidate l1 d) (filterDivisibleByCandidate l2 d).
Proof.
  intros H. unfold filterDivisibleByCandidate. rewrite !push_loop_is_filter.
  now apply filter_incl_mono.
Qed.

Lemma puzzle_mono pool1 pool2 r :
  incl pool1 pool2 -> incl (nth r (puzzle pool1) []) (nth r (puzzle pool2) []).
Proof.
  intros H. unfold puzzle.
  repeat (destruct r as [|r];
          [ unfold row1Options, row2Options, row3Options, row4Options, row5Options,
              row6Options, row7Options, row8Options, row9Options; cbv zeta;
            repeat (first [apply filterDisallowedValues_mono | apply filterByColumn_mono]);
            exact H
          | ]).
  destruct r; apply incl_refl.
Qed.

Lemma acceptedGrid_mono c1 c2 g :
  (forall r, (r < 9)%nat -> incl (nth r c1 []) (nth r c2 [])) ->
  acceptedGrid c1 g -> acceptedGrid c2 g.
Proof.
  intros H [H1 [H2 H3]]. split; [assumption|]. split; [|assumption].
  intros r Hr. apply (H r Hr). now apply H2.
Qed.

(** ** The concrete puzzles *)

Lemma validString_nineDigits s : validString s -> nineDigits s.
Proof. intros [H1 [_ H3]]. now split. Qed.

Lemma knownPuzzle_valid : validPuzzle knownPuzzle.
Proof.
  intros r s Hr Hin. apply validStringb_spec.
  do 9 (destruct r as [|r]; [destruct Hin as [<-|[]]; vm_compute; reflexivity|]). lia.
Qed.

Lemma enumerated_333667 : enumerated 333667.
Proof. unfold enumerated. split; [lia|]. right. right. left. reflexivity. Qed.

Lemma knownPuzzle_at_333667 : iterationSolutions knownPuzzle 333667 = [knownGrid].
Proof. vm_compute. reflexivity. Qed.

(** 395061728 = 2^5 * 37 * 333667 has no divisor above 333667 that the loop
    enumerates: the cofactor would lie between 33 and 1183. *)
Lemma cofactors_of_395061728 :
  forallb (fun q => negb ((395061728 mod q =? 0) && lastDigitOk (395061728 / q)))
    (map Z.of_nat (seq 33 1151)) = true.
Proof. vm_compute. reflexivity. Qed.

Lemma knownPuzzle_above_333667 d :
  enumerated d -> 333667 < d -> iterationSolutions knownPuzzle d = [].
Proof.
  intros [Hd Hlast] Hlt. apply iterationSolutions_empty_row. exists 0%nat.
  split; [lia|].
  change (nth 0 knownPuzzle []) with [lit "395061728"].
  unfold filterDivisibleByCandidate. cbn [fold_left].
  rewrite remainderOf_mod; try lia;
    [|repeat constructor; cbv; discriminate|simpl; lia].
  change (decimalValue (lit "395061728")) with 395061728.
  destruct (Z.eqb_spec (395061728 mod d) 0) as [E|]; [exfalso|reflexivity].
  apply Z.mod_divide in E; [|lia]. destruct E as [q Eq].
  assert (Hq : 33 <= q <= 1183) by nia.
  pose proof cofactors_of_395061728 as Hc. rewrite forallb_forall in Hc.
  specialize (Hc q). rewrite negb_true_iff, andb_false_iff in Hc.
  destruct Hc as [Hc|Hc].
  - apply in_map_iff. exists (Z.to_nat q). split; [lia|]. apply in_seq. lia.
  - apply Z.eqb_neq in Hc. apply Hc. rewrite Eq, Z.mul_comm. apply Z.mod_mul. lia.
  - assert (Ed : 395061728 / q = d) by (rewrite Eq, Z.mul_comm; apply Z.div_mul; lia).
    rewrite Ed in Hc. apply (lastDigitOk_spec d ltac:(lia)) in Hlast. congruence.
Qed.

Lemma filterRows_first_event n r cp d cp' valid evs :
  filterRows (S n) r cp d = (cp', valid, evs) -> In (CallFilterDivisible r d) evs.
Proof.
  intros H. simpl in H.
  destruct (filterDivisibleByCandidate (nth r cp []) d) as [|x l].
  - inversion H; subst. now left.
  - destruct (filterRows n (S r) _ d) as [[cp1 v1] evs1]. inversion H; subst. now left.
Qed.

Lemma events_of_first_divisor d rest : forall ls ls',
  divisorLoop (d :: rest) ls = Some ls' -> In (CallFilterDivisible 0 d) (events ls').
Proof.
  intros ls ls' H. cbn [divisorLoop] in H.
  assert (Hit : forall ls1 ctl, iteration d ls = Some (ls1, ctl) ->
                  In (CallFilterDivisible 0 d) (events ls1)).
  { intros ls1 ctl Hi. unfold iteration in Hi.
    destruct (filterRows 9 0 (basePuzzle ls) d) as [[cp valid] evs] eqn:E.
    pose proof (filterRows_first_event _ _ _ _ _ _ _ E) as Hev.
    destruct valid; cbn [negb] in Hi.
    - destruct (runSolver cp) as [[|g sols]|]; inversion Hi; subst; cbn [events];
        rewrite !in_app_iff; tauto.
    - inversion Hi; subst. cbn [events]. rewrite in_app_iff. tauto. }
  destruct (iteration d ls) as [[ls1 [|]]|] eqn:Ei; [| |discriminate].
  - destruct (divisorLoop_spec rest ls1) as [ls2 [evs2 [E2 [_ [He2 _]]]]].
    rewrite E2 in H. inversion H; subst ls'. rewrite He2. apply in_or_app. left.
    now apply (Hit ls1 Continue).
  - inversion H; subst ls'. now apply (Hit ls1 Break).
Qed.

(** The converse of the first-hit property: a divisor with solutions above
    which no enumerated divisor has any is the one the search reports. *)
Lemma search_reports puzzle d0 sols :
  enumerated d0 -> iterationSolutions puzzle d0 = sols -> sols <> [] ->
  (forall d, enumerated d -> d0 < d -> iterationSolutions puzzle d = []) ->
  exists ls,
    searchDivisor puzzle = Some ls
    /\ reported ls = Some (d0, sols)
    /\ In (CallFilterDivisible 0 12345677) (events ls).
Proof.
  intros Hd0 Hsols Hne0 Habove.
  destruct (searchDivisor_returns puzzle) as [ls Hls]. exists ls.
  split; [assumption|]. split.
  - unfold searchDivisor in Hls.
    destruct (divisorLoop_spec candidateGCDs (mkLoop puzzle [] None))
      as [ls' [evs [E [_ [_ [_ Hres]]]]]].
    rewrite E in Hls. inversion Hls; subst ls'. cbn [basePuzzle reported] in Hres.
    pose proof (proj2 (candidateGCDs_In d0) Hd0) as Hin.
    destruct Hres as [[_ Hall]|[before [d [after [Ed [Hr [Hne Hbef]]]]]]].
    + specialize (Hall _ Hin). congruence.
    + assert (Hd : In d candidateGCDs) by (rewrite Ed; apply in_elt).
      apply candidateGCDs_In in Hd.
      destruct (Z.lt_trichotomy d d0) as [Hlt|[->|Hgt]].
      * exfalso. pose proof candidateGCDs_sorted as Hs. rewrite Ed in Hs, Hin.
        apply in_app_or in Hin. destruct Hin as [Hb|[->|Ha]].
        -- specialize (Hbef _ Hb). congruence.
        -- lia.
        -- pose proof (sorted_after_head _ _ _ Hs _ Ha). lia.
      * rewrite Hr. now rewrite Hsols.
      * exfalso. apply Hne. now apply Habove.
  - unfold searchDivisor in Hls. destruct candidateGCDs_head as [rest Eh].
    rewrite Eh in Hls. now apply events_of_first_divisor in Hls.
Qed.

(** The search on the known puzzle reports 333667 with the known grid. *)
Lemma knownPuzzle_search :
  exists ls,
    searchDivisor knownPuzzle = Some ls
    /\ reported ls = Some (333667, [knownGrid])
    /\ In (CallFilterDivisible 0 12345677) (events ls).
Proof.
  apply search_reports.
  - exact enumerated_333667.
  - exact knownPuzzle_at_333667.
  - discriminate.
  - exact knownPuzzle_above_333667.
Qed.

(** ** The solver does not compare the digit sets of the rows *)






(** ** The digits of the units of an accepted grid *)










(** ** Witnesses *)

(** C1 at the known puzzle: the search reports 333667 with the known grid,
    and no enumerated divisor above it has a solution. *)
Lemma first_reported_divisor_witness :
  enumerated 333667
  /\ runSolver (filteredPuzzle knownPuzzle 333667) = Some [knownGrid]
  /\ [knownGrid] <> []
  /\ forall d', enumerated d' -> 333667 < d' ->
       runSolver (filteredPuzzle knownPuzzle d') = Some [].
Proof.
  destruct knownPuzzle_search as [ls [Hrun [Hrep _]]].
  exact (first_reported_divisor_is_the_greatest knownPuzzle ls 333667 [knownGrid] Hrun Hrep).
Defined.

(** C2 at the known puzzle and the divisor 333667. *)
Lemma solver_records_witness :
  exists sols,
    runSolver (filteredPuzzle knownPuzzle 333667) = Some sols
    /\ forall g, In g sols
         <-> acceptedGrid (digitsOfRows (filteredPuzzle knownPuzzle 333667)) g.
Proof.
  exact (solver_records_exactly_the_accepted_grids knownPuzzle 333667 knownPuzzle_valid).
Defined.

(** C5 at the modulus 9: 123456789 is kept, 013456789 is not. *)
Lemma filterDivisible_witness :
  filterDivisibleByCandidate [lit "123456789"; lit "013456789"] 9 = [lit "123456789"]
  /\ decimalValue (lit "123456789") mod 9 = 0
  /\ decimalValue (lit "013456789") mod 9 <> 0.
Proof.
  assert (Hd : 0 < 9 <= INT_MAX) by (split; [lia|discriminate]).
  assert (Ho : Forall nineDigits [lit "123456789"; lit "013456789"]).
  { constructor; [|constructor; [|constructor]];
      apply validString_nineDigits, validStringb_spec; vm_compute; reflexivity. }
  destruct (filterDivisible_keeps_exactly_the_multiples
              [lit "123456789"; lit "013456789"] 9 Hd Ho) as [E [Hkept Hdropped]].
  split; [rewrite E; reflexivity|]. split.
  - apply (Hkept (lit "123456789")). rewrite E. now left.
  - apply (Hdropped (lit "013456789")); [right; now left|].
    rewrite E. vm_compute. intuition discriminate.
Defined.

(** C6 at the first candidate of the known puzzle, tried from the empty
    state. *)
Lemma masks_restored_witness :
  exists st',
    tryCandidate (solveFixed 9 (digitsOfRows knownPuzzle) (0 + 1)) (nth 0 rowOrder 0%nat)
      (nth 1 knownGrid []) initialState = Some st'
    /\ colMask st' = colMask initialState /\ boxMask st' = boxMask initialState.
Proof.
  apply (masks_restored_after_each_candidate (digitsOfRows knownPuzzle) 9 0
           (nth 1 knownGrid []) initialState); lia.
Defined.

(** C8 at the known puzzle and the divisor 12345677, which leaves the first
    row without candidate. *)
Lemma empty_row_witness :
  exists ls' evs,
    iteration 12345677 (mkLoop knownPuzzle [] None) = Some (ls', Continue)
    /\ basePuzzle ls' = knownPuzzle
    /\ reported ls' = None
    /\ events ls' = [] ++ evs
    /\ (forall d', ~ In (CallSolveFixed d') evs)
    /\ (forall rest, divisorLoop (12345677 :: rest) (mkLoop knownPuzzle [] None)
                     = divisorLoop rest ls').
Proof.
  apply (empty_row_skips_the_solver 12345677 (mkLoop knownPuzzle [] None)).
  exists 0%nat. split; [lia|]. vm_compute. reflexivity.
Defined.

(** C9 at the required digits of the program. *)
Lemma required_digit_filter_witness :
  (forall s number,
     In s digitChars -> ~ In s requiredDigits -> Permutation (digitsWithout s) number ->
     containsRequiredDigits number requiredDigits = true)
  /\ generate requiredDigits = generateUnfiltered requiredDigits
  /\ generate requiredDigits = Some (flat_map shardOf (allowedSkips requiredDigits)).
Proof.
  exact (required_digit_filter_is_redundant requiredDigits requiredDigits_digits).
Defined.

(** C10 at the first call of the search on the known puzzle. *)
Lemma filterDivisible_calls_witness :
  337 <= 12345677 <= 12345678
  /\ 12345677 <> 0
  /\ forall (pre : str) (c : ascii) (post : str),
       Forall isDigit (pre ++ c :: post) ->
       0 <= remainderOf pre 12345677 < 12345677
       /\ 0 <= remainderOf pre 12345677 * 10 + digit_of c <= 123456789
       /\ 123456789 <= INT_MAX
       /\ remainderOf (pre ++ [c]) 12345677
          = (remainderOf pre 12345677 * 10 + digit_of c) mod 12345677.
Proof.
  destruct knownPuzzle_search as [ls [Hrun [_ Hev]]].
  exact (filterDivisible_calls_are_safe knownPuzzle ls 0 12345677 Hrun Hev).
Defined.

(** * Part IV: further properties of the program *)

(** ** [containsRequiredDigits] *)

Lemma forallb_isDigit s : forallb isDigitb s = true -> Forall isDigit s.
Proof.
  intros H. apply Forall_forall. intros c Hc. rewrite forallb_forall in H.
  specialize (H c Hc). unfold isDigitb in H. apply andb_true_iff in H.
  unfold isDigit. lia.
Qed.

Lemma allRequiredIn_inv m required :
  allRequiredIn m required = true ->
  forall d, In d required -> 0 <= digit_of d -> Z.testbit m (digit_of d) = true.
Proof.
  induction required as [|x required IH]; simpl; intros H d Hd Hpos; [contradiction|].
  destruct (Z.eqb_spec (Z.land m (bit (digit_of x))) 0) as [E|E]; [discriminate|].
  destruct Hd as [<-|Hd]; [|now apply IH].
  rewrite <- (land_bit_test m (digit_of x) Hpos).
  apply negb_true_iff. now apply Z.eqb_neq.
Qed.

(** X1. On strings of digits the bit mask test of [containsRequiredDigits]
    decides containment: the result is [true] exactly when every required
    digit occurs in [number]; in particular it is [true] for an empty
    required list and [false] for an empty number and a non-empty required
    list. *)
Theorem containsRequiredDigits_decides_containment :
  forall (number : str) (required : list ascii),
    Forall isDigit number -> Forall isDigit required ->
    (containsRequiredDigits number required = true
     <-> forall d, In d required -> In d number)
    /\ containsRequiredDigits number [] = true
    /\ (required <> [] -> containsRequiredDigits [] required = false).
Proof.
  intros number required Hnum Hreq. rewrite Forall_forall in Hreq.
  assert (Hiff : forall num req,
            Forall isDigit num -> (forall d, In d req -> isDigit d) ->
            (containsRequiredDigits num req = true <-> forall d, In d req -> In d num)).
  { intros num req Hn Hr. split.
    - intros H d Hd. unfold containsRequiredDigits in H.
      pose proof (allRequiredIn_inv _ _ H d Hd (proj1 (Hr d Hd))) as Hb.
      unfold digitMaskOf in Hb. rewrite digitMaskOf_fold in Hb.
      + rewrite Z.bits_0 in Hb. cbn [orb] in Hb. apply existsb_exists in Hb.
        destruct Hb as [c [Hc E]]. apply Z.eqb_eq in E. apply digit_of_inj in E.
        now subst.
      + intros c Hc. rewrite Forall_forall in Hn. apply (Hn c Hc).
    - intros H. apply containsRequiredDigits_true; [assumption|].
      intros d Hd. split; [now apply Hr|now apply H]. }
  split; [now apply Hiff|]. split; [reflexivity|].
  intros Hne. destruct (containsRequiredDigits [] required) eqn:E; [|reflexivity].
  exfalso. pose proof (proj1 (Hiff [] required (Forall_nil _) Hreq) E) as Hall.
  destruct required as [|d required]; [now apply Hne|]. apply (Hall d). now left.
Qed.

(** X1 at the required digits of the program and a string without 2. *)
Lemma containsRequiredDigits_witness :
  (containsRequiredDigits (lit "013456789") requiredDigits = true
   <-> forall d, In d requiredDigits -> In d (lit "013456789"))
  /\ containsRequiredDigits (lit "013456789") [] = true
  /\ (requiredDigits <> [] -> containsRequiredDigits [] requiredDigits = false).
Proof.
  apply (containsRequiredDigits_decides_containment (lit "013456789") requiredDigits);
    apply forallb_isDigit; vm_compute; reflexivity.
Defined.

(** ** The position filters compose *)

Lemma filter_filter {A : Type} (f g : A -> bool) (l : list A) :
  filter f (filter g l) = filter (fun x => g x && f x) l.
Proof.
  induction l as [|x l IH]; simpl; [reflexivity|].
  destruct (g x); simpl; [destruct (f x); now rewrite IH|assumption].
Qed.

Lemma filterDivisible_filter options d :
  filterDivisibleByCandidate options d
  = filter (fun opt => remainderOf opt d =? 0) options.
Proof. unfold filterDivisibleByCandidate. now rewrite push_loop_is_filter. Qed.

(** X2. For a divisor above 0 (the remainder loop divides by it) the three
    filters commute with each other and with themselves, a filter applied
    twice does what it does once, two different fixed values for one
    position leave nothing, and an empty list of disallowed values discards
    nothing. *)
Theorem filters_commute :
  forall (l : list str) (c1 c2 : nat) (v1 v2 : ascii) (vs1 vs2 : list ascii) (d : Z),
    0 < d <= INT_MAX ->
    filterByColumn (filterByColumn l c1 v1) c2 v2
    = filterByColumn (filterByColumn l c2 v2) c1 v1
    /\ filterDisallowedValues (filterDisallowedValues l c1 vs1) c2 vs2
       = filterDisallowedValues (filterDisallowedValues l c2 vs2) c1 vs1
    /\ filterDisallowedValues (filterByColumn l c1 v1) c2 vs2
       = filterByColumn (filterDisallowedValues l c2 vs2) c1 v1
    /\ filterDivisibleByCandidate (filterByColumn l c1 v1) d
       = filterByColumn (filterDivisibleByCandidate l d) c1 v1
    /\ filterDivisibleByCandidate (filterDisallowedValues l c1 vs1) d
       = filterDisallowedValues (filterDivisibleByCandidate l d) c1 vs1
    /\ filterByColumn (filterByColumn l c1 v1) c1 v1 = filterByColumn l c1 v1
    /\ filterDisallowedValues (filterDisallowedValues l c1 vs1) c1 vs1
       = filterDisallowedValues l c1 vs1
    /\ filterDivisibleByCandidate (filterDivisibleByCandidate l d) d
       = filterDivisibleByCandidate l d
    /\ (v1 <> v2 -> filterByColumn (filterByColumn l c1 v1) c1 v2 = [])
    /\ filterDisallowedValues l c1 [] = l.
Proof.
  intros l c1 c2 v1 v2 vs1 vs2 d _.
  rewrite ?filterByColumn_filter, ?filterDisallowedValues_filter,
    ?filterDivisible_filter.
  rewrite !filter_filter.
  do 8 (split; [apply filter_ext; intros s;
                first [apply andb_comm | apply andb_diag]|]).
  split.
  - intros Hne. induction l as [|s l IH]; simpl; [reflexivity|].
    destruct (Ascii.eqb_spec (charAt s c1) v1) as [E1|E1]; simpl; [|assumption].
    destruct (Ascii.eqb_spec (charAt s c1) v2) as [E2|E2]; [congruence|assumption].
  - induction l as [|s l IH]; simpl; [reflexivity|]. f_equal. exact IH.
Qed.

(** X2 at two strings, the positions 0 and 8 and the divisor 9. *)
Lemma filters_commute_witness :
  let l := [lit "123456789"; lit "103456782"; lit "913456780"] in
  filterByColumn (filterByColumn l 0 "1") 8 "9"
  = filterByColumn (filterByColumn l 8 "9") 0 "1"
  /\ filterDisallowedValues (filterDisallowedValues l 0 ["9"%char]) 8 ["2"%char]
     = filterDisallowedValues (filterDisallowedValues l 8 ["2"%char]) 0 ["9"%char]
  /\ filterDisallowedValues (filterByColumn l 0 "1") 8 ["2"%char]
     = filterByColumn (filterDisallowedValues l 8 ["2"%char]) 0 "1"
  /\ filterDivisibleByCandidate (filterByColumn l 0 "1") 9
     = filterByColumn (filterDivisibleByCandidate l 9) 0 "1"
  /\ filterDivisibleByCandidate (filterDisallowedValues l 0 ["9"%char]) 9
     = filterDisallowedValues (filterDivisibleByCandidate l 9) 0 ["9"%char]
  /\ filterByColumn (filterByColumn l 0 "1") 0 "1" = filterByColumn l 0 "1"
  /\ filterDisallowedValues (filterDisallowedValues l 0 ["9"%char]) 0 ["9"%char]
     = filterDisallowedValues l 0 ["9"%char]
  /\ filterDivisibleByCandidate (filterDivisibleByCandidate l 9) 9
     = filterDivisibleByCandidate l 9
  /\ ("1"%char <> "9"%char -> filterByColumn (filterByColumn l 0 "1") 0 "9" = [])
  /\ filterDisallowedValues l 0 [] = l.
Proof.
  intros l.
  apply (filters_commute l 0 8 "1" "9" ["9"%char] ["2"%char] 9).
  split; [lia|discriminate].
Defined.

(** ** The rows of the puzzle and the grids recorded for them *)

Ltac row_by_table :=
  cbv zeta;
  rewrite ?filterByColumn_filter, ?filterDisallowedValues_filter;
  rewrite ?filter_filter;
  apply filter_ext; intros s; unfold satisfiesRow;
  cbn [nth rowClues rowDisallowed forallb existsb fst snd andb];
  rewrite ?orb_false_r, ?andb_true_r, ?andb_assoc; reflexivity.

Lemma row1Options_by_table validNumbers :
  row1Options validNumbers = filter (satisfiesRow 0) validNumbers.
Proof. unfold row1Options. row_by_table. Qed.

Lemma row2Options_by_table validNumbers :
  row2Options validNumbers = filter (satisfiesRow 1) validNumbers.
Proof. unfold row2Options. row_by_table. Qed.

Lemma row3Options_by_table validNumbers :
  row3Options validNumbers = filter (satisfiesRow 2) validNumbers.
Proof. unfold row3Options. row_by_table. Qed.

Lemma row4Options_by_table validNumbers :
  row4Options validNumbers = filter (satisfiesRow 3) validNumbers.
Proof. unfold row4Options. row_by_table. Qed.

Lemma row5Options_by_table validNumbers :
  row5Options validNumbers = filter (satisfiesRow 4) validNumbers.
Proof. unfold row5Options. row_by_table. Qed.

Lemma row6Options_by_table validNumbers :
  row6Options validNumbers = filter (satisfiesRow 5) validNumbers.
Proof. unfold row6Options. row_by_table. Qed.

Lemma row7Options_by_table validNumbers :
  row7Options validNumbers = filter (satisfiesRow 6) validNumbers.
Proof. unfold row7Options. row_by_table. Qed.

Lemma row8Options_by_table validNumbers :
  row8Options validNumbers = filter (satisfiesRow 7) validNumbers.
Proof. unfold row8Options. row_by_table. Qed.

Lemma row9Options_by_table validNumbers :
  row9Options validNumbers = filter (satisfiesRow 8) validNumbers.
Proof. unfold row9Options. row_by_table. Qed.

Lemma puzzle_by_table validNumbers :
  puzzle validNumbers = map (fun r => filter (satisfiesRow r) validNumbers) (seq 0 9).
Proof.
  unfold puzzle.
  rewrite row1Options_by_table, row2Options_by_table, row3Options_by_table,
    row4Options_by_table, row5Options_by_table, row6Options_by_table,
    row7Options_by_table, row8Options_by_table, row9Options_by_table.
  reflexivity.
Qed.

Lemma nth_puzzle validNumbers r :
  (r < 9)%nat -> nth r (puzzle validNumbers) [] = filter (satisfiesRow r) validNumbers.
Proof.
  intros Hr. rewrite puzzle_by_table.
  do 9 (destruct r as [|r]; [reflexivity|]). lia.
Qed.

(** X3. STEP 2 builds nine rows, and the candidates of each row are, in the
    order of [validNumbers], exactly the strings that have every fixed clue
    of the row and none of its disallowed values, as the table [rowClues],
    [rowDisallowed] lists them; the order in which the program applies the
    filters of a row plays no part. *)
Theorem puzzle_rows_follow_the_clue_table :
  forall (validNumbers : list str),
    puzzle validNumbers = map (fun r => filter (satisfiesRow r) validNumbers) (seq 0 9)
    /\ length (puzzle validNumbers) = 9%nat
    /\ forall r s, In s (nth r (puzzle validNumbers) [])
         -> In s validNumbers /\ satisfiesRow r s = true.
Proof.
  intros validNumbers. split; [apply puzzle_by_table|]. split; [reflexivity|].
  intros r s Hin. destruct (Nat.lt_ge_cases r 9) as [Hr|Hr].
  - rewrite nth_puzzle in Hin by assumption. now apply filter_In in Hin.
  - rewrite nth_overflow in Hin by (simpl; lia). contradiction.
Qed.

Lemma cell_of_string s c :
  length s = 9%nat -> (c < 9)%nat -> nth c (map digit_of s) 0 = digit_of (charAt s c).
Proof.
  intros Hlen Hc. unfold charAt.
  rewrite (nth_indep _ 0 (digit_of zero)) by (rewrite length_map; lia).
  apply map_nth.
Qed.

Lemma pool_puzzle_valid pool : Forall validString pool -> validPuzzle (puzzle pool).
Proof.
  intros H r s _ Hin. apply puzzle_incl in Hin. rewrite Forall_forall in H. now apply H.
Qed.

(** X4. For a pool of valid strings and a positive [int] divisor, every grid
    the solver records for the filtered rows of the puzzle is made of nine
    rows of the pool, each satisfying the clue table of its row and being a
    multiple of the divisor; the nine fixed clues stand at their places; no
    row, column or box repeats a digit; and a zero stands in the first three
    columns. *)
Theorem recorded_grids_satisfy_the_puzzle :
  forall (pool : list str) (d : Z) (sols : list grid) (g : grid),
    Forall validString pool -> 0 < d <= INT_MAX ->
    runSolver (filteredPuzzle (puzzle pool) d) = Some sols -> In g sols ->
    length g = 9%nat
    /\ (forall r, (r < 9)%nat ->
          exists s, In s pool /\ nth r g [] = map digit_of s
                    /\ satisfiesRow r s = true /\ decimalValue s mod d = 0)
    /\ (cell g 0 7 = 2 /\ cell g 1 4 = 2 /\ cell g 1 8 = 5 /\ cell g 2 1 = 2
        /\ cell g 3 2 = 0 /\ cell g 5 3 = 2 /\ cell g 6 4 = 0 /\ cell g 7 5 = 2
        /\ cell g 8 6 = 5)
    /\ (forall r, (r < 9)%nat -> NoDup (nth r g []))
    /\ (forall c, (c < 9)%nat -> NoDup (column g c))
    /\ (forall b, (b < 9)%nat -> NoDup (box g b))
    /\ zeroInFirstColumns g.
Proof.
  intros pool d sols g Hpool Hd Hrun Hin.
  pose proof (pool_puzzle_valid pool Hpool) as Hvalid.
  destruct (runSolver_spec (puzzle pool) d Hvalid) as [sols' [Hrun' Hacc]].
  rewrite Hrun in Hrun'. apply Some_eq_inv in Hrun'. subst sols'.
  apply Hacc in Hin. destruct Hin as [Hlen [Hrows [Hcol [Hbox Hzero]]]].
  assert (Hrow : forall r, (r < 9)%nat ->
            exists s, In s pool /\ nth r g [] = map digit_of s
                      /\ satisfiesRow r s = true /\ decimalValue s mod d = 0
                      /\ validString s).
  { intros r Hr. specialize (Hrows r Hr).
    rewrite nth_digitsOfRows, nth_filteredPuzzle in Hrows.
    apply in_map_iff in Hrows. destruct Hrows as [s [Es Hs]].
    rewrite filterDivisible_filter in Hs. apply filter_In in Hs. destruct Hs as [Hs Hrem].
    rewrite nth_puzzle in Hs by assumption. apply filter_In in Hs. destruct Hs as [Hs Hsat].
    rewrite Forall_forall in Hpool. pose proof (Hpool s Hs) as Hv.
    destruct Hv as [Hl9 [Hnd Hdig]].
    exists s. split; [assumption|]. split; [now symmetry|]. split; [assumption|].
    split; [|now split].
    apply Z.eqb_eq in Hrem. rewrite remainderOf_mod in Hrem; (assumption || lia). }
  assert (Hclue : forall r c v,
            (r < 9)%nat -> (c < 9)%nat ->
            (forall s, satisfiesRow r s = true -> Ascii.eqb (charAt s c) v = true) ->
            cell g r c = digit_of v).
  { intros r c v Hr Hc Hsat. destruct (Hrow r Hr) as [s [_ [Eg [Hs [_ [Hl9 _]]]]]].
    unfold cell. rewrite Eg, cell_of_string by assumption.
    specialize (Hsat s Hs). apply Ascii.eqb_eq in Hsat. now rewrite Hsat. }
  split; [assumption|]. split.
  { intros r Hr. destruct (Hrow r Hr) as [s [H1 [H2 [H3 [H4 _]]]]]. now exists s. }
  split.
  { repeat split;
      match goal with
      | |- cell g ?r ?c = ?v =>
          apply (Hclue r c (ascii_of_N (N.of_nat 48 + Z.to_N v))); [lia|lia|];
          intros s Hs; unfold satisfiesRow in Hs;
          cbn [nth rowClues forallb fst snd] in Hs;
          apply andb_true_iff in Hs; destruct Hs as [Hs _];
          rewrite ?andb_true_iff in Hs; tauto
      end. }
  split.
  { intros r Hr. destruct (Hrow r Hr) as [s [_ [Eg [_ [_ Hv]]]]]. rewrite Eg.
    apply (validString_row s Hv). }
  split; [assumption|]. split; assumption.
Qed.

(** X4 at the rows of the known grid and the divisor 333667. *)
Lemma recorded_grids_witness :
  length knownGrid = 9%nat
  /\ (forall r, (r < 9)%nat ->
        exists s, In s knownRows /\ nth r knownGrid [] = map digit_of s
                  /\ satisfiesRow r s = true /\ decimalValue s mod 333667 = 0)
  /\ (cell knownGrid 0 7 = 2 /\ cell knownGrid 1 4 = 2 /\ cell knownGrid 1 8 = 5
      /\ cell knownGrid 2 1 = 2 /\ cell knownGrid 3 2 = 0 /\ cell knownGrid 5 3 = 2
      /\ cell knownGrid 6 4 = 0 /\ cell knownGrid 7 5 = 2 /\ cell knownGrid 8 6 = 5)
  /\ (forall r, (r < 9)%nat -> NoDup (nth r knownGrid []))
  /\ (forall c, (c < 9)%nat -> NoDup (column knownGrid c))
  /\ (forall b, (b < 9)%nat -> NoDup (box knownGrid b))
  /\ zeroInFirstColumns knownGrid.
Proof.
  apply (recorded_grids_satisfy_the_puzzle knownRows 333667 [knownGrid] knownGrid).
  - unfold knownRows. cbn [map].
    repeat (constructor; [apply validStringb_spec; vm_compute; reflexivity|]).
    constructor.
  - split; [lia|discriminate].
  - vm_compute. reflexivity.
  - now left.
Defined.

(** ** The list of candidate divisors *)

Ltac last_digit_case k q' r' :=
  match goal with
  | E : ?c mod 10 = k |- _ =>
      let H := fresh "H" in
      assert (H : (c - 1) mod 10 = r' /\ (c - 1) / 10 = q')
        by (clear - E; Z.div_mod_to_equations; lia);
      destruct H as [-> ->]; rewrite E; cbn -[Z.mul Z.add Z.div Z.sub]; lia
  end.

Lemma oddEndingsUpTo_step c :
  1 <= c ->
  oddEndingsUpTo c = oddEndingsUpTo (c - 1) + (if lastDigitOk c then 1 else 0).
Proof.
  intros Hc. unfold oddEndingsUpTo, lastDigitOk. rewrite Z.rem_mod_nonneg by lia.
  assert (Hr : 0 <= c mod 10 < 10) by (apply Z.mod_pos_bound; lia).
  assert (Hcases : c mod 10 = 0 \/ c mod 10 = 1 \/ c mod 10 = 2 \/ c mod 10 = 3
                   \/ c mod 10 = 4 \/ c mod 10 = 5 \/ c mod 10 = 6 \/ c mod 10 = 7
                   \/ c mod 10 = 8 \/ c mod 10 = 9) by lia.
  destruct Hcases as [E|[E|[E|[E|[E|[E|[E|[E|[E|E]]]]]]]]].
  - last_digit_case 0%Z (c / 10 - 1)%Z 9%Z.
  - last_digit_case 1%Z (c / 10)%Z 0%Z.
  - last_digit_case 2%Z (c / 10)%Z 1%Z.
  - last_digit_case 3%Z (c / 10)%Z 2%Z.
  - last_digit_case 4%Z (c / 10)%Z 3%Z.
  - last_digit_case 5%Z (c / 10)%Z 4%Z.
  - last_digit_case 6%Z (c / 10)%Z 5%Z.
  - last_digit_case 7%Z (c / 10)%Z 6%Z.
  - last_digit_case 8%Z (c / 10)%Z 7%Z.
  - last_digit_case 9%Z (c / 10)%Z 8%Z.
Qed.

Lemma candidateGCDsFrom_length fuel : forall c,
  336 <= c -> c - 337 < Z.of_nat fuel ->
  Z.of_nat (length (candidateGCDsFrom fuel c)) = oddEndingsUpTo c - oddEndingsUpTo 336.
Proof.
  induction fuel as [|fuel IH]; intros c Hc Hf.
  - assert (c = 336) by lia. subst c. simpl. lia.
  - destruct (Z.eq_dec c 336) as [->|Hne].
    + rewrite candidateGCDsFrom_below by lia. simpl. lia.
    + cbn [candidateGCDsFrom]. destruct (Z.geb_spec c 337) as [_|]; [|lia].
      rewrite (oddEndingsUpTo_step c) by lia.
      destruct (lastDigitOk c); cbn [length]; rewrite ?Nat2Z.inj_succ, IH; lia.
Qed.

Lemma candidateGCDs_unfold : candidateGCDs = candidateGCDsFrom (Z.to_nat 12345678) 12345678.
Proof. reflexivity. Qed.

Lemma sorted_NoDup (l : list Z) : StronglySorted (fun a b => b < a) l -> NoDup l.
Proof.
  induction 1 as [|a l Hs IH Ha]; constructor; [|assumption].
  rewrite Forall_forall in Ha. intros Hin. specialize (Ha a Hin). lia.
Qed.

(** X5. [candidateGCDs] lists exactly the integers from 337 to 12345678
    whose last decimal digit is 1, 3, 7 or 9, each once and in strictly
    decreasing order; each of them is coprime to 10, as the comment at
    line 302 says; there are 4938137 of them (the number line 311 prints),
    and the countdown ends by its own test, with fuel to spare. *)
Theorem candidateGCDs_enumerates_the_divisors :
  (forall d, In d candidateGCDs
             <-> 337 <= d <= 12345678
                 /\ (d mod 10 = 1 \/ d mod 10 = 3 \/ d mod 10 = 7 \/ d mod 10 = 9))
  /\ StronglySorted (fun a b => b < a) candidateGCDs
  /\ NoDup candidateGCDs
  /\ (forall d, In d candidateGCDs -> Z.gcd d 10 = 1)
  /\ Z.of_nat (length candidateGCDs) = 4938137
  /\ (forall fuel, 12345678 - 337 < Z.of_nat fuel ->
        candidateGCDsFrom fuel 12345678 = candidateGCDs).
Proof.
  split; [exact candidateGCDs_In|]. split; [exact candidateGCDs_sorted|].
  split; [apply sorted_NoDup, candidateGCDs_sorted|]. split; [|split].
  - intros d Hd. apply candidateGCDs_In in Hd. destruct Hd as [_ Hl].
    rewrite <- Z.gcd_mod_l. destruct Hl as [E|[E|[E|E]]]; rewrite E; reflexivity.
  - rewrite candidateGCDs_unfold, candidateGCDsFrom_length;
      [reflexivity|lia|apply fuel_of_candidateGCDs].
  - intros fuel Hf. rewrite candidateGCDs_unfold.
    apply candidateGCDsFrom_fuel; [assumption|apply fuel_of_candidateGCDs].
Qed.

(** ** The remainder loop for small moduli *)

(** X6. For a modulus up to 214748364 (a tenth of the largest [int]) the
    remainder loop cannot overflow on digits of any number: it computes the
    remainder of the decimal value, which stays in [0, d), and the filter
    keeps exactly the strings whose value is a multiple; the empty string
    counts as 0 and is kept. *)
Theorem remainder_loop_exact_for_small_moduli :
  forall (d : Z) (options : list str),
    0 < d <= 214748364 -> Forall (Forall isDigit) options ->
    (forall s, In s options ->
       remainderOf s d = decimalValue s mod d /\ 0 <= remainderOf s d < d)
    /\ filterDivisibleByCandidate options d
       = filter (fun s => decimalValue s mod d =? 0) options
    /\ filterDivisibleByCandidate [[]] d = [[]].
Proof.
  intros d options Hd Hopts.
  assert (Hrem : forall s, Forall isDigit s ->
            remainderOf s d = decimalValue s mod d /\ 0 <= remainderOf s d < d).
  { induction s as [|c s IH] using rev_ind; intros Hs.
    - split; [reflexivity|]. unfold remainderOf. simpl. lia.
    - apply Forall_app in Hs. destruct Hs as [Hs Hc]. inversion Hc as [|? ? Hdig _]; subst.
      destruct (IH Hs) as [E B]. rewrite remainderOf_app, decimalValue_app.
      assert (E' : remainderStep d (remainderOf s d) c
                   = (decimalValue s * 10 + digit_of c) mod d).
      { apply remainderStep_exact; try assumption; try lia.
        unfold isDigit in Hdig. change (2 ^ 31) with 2147483648. lia. }
      rewrite E'. split; [reflexivity|]. apply Z.mod_pos_bound. lia. }
  rewrite Forall_forall in Hopts. split; [|split].
  - intros s Hs. apply Hrem. now apply Hopts.
  - rewrite filterDivisible_filter. apply filter_ext_in. intros s Hs.
    now rewrite (proj1 (Hrem s (Hopts s Hs))).
  - reflexivity.
Qed.

(** X6 at the modulus 7 and strings of ten and of no digits. *)
Lemma remainder_loop_witness :
  (forall s, In s [lit "1234567890"; []; lit "0000000014"] ->
     remainderOf s 7 = decimalValue s mod 7 /\ 0 <= remainderOf s 7 < 7)
  /\ filterDivisibleByCandidate [lit "1234567890"; []; lit "0000000014"] 7
     = filter (fun s => decimalValue s mod 7 =? 0) [lit "1234567890"; []; lit "0000000014"]
  /\ filterDivisibleByCandidate [[]] 7 = [[]].
Proof.
  apply (remainder_loop_exact_for_small_moduli 7); [lia|].
  repeat (constructor; [apply forallb_isDigit; vm_compute; reflexivity|]). constructor.
Defined.

(** ** The calls of the divisor loop *)

Lemma iteration_calls d ls :
  exists ls' ctl,
    iteration d ls = Some (ls', ctl)
    /\ basePuzzle ls' = basePuzzle ls
    /\ events ls' = events ls ++ callsOf (basePuzzle ls) d
    /\ match ctl with
       | Break =>
           reported ls' = Some (d, iterationSolutions (basePuzzle ls) d)
           /\ iterationSolutions (basePuzzle ls) d <> []
       | Continue =>
           reported ls' = reported ls /\ iterationSolutions (basePuzzle ls) d = []
       end.
Proof.
  unfold iteration, iterationSolutions, callsOf.
  destruct (filterRows 9 0 (basePuzzle ls) d) as [[cp valid] evs] eqn:E.
  destruct valid; cbn [negb].
  - destruct (runSolver_returns cp) as [sols Es]. rewrite Es.
    destruct sols as [|g sols].
    + eexists _, Continue. split; [reflexivity|]. cbn. repeat split.
    + eexists _, Break. split; [reflexivity|]. cbn. repeat split. discriminate.
  - eexists _, Continue. split; [reflexivity|]. cbn. repeat split.
Qed.

Lemma divisorLoop_calls divisors : forall ls,
  exists ls' tried rest,
    divisorLoop divisors ls = Some ls'
    /\ divisors = tried ++ rest
    /\ basePuzzle ls' = basePuzzle ls
    /\ events ls' = events ls ++ flat_map (callsOf (basePuzzle ls)) tried
    /\ ((reported ls' = reported ls /\ rest = []
         /\ forall d, In d tried -> iterationSolutions (basePuzzle ls) d = [])
        \/ exists before d,
             tried = before ++ [d]
             /\ reported ls' = Some (d, iterationSolutions (basePuzzle ls) d)
             /\ iterationSolutions (basePuzzle ls) d <> []
             /\ forall d', In d' before -> iterationSolutions (basePuzzle ls) d' = []).
Proof.
  induction divisors as [|d divisors IH]; intros ls.
  - exists ls, [], []. cbn. rewrite app_nil_r.
    split; [reflexivity|]. split; [reflexivity|]. split; [reflexivity|].
    split; [reflexivity|]. left. split; [reflexivity|]. split; [reflexivity|intros d []].
  - destruct (iteration_calls d ls) as [ls1 [ctl [E1 [Hb1 [He1 Hc]]]]].
    cbn [divisorLoop]. rewrite E1. destruct ctl.
    + destruct Hc as [Hr1 Hs1].
      destruct (IH ls1) as [ls2 [tried [rest [E2 [Ed [Hb2 [He2 Hres]]]]]]].
      exists ls2, (d :: tried), rest. split; [assumption|].
      split; [cbn; now rewrite Ed|]. split; [congruence|]. split.
      * rewrite He2, He1, Hb1. cbn [flat_map]. now rewrite app_assoc.
      * rewrite Hb1 in Hres.
        destruct Hres as [[Hr2 [Hrest Hall]]|[before [d0 [Et [Hr2 [Hne Hbef]]]]]].
        -- left. split; [congruence|]. split; [assumption|].
           intros d' [<-|Hd']; [assumption|now apply Hall].
        -- right. exists (d :: before), d0. split; [cbn; now rewrite Et|].
           split; [assumption|]. split; [assumption|].
           intros d' [<-|Hd']; [assumption|now apply Hbef].
    + destruct Hc as [Hr1 Hne]. exists ls1, [d], divisors.
      split; [reflexivity|]. split; [reflexivity|]. split; [assumption|]. split.
      * rewrite He1. cbn [flat_map]. now rewrite app_nil_r.
      * right. exists [], d. split; [reflexivity|]. split; [assumption|].
        split; [assumption|intros d' []].
Qed.

(** X7. The search always returns.  The calls it has made are those of the
    iterations for an initial segment of [candidateGCDs], one iteration after
    the other; when it reports a divisor the segment ends with that divisor
    (nothing is filtered or solved after the report), and otherwise the
    segment is the whole list.  The base puzzle is what it was. *)
Theorem search_calls_stop_at_the_report :
  forall (puzzle : list (list str)),
    exists ls tried rest,
      searchDivisor puzzle = Some ls
      /\ basePuzzle ls = puzzle
      /\ candidateGCDs = tried ++ rest
      /\ events ls = flat_map (callsOf puzzle) tried
      /\ match reported ls with
         | Some (d, _) => exists before, tried = before ++ [d]
         | None => rest = []
         end.
Proof.
  intros puzzle. unfold searchDivisor.
  destruct (divisorLoop_calls candidateGCDs (mkLoop puzzle [] None))
    as [ls [tried [rest [E [Ed [Hb [He Hres]]]]]]].
  exists ls, tried, rest. cbn [basePuzzle events reported app] in *.
  split; [assumption|]. split; [assumption|]. split; [assumption|].
  split; [assumption|].
  destruct Hres as [[Hr [Hrest _]]|[before [d [Et [Hr _]]]]].
  - now rewrite Hr.
  - rewrite Hr. now exists before.
Qed.

(** The calls of one iteration: the solver is among them exactly when no
    row is left without candidate, and only for the divisor of the
    iteration. *)
Lemma callsOf_solver puzzle d :
  (In (CallSolveFixed d) (callsOf puzzle d)
   <-> forall r, (r < 9)%nat -> filterDivisibleByCandidate (nth r puzzle []) d <> [])
  /\ (forall d', In (CallSolveFixed d') (callsOf puzzle d) -> d' = d).
Proof.
  unfold callsOf. destruct (filterRows 9 0 puzzle d) as [[cp valid] evs] eqn:E.
  pose proof (filterRows_events _ _ _ _ _ _ _ E) as Hev.
  assert (Hno : forall d', ~ In (CallSolveFixed d') evs).
  { intros d' Hin. destruct (Hev _ Hin) as [i Hi]. discriminate. }
  destruct valid.
  - split.
    + split.
      * intros _ r Hr. apply filterRows_valid in E. destruct E as [_ [Hin _]].
        destruct (Hin r ltac:(lia)) as [E1 E2]. now rewrite <- E1.
      * intros _. apply in_or_app. right. now left.
    + intros d' Hin. apply in_app_or in Hin. destruct Hin as [Hin|[Hin|[]]].
      * now apply Hno in Hin.
      * now inversion Hin.
  - split.
    + split.
      * intros Hin. now apply Hno in Hin.
      * intros Hall. apply filterRows_false_has_empty in E. destruct E as [i [Hi Ei]].
        exfalso. apply (Hall i); [lia|assumption].
    + intros d' Hin. now apply Hno in Hin.
Qed.

(** X8. One iteration of the divisor loop, from any state: it calls the
    solver exactly when the divisor leaves no row without candidate, and for
    no other divisor.  Leaving early loses nothing: with [sols] what the
    solver finds on the nine filtered rows, an iteration that does not call
    the solver has [sols] empty; the iteration breaks and reports the divisor
    with [sols] when [sols] is not empty, and otherwise goes on with the
    report it had. *)
Theorem skipping_the_solver_loses_nothing :
  forall (d : Z) (ls : loop_state),
    exists ls' ctl evs sols,
      iteration d ls = Some (ls', ctl)
      /\ events ls' = events ls ++ evs
      /\ basePuzzle ls' = basePuzzle ls
      /\ runSolver (filteredPuzzle (basePuzzle ls) d) = Some sols
      /\ (In (CallSolveFixed d) evs
          <-> forall r, (r < 9)%nat ->
                filterDivisibleByCandidate (nth r (basePuzzle ls) []) d <> [])
      /\ (forall d', In (CallSolveFixed d') evs -> d' = d)
      /\ (~ In (CallSolveFixed d) evs -> sols = [])
      /\ match ctl with
         | Break => sols <> [] /\ reported ls' = Some (d, sols)
         | Continue => sols = [] /\ reported ls' = reported ls
         end.
Proof.
  intros d ls.
  destruct (iteration_calls d ls) as [ls' [ctl [E [Hb [He Hc]]]]].
  destruct (callsOf_solver (basePuzzle ls) d) as [Hcall Honly].
  exists ls', ctl, (callsOf (basePuzzle ls) d), (iterationSolutions (basePuzzle ls) d).
  split; [assumption|]. split; [assumption|]. split; [assumption|].
  split; [apply iterationSolutions_runSolver|]. split; [assumption|].
  split; [assumption|]. split.
  - intros Hnot. destruct ctl; [tauto|]. exfalso.
    destruct Hc as [_ Hne]. apply Hne. apply iterationSolutions_empty_row.
    (* some row is left empty, or the solver would have been called *)
    unfold callsOf in Hnot.
    destruct (filterRows 9 0 (basePuzzle ls) d) as [[cp valid] evs] eqn:Ef.
    destruct valid.
    + exfalso. apply Hnot. apply in_or_app. right. now left.
    + apply filterRows_false_has_empty in Ef. destruct Ef as [i [Hi Ei]].
      exists i. split; [lia|assumption].
  - destruct ctl; tauto.
Qed.

(** X9. What the search reports is decided by the solver alone: it reports
    the divisor [d] with the solutions [sols] exactly when [d] is enumerated,
    [sols] is the non-empty list the solver finds on the rows filtered for
    [d], and the solver finds nothing for any greater enumerated divisor; it
    reports nothing exactly when the solver finds nothing for every
    enumerated divisor. *)
Theorem search_reports_the_greatest_divisor_or_nothing :
  forall (puzzle : list (list str)),
    exists ls,
      searchDivisor puzzle = Some ls
      /\ (forall d sols,
            reported ls = Some (d, sols)
            <-> enumerated d
                /\ runSolver (filteredPuzzle puzzle d) = Some sols
                /\ sols <> []
                /\ forall d', enumerated d' -> d < d' ->
                     runSolver (filteredPuzzle puzzle d') = Some [])
      /\ (reported ls = None
          <-> forall d, enumerated d -> runSolver (filteredPuzzle puzzle d) = Some []).
Proof.
  intros puzzle. unfold searchDivisor.
  destruct (divisorLoop_spec candidateGCDs (mkLoop puzzle [] None))
    as [ls [evs [E [_ [_ [_ Hres]]]]]].
  exists ls. split; [assumption|]. cbn [basePuzzle reported] in Hres.
  assert (Hsol : forall d sols, runSolver (filteredPuzzle puzzle d) = Some sols
                                <-> iterationSolutions puzzle d = sols).
  { intros d sols. rewrite iterationSolutions_runSolver. split; [apply Some_eq_inv|congruence]. }
  destruct Hres as [[Hr Hall]|[before [d0 [after [Ed [Hr [Hne Hbef]]]]]]].
  - split.
    + intros d sols. rewrite Hr. split; [discriminate|].
      intros [Hd [Hrun [Hn _]]]. apply Hsol in Hrun. apply candidateGCDs_In in Hd.
      rewrite (Hall d Hd) in Hrun. congruence.
    + rewrite Hr. split; [|reflexivity]. intros _ d Hd. apply Hsol.
      apply Hall. now apply candidateGCDs_In.
  - assert (Hd0 : In d0 candidateGCDs) by (rewrite Ed; apply in_elt).
    pose proof candidateGCDs_sorted as Hs. rewrite Ed in Hs.
    assert (Habove : forall d', enumerated d' -> d0 < d' -> In d' before).
    { intros d' Hd' Hlt. apply candidateGCDs_In in Hd'. rewrite Ed in Hd'.
      apply in_app_or in Hd'. destruct Hd' as [Hb|[->|Ha]]; [assumption|lia|].
      pose proof (sorted_after_head _ _ _ Hs d' Ha). lia. }
    split.
    + intros d sols. rewrite Hr. split.
      * intros Heq. inversion Heq; subst d sols.
        split; [now apply candidateGCDs_In|]. split; [now apply Hsol|].
        split; [assumption|]. intros d' Hd' Hlt. apply Hsol. apply Hbef.
        now apply Habove.
      * intros [Hd [Hrun [Hn Hgt]]]. apply Hsol in Hrun.
        destruct (Z.lt_trichotomy d d0) as [Hlt|[->|Hlt]].
        -- exfalso. apply Hne. apply Hsol. apply Hgt; [now apply candidateGCDs_In|assumption].
        -- now rewrite Hrun.
        -- exfalso. apply Hn. rewrite <- Hrun. apply Hbef. now apply Habove.
    + rewrite Hr. split; [discriminate|]. intros Hall. exfalso. apply Hne.
      apply Hsol. apply Hall. now apply candidateGCDs_In.
Qed.

(** ** The strings of the generator *)

Lemma charLt_trans a b c : charLt a b -> charLt b c -> charLt a c.
Proof. unfold charLt. lia. Qed.

Lemma charLt_irrefl a : ~ charLt a a.
Proof. unfold charLt. lia. Qed.

Lemma lexLt_neq s t : lexLt s t -> s <> t.
Proof.
  induction 1 as [a b s t Hab|a s t Hst IH]; intros E; inversion E; subst.
  - now apply (charLt_irrefl b).
  - now apply IH.
Qed.

Lemma lexLt_trans s t u : lexLt s t -> lexLt t u -> lexLt s u.
Proof.
  intros H. revert u. induction H as [a b s t Hab|a s t Hst IH]; intros u Hu;
    inversion Hu; subst.
  - apply lexLt_head. now apply charLt_trans with b.
  - now apply lexLt_head.
  - now apply lexLt_head.
  - apply lexLt_tail. now apply IH.
Qed.

Lemma swap_greater x t : forall z t'',
  swapWithLastGreater x t = Some (z, t'') -> charLt x z.
Proof.
  induction t as [|y t IH]; intros z t'' H; simpl in H; [discriminate|].
  destruct (swapWithLastGreater x t) as [[z' t1]|] eqn:E.
  - inversion H; subst. now apply (IH z t1).
  - destruct (Ascii.ltb x y) eqn:El; [|discriminate]. inversion H; subst.
    now apply ltb_charLt.
Qed.

(** A successful call leads to a greater string. *)
Lemma next_permutation_increases l : forall l',
  next_permutation l = Some l' -> lexLt l l'.
Proof.
  induction l as [|x t IH]; intros l' H; simpl in H; [discriminate|].
  destruct (next_permutation t) as [t'|].
  - inversion H; subst. apply lexLt_tail. now apply IH.
  - destruct t as [|y t0]; [discriminate|].
    destruct (Ascii.ltb x y); [|discriminate].
    destruct (swapWithLastGreater x (y :: t0)) as [[z t'']|] eqn:E; [|discriminate].
    inversion H; subst. apply lexLt_head. now apply (swap_greater x (y :: t0) z t'').
Qed.

Lemma visited_from k : forall l v, In v (visited k l) -> v = l \/ lexLt l v.
Proof.
  induction k as [|k IH]; intros l v H; cbn [visited] in H.
  - destruct H as [<-|[]]. now left.
  - destruct H as [<-|H]; [now left|].
    destruct (next_permutation l) as [l'|] eqn:E; [|contradiction].
    apply next_permutation_increases in E. right.
    destruct (IH l' v H) as [->|Hlt]; [assumption|now apply lexLt_trans with l'].
Qed.

Lemma visited_NoDup k : forall l, NoDup (visited k l).
Proof.
  induction k as [|k IH]; intros l; cbn [visited].
  - constructor; [intros []|constructor].
  - constructor.
    + destruct (next_permutation l) as [l'|] eqn:E; [|intros []].
      apply next_permutation_increases in E. intros Hin.
      destruct (visited_from k l' l Hin) as [->|Hlt].
      * now apply (lexLt_neq l' l').
      * apply (lexLt_neq l l); [|reflexivity]. now apply lexLt_trans with l'.
    + destruct (next_permutation l) as [l'|]; [apply IH|constructor].
Qed.

Lemma NoDup_flat_map {A B : Type} (f : A -> list B) (l : list A) :
  NoDup l -> (forall x, In x l -> NoDup (f x)) ->
  (forall x y b, In x l -> In y l -> In b (f x) -> In b (f y) -> x = y) ->
  NoDup (flat_map f l).
Proof.
  induction 1 as [|a l Ha Hnd IH]; intros Hf Hdisj; simpl; [constructor|].
  apply NoDup_app.
  - apply Hf. now left.
  - apply IH.
    + intros x Hx. apply Hf. now right.
    + intros x y b Hx Hy. apply Hdisj; now right.
  - intros b Hb Hb'. apply in_flat_map in Hb'. destruct Hb' as [y [Hy Hby]].
    assert (a = y) by (apply (Hdisj a y b); auto; [now left|now right]).
    subst. contradiction.
Qed.

Lemma shards_disjoint s s' v :
  In s digitChars -> In s' digitChars -> In v (shardOf s) -> In v (shardOf s') -> s = s'.
Proof.
  intros Hs Hs' Hv Hv'.
  destruct (shardOf_valid s v Hs Hv) as [_ Hin].
  destruct (shardOf_valid s' v Hs' Hv') as [_ Hin'].
  destruct (Ascii.eqb_spec s s') as [|Hne]; [assumption|]. exfalso.
  assert (H : In s' v) by (apply Hin; split; [assumption|congruence]).
  apply Hin' in H. now apply (proj2 H).
Qed.

Lemma allowedSkips_length required :
  NoDup required -> (forall d, In d required -> In d digitChars) ->
  (length (allowedSkips required) + length required = 10)%nat.
Proof.
  intros Hnd Hreq.
  pose proof (filter_partition_length (fun s => negb (existsb (Ascii.eqb s) required))
                digitChars) as Hp.
  change (length digitChars) with 10%nat in Hp. unfold allowedSkips. rewrite <- Hp.
  f_equal. symmetry. apply Permutation_length. apply NoDup_Permutation.
  - apply NoDup_filter. apply digitChars_NoDup.
  - assumption.
  - intros d. rewrite filter_In, negb_involutive, existsb_eqb_In.
    split; [tauto|]. intros Hd. split; [now apply Hreq|assumption].
Qed.

(** The strings of the allowed shards, one after the other, are pairwise
    distinct and valid. *)
Lemma shards_NoDup required : NoDup (flat_map shardOf (allowedSkips required)).
Proof.
  apply NoDup_flat_map.
  - apply NoDup_filter, digitChars_NoDup.
  - intros s _. apply visited_NoDup.
  - intros s s' v Hs Hs'. apply allowedSkips_spec in Hs, Hs'.
    apply shards_disjoint; tauto.
Qed.

Lemma shards_valid required :
  Forall validString (flat_map shardOf (allowedSkips required)).
Proof.
  apply Forall_forall. intros v Hv. apply in_flat_map in Hv.
  destruct Hv as [s [Hs Hv]]. apply allowedSkips_spec in Hs.
  now apply (shardOf_valid s v (proj1 Hs)).
Qed.

(** X10. For every set [R] of required digits (a list without repeats) the
    generator returns, with the fuel it is run with, a list that holds each
    string of nine pairwise distinct digits containing all of [R] exactly
    once, and nothing else: [(10 - |R|) * 9!] strings.  When all ten digits
    are required the list is empty. *)
Theorem generator_lists_each_valid_string_once :
  forall (R : list ascii),
    NoDup R -> (forall d, In d R -> In d digitChars) ->
    exists validNumbers,
      generate R = Some validNumbers
      /\ NoDup validNumbers
      /\ (forall v, In v validNumbers
                    <-> validString v /\ forall d, In d R -> In d v)
      /\ Z.of_nat (length validNumbers) = (10 - Z.of_nat (length R)) * 362880
      /\ (length R = 10%nat -> validNumbers = []).
Proof.
  intros R Hnd HR. exists (flat_map shardOf (allowedSkips R)).
  split; [now apply generate_spec|].
  assert (Hlen : Z.of_nat (length (flat_map shardOf (allowedSkips R)))
                 = (10 - Z.of_nat (length R)) * 362880).
  { rewrite (flat_map_length_const shardOf _ (fact 9)).
    - rewrite Nat2Z.inj_mul, fact_9. pose proof (allowedSkips_length R Hnd HR). lia.
    - intros s Hs. apply allowedSkips_spec in Hs. apply shardOf_length. tauto. }
  split; [|split; [|split; [assumption|]]].
  - apply shards_NoDup.
  - intros v. rewrite in_flat_map. split.
    + intros [s [Hs Hv]]. apply allowedSkips_spec in Hs. destruct Hs as [Hs Hnot].
      destruct (shardOf_valid s v Hs Hv) as [Hvalid Hin]. split; [assumption|].
      intros d Hd. apply Hin. split; [now apply HR|]. intros ->. contradiction.
    + intros [Hvalid Hreq].
      destruct (validString_missing_digit v Hvalid) as [s [Hs [Hnot Hperm]]].
      exists s. split; [|now apply shardOf_complete].
      apply allowedSkips_spec. split; [assumption|]. intros Hin. apply Hnot.
      now apply Hreq.
  - intros H10. rewrite H10 in Hlen.
    destruct (flat_map shardOf (allowedSkips R)); [reflexivity|simpl in Hlen; lia].
Qed.

(** X10 at the required digits of the program. *)
Lemma generator_lists_witness :
  exists validNumbers,
    generate requiredDigits = Some validNumbers
    /\ NoDup validNumbers
    /\ (forall v, In v validNumbers
                  <-> validString v /\ forall d, In d requiredDigits -> In d v)
    /\ Z.of_nat (length validNumbers) = (10 - Z.of_nat (length requiredDigits)) * 362880
    /\ (length requiredDigits = 10%nat -> validNumbers = []).
Proof.
  apply (generator_lists_each_valid_string_once requiredDigits).
  - apply nodupb_NoDup. reflexivity.
  - exact requiredDigits_digits.
Defined.

(** ** The sort before the permutations *)

Lemma sorted_filter {A : Type} (R : A -> A -> Prop) (f : A -> bool) (l : list A) :
  StronglySorted R l -> StronglySorted R (filter f l).
Proof.
  induction 1 as [|a l Hs IH Ha]; simpl; [constructor|].
  destruct (f a); [|assumption]. constructor; [assumption|].
  rewrite Forall_forall in *. intros x Hx. apply Ha. now apply filter_In in Hx.
Qed.

Lemma sortChars_ascending l : ascending l -> sortChars l = l.
Proof.
  induction 1 as [|a l Hs IH Ha]; simpl; [reflexivity|].
  rewrite IH. destruct l as [|x l]; [reflexivity|]. simpl.
  inversion Ha as [|? ? Hax _]; subst.
  assert (E : Ascii.leb a x = true) by (apply leb_le; unfold charLt in Hax; lia).
  now rewrite E.
Qed.

Lemma digitChars_ascending : ascending digitChars.
Proof. unfold ascending, digitChars. repeat constructor. Qed.

(** X11. The digits collected for a worker are already in ascending order,
    so the call of [sort] at line 138 changes nothing: the string the
    permutations start from is the ten digits with the excluded one left
    out, in ascending order, nine characters long when the excluded
    character is a digit and all ten digits otherwise. *)
Theorem sorting_the_digits_changes_nothing :
  forall (skipDigit : ascii),
    digitsWithout skipDigit
    = filter (fun d => negb (Ascii.eqb d skipDigit)) digitChars
    /\ ascending (digitsWithout skipDigit)
    /\ (In skipDigit digitChars <-> length (digitsWithout skipDigit) = 9%nat)
    /\ (~ In skipDigit digitChars <-> digitsWithout skipDigit = digitChars).
Proof.
  intros skipDigit.
  assert (Hasc : ascending (filter (fun d => negb (Ascii.eqb d skipDigit)) digitChars))
    by (apply sorted_filter, digitChars_ascending).
  assert (E : digitsWithout skipDigit
              = filter (fun d => negb (Ascii.eqb d skipDigit)) digitChars)
    by (unfold digitsWithout; now apply sortChars_ascending).
  split; [assumption|]. split; [now rewrite E|].
  assert (Hout : ~ In skipDigit digitChars -> digitsWithout skipDigit = digitChars).
  { intros Hn. rewrite E. apply forallb_filter_id. apply forallb_forall.
    intros d Hd. apply negb_true_iff, Ascii.eqb_neq. intros ->. contradiction. }
  split; [split|split].
  - intros Hin. now apply digitsWithout_sorted.
  - intros Hlen. destruct (in_dec ascii_dec skipDigit digitChars) as [|Hn]; [assumption|].
    rewrite (Hout Hn) in Hlen. discriminate.
  - assumption.
  - intros Heq Hin. apply digitsWithout_sorted in Hin. rewrite Heq in Hin.
    destruct Hin as [_ Hlen]. discriminate.
Qed.

(** ** The solver records no grid twice *)

Section SearchNoDup.

Variable candidates : list (list (list Z)).
Hypothesis candidates_valid : validCandidates candidates.
Hypothesis candidates_nodup : forall r, (r < 9)%nat -> NoDup (nth r candidates []).

Lemma solveFixed_new_NoDup : forall fuel pos st st' new,
  (pos <= 9)%nat -> (9 - pos < fuel)%nat -> solverInv pos st ->
  solveFixed fuel candidates pos st = Some st' ->
  allSolutions st' = allSolutions st ++ new -> NoDup new.
Proof.
  induction fuel as [|fuel IH]; intros pos st st' new Hpos Hfuel Hinv E Hall; [lia|].
  rewrite solveFixed_unfold in E. destruct (Nat.eqb_spec pos 9) as [->|Hne].
  - apply Some_eq_inv in E. subst st'.
    destruct (hasZeroInFirstColumns (solution st)).
    + cbn in Hall. apply app_inv_head in Hall. subst new.
      constructor; [intros []|constructor].
    + rewrite <- (app_nil_r (allSolutions st)) in Hall at 1.
      apply app_inv_head in Hall. subst new. constructor.
  - assert (Hlt : (pos < 9)%nat) by lia.
    assert (IH' : forall st2, solverInv (pos + 1) st2 ->
              exists st3 new, solveFixed fuel candidates (pos + 1) st2 = Some st3
                /\ returnsWith (pos + 1) st2 st3 new
                /\ forall g, In g new <-> completes candidates (pos + 1) (solution st2) g).
    { intros st2 Hinv2. apply solveFixed_spec; [assumption|lia|lia|assumption]. }
    fold (rowAt pos) in E.
    pose proof (candidates_nodup _ (rowAt_lt pos Hlt)) as Hnd.
    pose proof (incl_refl (nth (rowAt pos) candidates [])) as Hincl.
    revert st st' new Hinv E Hall Hnd Hincl.
    assert (Hloop : forall cands st st' new,
              solverInv pos st ->
              forCandidates (tryCandidate (solveFixed fuel candidates (pos + 1)) (rowAt pos))
                cands st = Some st' ->
              allSolutions st' = allSolutions st ++ new ->
              NoDup cands -> incl cands (nth (rowAt pos) candidates []) -> NoDup new);
      [|intros st st' new Hinv E Hall Hnd Hincl;
        now apply (Hloop (nth (rowAt pos) candidates []) st st' new)].
    induction cands as [|cand cands IHc]; intros st st' new Hinv E Hall Hnd Hincl.
    + apply Some_eq_inv in E. subst st'.
      rewrite <- (app_nil_r (allSolutions st)) in Hall at 1.
      apply app_inv_head in Hall. subst new. constructor.
    + cbn [forCandidates] in E.
      destruct (tryCandidate_spec candidates candidates_valid fuel pos st cand Hlt Hinv
                  (Hincl _ (or_introl eq_refl)) IH') as [st1 [new1 [E1 [Hret1 Hnew1]]]].
      rewrite E1 in E.
      pose proof (returnsWith_inv _ _ _ _ Hinv Hret1) as Hinv1.
      destruct (forCandidates_spec candidates candidates_valid fuel pos Hlt IH' cands st1
                  (fun x Hx => Hincl x (or_intror Hx)) Hinv1)
        as [st2 [new2 [E2 [Hret2 Hnew2]]]].
      assert (Est : st2 = st') by congruence. subst st2.
      destruct Hret1 as [_ [_ [_ [_ [_ Rall1]]]]].
      destruct Hret2 as [_ [_ [_ [_ [_ Rall2]]]]].
      assert (Enew : new = new1 ++ new2).
      { rewrite Rall2, Rall1, <- app_assoc in Hall. now apply app_inv_head in Hall. }
      inversion Hnd as [|? ? Hnotin Hnd']; subst.
      apply NoDup_app.
      * (* the grids of the first candidate *)
        unfold tryCandidate in E1.
        destruct (hasConflict (countTry st) (rowAt pos) cand).
        -- apply Some_eq_inv in E1. subst st1. cbn in Rall1.
           rewrite <- (app_nil_r (allSolutions st)) in Rall1 at 1.
           apply app_inv_head in Rall1. subst new1. constructor.
        -- pose proof (candidates_valid _ _ (rowAt_lt pos Hlt) (Hincl _ (or_introl eq_refl)))
             as Hrow.
           destruct (commit_inv pos st cand Hlt Hinv Hrow) as [Hinv2 [_ [_ Ea]]].
           destruct (solveFixed fuel candidates (pos + 1)
                       (commit (rowAt pos) cand (countTry st))) as [st3|] eqn:E3;
             [|discriminate].
           apply Some_eq_inv in E1. subst st1. cbn in Rall1.
           apply (IH (pos + 1)%nat (commit (rowAt pos) cand (countTry st)) st3 new1);
             [lia|lia|assumption|assumption|now rewrite Ea].
      * apply (IHc st1 st' new2); try assumption.
        intros x Hx. apply Hincl. now right.
      * intros g Hg1 Hg2. apply Hnew1 in Hg1. apply Hnew2 in Hg2.
        destruct Hg1 as [_ Eg]. destruct Hg2 as [_ Hin]. rewrite Eg in Hin. contradiction.
Qed.

End SearchNoDup.

Lemma map_digit_of_inj (s t : str) : map digit_of s = map digit_of t -> s = t.
Proof.
  revert t. induction s as [|a s IH]; intros [|b t] H; try discriminate; [reflexivity|].
  inversion H as [[Hab Hst]]. apply digit_of_inj in Hab. apply IH in Hst. congruence.
Qed.

Lemma candidates_NoDup puzzle d :
  (forall r, (r < 9)%nat -> NoDup (nth r puzzle [])) ->
  forall r, (r < 9)%nat -> NoDup (nth r (digitsOfRows (filteredPuzzle puzzle d)) []).
Proof.
  intros Hnd r Hr. rewrite nth_digitsOfRows, nth_filteredPuzzle.
  apply NoDup_map_of_injective.
  - rewrite filterDivisible_filter. apply NoDup_filter. now apply Hnd.
  - intros x y _ _. apply map_digit_of_inj.
Qed.

Lemma runSolver_NoDup puzzle d sols :
  validPuzzle puzzle -> (forall r, (r < 9)%nat -> NoDup (nth r puzzle [])) ->
  runSolver (filteredPuzzle puzzle d) = Some sols -> NoDup sols.
Proof.
  intros Hp Hnd E. unfold runSolver in E.
  destruct (solveFixed 10 (digitsOfRows (filteredPuzzle puzzle d)) 0 initialState)
    as [st|] eqn:Es; [|discriminate].
  apply Some_eq_inv in E. subst sols.
  apply (solveFixed_new_NoDup _ (validPuzzle_candidates puzzle d Hp)
           (candidates_NoDup puzzle d Hnd) 10 0 initialState st);
    [lia|lia|apply initialState_inv|assumption|reflexivity].
Qed.

(** X12. When no row of a valid puzzle lists a candidate string twice, the
    solver records every accepted grid exactly once, so the number of
    solutions the program prints is the number of different accepted
    grids. *)
Theorem solver_records_each_grid_once :
  forall (puzzle : list (list str)) (d : Z),
    validPuzzle puzzle -> (forall r, (r < 9)%nat -> NoDup (nth r puzzle [])) ->
    exists sols,
      runSolver (filteredPuzzle puzzle d) = Some sols
      /\ NoDup sols
      /\ forall g, In g sols <-> acceptedGrid (digitsOfRows (filteredPuzzle puzzle d)) g.
Proof.
  intros puzzle d Hp Hnd. destruct (runSolver_spec puzzle d Hp) as [sols [E Hacc]].
  exists sols. split; [assumption|]. split; [|assumption].
  now apply (runSolver_NoDup puzzle d).
Qed.

Lemma knownPuzzle_NoDup : forall r, (r < 9)%nat -> NoDup (nth r knownPuzzle []).
Proof.
  intros r Hr. do 9 (destruct r as [|r]; [constructor; [intros []|constructor]|]). lia.
Qed.

(** X12 at the known puzzle and the divisor 333667. *)
Lemma solver_records_once_witness :
  exists sols,
    runSolver (filteredPuzzle knownPuzzle 333667) = Some sols
    /\ NoDup sols
    /\ forall g, In g sols
         <-> acceptedGrid (digitsOfRows (filteredPuzzle knownPuzzle 333667)) g.
Proof.
  apply (solver_records_each_grid_once knownPuzzle 333667).
  - exact knownPuzzle_valid.
  - exact knownPuzzle_NoDup.
Defined.

(** ** The order in which the workers merge *)

Lemma filter_Permutation {A : Type} (f : A -> bool) (l l' : list A) :
  Permutation l l' -> Permutation (filter f l) (filter f l').
Proof.
  induction 1 as [|x l l' _ IH|x y l|l l' l'' _ IH1 _ IH2]; simpl.
  - constructor.
  - destruct (f x); [now constructor|assumption].
  - destruct (f x), (f y); try apply Permutation_refl. apply perm_swap.
  - now apply Permutation_trans with (filter f l').
Qed.

Lemma flat_map_Permutation {A B : Type} (f : A -> list B) (l l' : list A) :
  Permutation l l' -> Permutation (flat_map f l) (flat_map f l').
Proof.
  induction 1 as [|x l l' _ IH|x y l|l l' l'' _ IH1 _ IH2]; simpl.
  - constructor.
  - now apply Permutation_app_head.
  - rewrite !app_assoc. apply Permutation_app_tail, Permutation_app_comm.
  - now apply Permutation_trans with (flat_map f l').
Qed.

(** Two puzzles whose rows hold the same strings, none twice, have the same
    solutions at every divisor. *)
Lemma iterationSolutions_Permutation p p' d :
  validPuzzle p -> validPuzzle p' ->
  (forall r, (r < 9)%nat -> NoDup (nth r p [])) ->
  (forall r, (r < 9)%nat -> NoDup (nth r p' [])) ->
  (forall r, (r < 9)%nat -> Permutation (nth r p []) (nth r p' [])) ->
  Permutation (iterationSolutions p d) (iterationSolutions p' d).
Proof.
  intros Hv Hv' Hnd Hnd' Hperm.
  destruct (runSolver_spec p d Hv) as [sols [E Hacc]].
  destruct (runSolver_spec p' d Hv') as [sols' [E' Hacc']].
  pose proof (runSolver_NoDup p d sols Hv Hnd E) as N.
  pose proof (runSolver_NoDup p' d sols' Hv' Hnd' E') as N'.
  rewrite iterationSolutions_runSolver in E, E'.
  apply Some_eq_inv in E, E'. rewrite E, E'.
  assert (Hincl : forall q q', (forall r, (r < 9)%nat -> Permutation (nth r q []) (nth r q' [])) ->
            forall r, (r < 9)%nat ->
              incl (nth r (digitsOfRows (filteredPuzzle q d)) [])
                   (nth r (digitsOfRows (filteredPuzzle q' d)) [])).
  { intros q q' Hq r Hr. rewrite !nth_digitsOfRows, !nth_filteredPuzzle.
    apply incl_map, filterDivisible_mono. intros s. apply Permutation_in. now apply Hq. }
  apply NoDup_Permutation; [assumption|assumption|].
  intros g. rewrite Hacc, Hacc'. split; apply acceptedGrid_mono; apply Hincl.
  - assumption.
  - intros r Hr. apply Permutation_sym. now apply Hperm.
Qed.

(** What the search reports, in terms of the solutions of the iterations. *)
Lemma search_result puzzle :
  exists ls,
    searchDivisor puzzle = Some ls
    /\ ((reported ls = None /\ forall d, enumerated d -> iterationSolutions puzzle d = [])
        \/ exists d,
             enumerated d
             /\ reported ls = Some (d, iterationSolutions puzzle d)
             /\ iterationSolutions puzzle d <> []
             /\ forall d', enumerated d' -> d < d' -> iterationSolutions puzzle d' = []).
Proof.
  unfold searchDivisor.
  destruct (divisorLoop_spec candidateGCDs (mkLoop puzzle [] None))
    as [ls [evs [E [_ [_ [_ Hres]]]]]].
  exists ls. split; [assumption|]. cbn [basePuzzle reported] in Hres.
  destruct Hres as [[Hr Hall]|[before [d0 [after [Ed [Hr [Hne Hbef]]]]]]].
  - left. split; [assumption|]. intros d Hd. apply Hall. now apply candidateGCDs_In.
  - right. exists d0.
    assert (Hd0 : In d0 candidateGCDs) by (rewrite Ed; apply in_elt).
    pose proof candidateGCDs_sorted as Hs. rewrite Ed in Hs.
    split; [now apply candidateGCDs_In|]. split; [assumption|]. split; [assumption|].
    intros d' Hd' Hlt. apply Hbef. apply candidateGCDs_In in Hd'. rewrite Ed in Hd'.
    apply in_app_or in Hd'. destruct Hd' as [Hb|[->|Ha]]; [assumption|lia|].
    pose proof (sorted_after_head _ _ _ Hs d' Ha). lia.
Qed.

Lemma search_Permutation p p' :
  (forall d, Permutation (iterationSolutions p d) (iterationSolutions p' d)) ->
  exists ls ls',
    searchDivisor p = Some ls /\ searchDivisor p' = Some ls'
    /\ match reported ls, reported ls' with
       | Some (d, sols), Some (d', sols') => d = d' /\ Permutation sols sols'
       | None, None => True
       | _, _ => False
       end.
Proof.
  intros Hperm.
  assert (Hnil : forall d, iterationSolutions p d = [] <-> iterationSolutions p' d = []).
  { intros d. split; intros E; pose proof (Hperm d) as H; rewrite E in H.
    - now apply Permutation_nil in H.
    - apply Permutation_sym in H. now apply Permutation_nil in H. }
  destruct (search_result p) as [ls [E Hres]].
  destruct (search_result p') as [ls' [E' Hres']].
  exists ls, ls'. split; [assumption|]. split; [assumption|].
  destruct Hres as [[Hr Hall]|[d [Hd [Hr [Hne Hgt]]]]];
    destruct Hres' as [[Hr' Hall']|[d' [Hd' [Hr' [Hne' Hgt']]]]]; rewrite Hr, Hr'.
  - exact I.
  - apply Hne'. apply Hnil. now apply Hall.
  - apply Hne. apply Hnil. now apply Hall'.
  - destruct (Z.lt_trichotomy d d') as [Hlt|[->|Hlt]].
    + exfalso. apply Hne'. apply Hnil. now apply Hgt.
    + split; [reflexivity|apply Hperm].
    + exfalso. apply Hne. apply Hnil. now apply Hgt'.
Qed.

(** X13. The workers append their strings under the lock, each block whole,
    in the order in which they finish.  Whatever that order is - any
    permutation [order] of the ten digits in place of the creation order -
    the generator returns the same strings up to their order, every row of
    the base puzzle holds the same candidates, and the search reports the
    same divisor with the same solutions up to their order, or nothing in
    both cases. *)
Theorem merge_order_does_not_change_the_result :
  forall (R order : list ascii),
    (forall d, In d R -> In d digitChars) -> Permutation order digitChars ->
    exists validNumbers validNumbers' ls ls',
      generate R = Some validNumbers
      /\ generateFrom R order [] = Some validNumbers'
      /\ Permutation validNumbers validNumbers'
      /\ (forall r, Permutation (nth r (puzzle validNumbers) [])
                                (nth r (puzzle validNumbers') []))
      /\ searchDivisor (puzzle validNumbers) = Some ls
      /\ searchDivisor (puzzle validNumbers') = Some ls'
      /\ match reported ls, reported ls' with
         | Some (d, sols), Some (d', sols') => d = d' /\ Permutation sols sols'
         | None, None => True
         | _, _ => False
         end.
Proof.
  intros R order HR Horder.
  set (vn := flat_map shardOf (allowedSkips R)).
  set (vn' := flat_map shardOf
                (filter (fun s => negb (existsb (Ascii.eqb s) R)) order)).
  assert (Hp : Permutation vn vn').
  { apply flat_map_Permutation. unfold allowedSkips.
    apply filter_Permutation. now apply Permutation_sym. }
  assert (Hrows : forall r, Permutation (nth r (puzzle vn) []) (nth r (puzzle vn') [])).
  { intros r. destruct (Nat.lt_ge_cases r 9) as [Hr|Hr].
    - rewrite !nth_puzzle by assumption. now apply filter_Permutation.
    - rewrite !nth_overflow; [constructor| |];
        rewrite puzzle_by_table, length_map, length_seq; assumption. }
  assert (Hvalid : Forall validString vn) by apply shards_valid.
  assert (Hvalid' : Forall validString vn').
  { apply Forall_forall. intros v Hv. rewrite Forall_forall in Hvalid. apply Hvalid.
    apply Permutation_in with vn'; [now apply Permutation_sym|assumption]. }
  assert (Hnd : NoDup vn) by apply shards_NoDup.
  assert (Hnd' : NoDup vn') by (now apply Permutation_NoDup with vn).
  destruct (search_Permutation (puzzle vn) (puzzle vn')) as [ls [ls' [E [E' Hres]]]].
  { intros d. apply iterationSolutions_Permutation.
    - now apply pool_puzzle_valid.
    - now apply pool_puzzle_valid.
    - intros r Hr. rewrite nth_puzzle by assumption. now apply NoDup_filter.
    - intros r Hr. rewrite nth_puzzle by assumption. now apply NoDup_filter.
    - intros r _. apply Hrows. }
  exists vn, vn', ls, ls'.
  split; [now apply generate_spec|]. split.
  { rewrite (generateFrom_spec R HR order []); [reflexivity|].
    intros x Hx. now apply Permutation_in with order. }
  split; [assumption|]. split; [assumption|]. split; [assumption|]. split; assumption.
Qed.

(** X13 for the required digits of the program and the workers merging in
    the reverse of their creation order. *)
Lemma merge_order_witness :
  exists validNumbers validNumbers' ls ls',
    generate requiredDigits = Some validNumbers
    /\ generateFrom requiredDigits (rev digitChars) [] = Some validNumbers'
    /\ Permutation validNumbers validNumbers'
    /\ (forall r, Permutation (nth r (puzzle validNumbers) [])
                              (nth r (puzzle validNumbers') []))
    /\ searchDivisor (puzzle validNumbers) = Some ls
    /\ searchDivisor (puzzle validNumbers') = Some ls'
    /\ match reported ls, reported ls' with
       | Some (d, sols), Some (d', sols') => d = d' /\ Permutation sols sols'
       | None, None => True
       | _, _ => False
       end.
Proof.
  apply (merge_order_does_not_change_the_result requiredDigits (rev digitChars)).
  - exact requiredDigits_digits.
  - apply Permutation_sym, Permutation_rev.
Defined.

(** ** The run of the program *)

Lemma knownRows_valid : Forall validString knownRows.
Proof.
  unfold knownRows. cbn [map].
  repeat (constructor; [apply validStringb_spec; vm_compute; reflexivity|]). constructor.
Qed.

Lemma knownRows_generated validNumbers :
  generate requiredDigits = Some validNumbers -> incl knownRows validNumbers.
Proof.
  intros Hgen s Hs. apply (generate_complete validNumbers s Hgen).
  pose proof knownRows_valid as Hv. rewrite Forall_forall in Hv.
  split; [now apply Hv|]. clear Hv.
  unfold knownRows in Hs. cbn [map] in Hs.
  repeat (destruct Hs as [<-|Hs];
          [ intros d Hd; unfold requiredDigits in Hd;
            repeat (destruct Hd as [<-|Hd]; [vm_compute; tauto|]); contradiction
          | ]).
  contradiction.
Qed.

Lemma knownRows_solved :
  runSolver (filteredPuzzle (puzzle knownRows) 333667) = Some [knownGrid].
Proof. vm_compute. reflexivity. Qed.

(** The rows of the program filtered for 333667 have a solution. *)
Lemma generated_puzzle_solved_at_333667 validNumbers :
  generate requiredDigits = Some validNumbers ->
  iterationSolutions (puzzle validNumbers) 333667 <> [].
Proof.
  intros Hgen.
  destruct (runSolver_spec (puzzle validNumbers) 333667 (generated_puzzle_valid _ Hgen))
    as [sols [Hrun Hacc]].
  rewrite iterationSolutions_runSolver in Hrun. apply Some_eq_inv in Hrun.
  rewrite Hrun. intros Hnil.
  assert (Hin : In knownGrid sols).
  { apply Hacc.
    apply (acceptedGrid_mono (digitsOfRows (filteredPuzzle (puzzle knownRows) 333667))).
    - intros r Hr. rewrite !nth_digitsOfRows, !nth_filteredPuzzle.
      apply incl_map. apply filterDivisible_mono. apply puzzle_mono.
      now apply knownRows_generated.
    - destruct (runSolver_spec (puzzle knownRows) 333667
                  (pool_puzzle_valid knownRows knownRows_valid)) as [sols' [Hrun' Hacc']].
      apply Hacc'. rewrite knownRows_solved in Hrun'.
      apply Some_eq_inv in Hrun'. subst sols'. now left. }
  rewrite Hnil in Hin. contradiction.
Qed.

Lemma sorted_before_head (l1 l2 : list Z) (x : Z) :
  StronglySorted (fun a b => b < a) (l1 ++ x :: l2) -> forall y, In y l1 -> x < y.
Proof.
  induction l1 as [|a l1 IH]; simpl; intros H y Hy; [contradiction|].
  inversion H as [|? ? Hs Hall]; subst. destruct Hy as [<-|Hy].
  - rewrite Forall_forall in Hall. apply Hall. apply in_elt.
  - now apply IH.
Qed.

Lemma callsOf_eventOf puzzle d e : In e (callsOf puzzle d) -> eventOf d e.
Proof.
  unfold callsOf. destruct (filterRows 9 0 puzzle d) as [[cp valid] evs] eqn:E.
  pose proof (filterRows_events _ _ _ _ _ _ _ E) as Hev. intros Hin.
  assert (Hevs : In e evs -> eventOf d e).
  { intros H. destruct (Hev e H) as [i ->]. right. now exists i. }
  destruct valid; [|now apply Hevs].
  apply in_app_or in Hin. destruct Hin as [Hin|[<-|[]]]; [now apply Hevs|now left].
Qed.

(** X14. The program has no input, and its run ends with a report: [main]
    returns, and it reports an enumerated divisor of at least 333667 with a
    non-empty list of solutions.  Every call of the filter and of the solver
    it has made is for a divisor at least as great as the reported one, so
    none is for a divisor below 333667. *)
Theorem main_reports_a_divisor_of_at_least_333667 :
  exists ls d sols,
    main = Some ls
    /\ reported ls = Some (d, sols)
    /\ enumerated d
    /\ 333667 <= d
    /\ sols <> []
    /\ runSolver (filteredPuzzle (basePuzzle ls) d) = Some sols
    /\ forall e, In e (events ls) -> exists d', d <= d' /\ eventOf d' e.
Proof.
  destruct generated_strings_valid as [validNumbers [Hgen _]].
  pose proof (generated_puzzle_solved_at_333667 validNumbers Hgen) as Hsol.
  destruct (divisorLoop_calls candidateGCDs (mkLoop (puzzle validNumbers) [] None))
    as [ls [tried [rest [E [Ed [Hb [He Hres]]]]]]].
  cbn [basePuzzle events reported app] in *.
  assert (H0 : In 333667 candidateGCDs) by (apply candidateGCDs_In, enumerated_333667).
  pose proof candidateGCDs_sorted as Hs.
  destruct Hres as [[_ [Hrest Hall]]|[before [d [Et [Hr [Hne Hbef]]]]]].
  - exfalso. apply Hsol. apply Hall. rewrite Ed, Hrest, app_nil_r in H0. exact H0.
  - rewrite Ed, Et, <- app_assoc in H0, Hs. cbn [app] in H0, Hs.
    exists ls, d, (iterationSolutions (puzzle validNumbers) d).
    split; [unfold main; rewrite Hgen; exact E|]. split; [assumption|].
    split; [apply candidateGCDs_In; rewrite Ed, Et; apply in_or_app; left;
            apply in_or_app; right; now left|].
    split.
    { destruct (Z.le_gt_cases 333667 d) as [|Hlt]; [assumption|]. exfalso.
      apply Hsol. apply Hbef.
      apply in_app_or in H0. destruct H0 as [Hin|[->|Hin]]; [assumption|lia|].
      pose proof (sorted_after_head _ _ _ Hs _ Hin). lia. }
    split; [assumption|]. split; [rewrite Hb; apply iterationSolutions_runSolver|].
    intros e Hin. rewrite He in Hin. apply in_flat_map in Hin.
    destruct Hin as [d' [Hd' Hin]]. exists d'. split; [|now apply (callsOf_eventOf _ _ _ Hin)].
    rewrite Et in Hd'. apply in_app_or in Hd'. destruct Hd' as [Hd'|[<-|[]]]; [|lia].
    pose proof (sorted_before_head _ _ _ Hs _ Hd'). lia.
Qed.
